(** * vcm: Git tags under Semantic Versioning and Gitflow

    A shallow embedding of [src/vcm.py] (class [VersionControlManager]) and
    of the parts of its two dependencies, [re] and [semver], that the class
    calls, followed by the properties of the tag lifecycle.

    Conventions.
    - A Python [str] is a list of code points; only code points below 256
      are modelled ([ascii]), so [\d] is the ten digits ['0'..'9'].
    - Python integers are [N].
    - A call that raises is a [Raise e]; a call that returns is an [Ok v].
    - The repository is the list of its tag names, in the order of their
      creation; [repo_tags] is the enumeration of GitPython's [repo.tags],
      sorted by name. The repository is assumed to have a HEAD commit. *)

From Stdlib Require Import List Ascii NArith ZArith Bool Arith Lia.
From Stdlib Require Decimal DecimalFacts DecimalN.
Import ListNotations.

Set Implicit Arguments.

(* ================================================================== *)
(** * Strings *)

Definition str := list ascii.

Inductive strlit := SNil | SCons (c : ascii) (r : strlit).

Fixpoint strlit_of_bytes (l : list Byte.byte) : strlit :=
  match l with
  | [] => SNil
  | b :: t => SCons (ascii_of_byte b) (strlit_of_bytes t)
  end.

Fixpoint bytes_of_strlit (r : strlit) : list Byte.byte :=
  match r with
  | SNil => []
  | SCons c t => byte_of_ascii c :: bytes_of_strlit t
  end.

Declare Scope str_scope.
Delimit Scope str_scope with str.
#[warnings="-via-type-mismatch,-via-type-remapping"]
String Notation str strlit_of_bytes bytes_of_strlit
  (via strlit mapping [[nil] => SNil, [cons] => SCons]) : str_scope.
Open Scope str_scope.
Open Scope list_scope.

Definition str_eqb (a b : str) : bool :=
  if list_eq_dec ascii_dec a b then true else false.

Definition code (c : ascii) : nat := nat_of_ascii c.

Definition in_range (lo hi c : ascii) : bool :=
  (code lo <=? code c) && (code c <=? code hi).

Definition is_digit (c : ascii) : bool := in_range "0" "9" c.
Definition is_lower (c : ascii) : bool := in_range "a" "z" c.

Definition newline : ascii := ascii_of_nat 10.

(** [str.isspace] on code points below 256. *)
Definition is_space (c : ascii) : bool :=
  let n := code c in
  ((9 <=? n) && (n <=? 13)) || ((28 <=? n) && (n <=? 32))
  || (n =? 133) || (n =? 160).

Fixpoint lstrip (s : str) : str :=
  match s with
  | c :: t => if is_space c then lstrip t else s
  | [] => []
  end.

(** [str.strip()] *)
Definition strip (s : str) : str := rev (lstrip (rev (lstrip s))).

(* ================================================================== *)
(** * Results of calls *)

Inductive exn :=
| ValueError
| InvalidTagCreation (message : str)
| UnboundLocalError
| GitCommandError        (* the backend refuses to create a tag *)
| BadName                (* the backend cannot resolve a name to a commit *)
| ReError.               (* [re.error], or a pattern beyond the fragment of [Re] *)

Inductive result (A : Type) :=
| Ok (a : A)
| Raise (e : exn).
Arguments Ok {A} a.
Arguments Raise {A} e.

Definition bind {A B} (x : result A) (f : A -> result B) : result B :=
  match x with
  | Ok a => f a
  | Raise e => Raise e
  end.

Notation "x <- e1 ;; e2" := (bind e1 (fun x => e2))
  (at level 61, e1 at next level, right associativity).
Notation "' p <- e1 ;; e2" := (bind e1 (fun p => e2))
  (at level 61, p pattern, e1 at next level, right associativity).

Fixpoint mapM {A B} (f : A -> result B) (l : list A) : result (list B) :=
  match l with
  | [] => Ok []
  | a :: t => b <- f a ;; bs <- mapM f t ;; Ok (b :: bs)
  end.

(* ================================================================== *)
(** * The fragment of Python's [re] that the program uses

    Patterns are built by the program by string concatenation, so they are
    kept as strings and compiled here: literals, [.], [^], [$], escapes
    [\d] and [\<punctuation>], sets [[...]] with ranges, groups [(...)] and
    [(?:...)], alternation and the greedy quantifiers [*], [+], [?].
    Matching is the backtracking search of the [re] module, in its priority
    order, with the positions of the groups. *)

Module Re.

Inductive citem :=
| CChar (c : ascii)
| CRange (lo hi : ascii)
| CDigit.

Inductive regex :=
| Empty
| Lit (c : ascii)
| Any                                  (* any character but a newline *)
| Cls (neg : bool) (items : list citem)
| Bol                                  (* ^ *)
| Eol                                  (* $ *)
| Seq (a b : regex)
| Alt (a b : regex)
| Star (a : regex)
| Plus (a : regex)
| Opt (a : regex)
| Group (n : nat) (a : regex).

(** ** Tokens *)

Inductive token :=
| TAtom (r : regex)        (* a literal, a set, [.], [^], [$], an escape *)
| TOpen                    (* ( *)
| TOpenNC                  (* (?: *)
| TClose
| TBar
| TStar
| TPlus
| TQuest.

Definition is_alnum (c : ascii) : bool :=
  is_digit c || is_lower c || in_range "A" "Z" c.

Definition cons_tok (t : token) (r : option (list token)) : option (list token) :=
  match r with
  | Some l => Some (t :: l)
  | None => None
  end.

(** The scanner is either between tokens or inside a set [[...]], whose
    members so far are kept latest first. *)
Inductive scan := Normal | InSet (neg : bool) (acc : list citem).

Definition is_char (a c : ascii) : bool := Ascii.eqb c a.

Fixpoint scan_tokens (mode : scan) (s : str) : option (list token) :=
  match mode, s with
  | Normal, [] => Some []
  | Normal, c :: rest =>
      if is_char "\" c then
        match rest with
        | d :: rest' =>
            if is_char "d" d then cons_tok (TAtom (Cls false [CDigit])) (scan_tokens Normal rest')
            else if is_alnum d then None
            else cons_tok (TAtom (Lit d)) (scan_tokens Normal rest')
        | [] => None
        end
      else if is_char "(" c then
        match rest with
        | "?"%char :: ":"%char :: rest' => cons_tok TOpenNC (scan_tokens Normal rest')
        | "?"%char :: _ => None
        | _ => cons_tok TOpen (scan_tokens Normal rest)
        end
      else if is_char ")" c then cons_tok TClose (scan_tokens Normal rest)
      else if is_char "|" c then cons_tok TBar (scan_tokens Normal rest)
      else if is_char "*" c then cons_tok TStar (scan_tokens Normal rest)
      else if is_char "+" c then cons_tok TPlus (scan_tokens Normal rest)
      else if is_char "?" c then cons_tok TQuest (scan_tokens Normal rest)
      else if is_char "{" c then None
      else if is_char "[" c then
        match rest with
        | "]"%char :: _ => None
        | "^"%char :: "]"%char :: _ => None
        | "^"%char :: rest' => scan_tokens (InSet true []) rest'
        | _ => scan_tokens (InSet false []) rest
        end
      else if is_char "." c then cons_tok (TAtom Any) (scan_tokens Normal rest)
      else if is_char "^" c then cons_tok (TAtom Bol) (scan_tokens Normal rest)
      else if is_char "$" c then cons_tok (TAtom Eol) (scan_tokens Normal rest)
      else cons_tok (TAtom (Lit c)) (scan_tokens Normal rest)
  | InSet _ _, [] => None
  | InSet neg acc, c :: rest =>
      if is_char "]" c then cons_tok (TAtom (Cls neg (rev acc))) (scan_tokens Normal rest)
      else if is_char "[" c then None
      else if is_char "\" c then
        match rest with
        | d :: rest' =>
            if is_char "d" d then
              match rest' with
              | "-"%char :: "]"%char :: _ => scan_tokens (InSet neg (CDigit :: acc)) rest'
              | "-"%char :: _ => None
              | _ => scan_tokens (InSet neg (CDigit :: acc)) rest'
              end
            else if is_alnum d then None
            else scan_tokens (InSet neg (CChar d :: acc)) rest'
        | [] => None
        end
      else
        match rest with
        | "-"%char :: "]"%char :: rest' =>
            cons_tok (TAtom (Cls neg (rev (CChar "-" :: CChar c :: acc))))
                     (scan_tokens Normal rest')
        | "-"%char :: "\"%char :: _ => None
        | "-"%char :: hi :: rest' =>
            if code c <=? code hi then scan_tokens (InSet neg (CRange c hi :: acc)) rest'
            else None
        | _ => scan_tokens (InSet neg (CChar c :: acc)) rest
        end
  end.

Definition tokens (s : str) : option (list token) := scan_tokens Normal s.

(** ** From tokens to a regex *)

(** An open group: its number (none for [(?:] and for the pattern itself),
    the alternatives closed so far and the items of the current one, both
    latest first. *)
Record frame := Frame {
  fgroup : option nat;
  falts : list regex;
  fitems : list regex
}.

Definition seq_of (l : list regex) : regex := fold_right Seq Empty l.

Fixpoint alt_of (l : list regex) : regex :=
  match l with
  | [] => Empty
  | [a] => a
  | a :: t => Alt a (alt_of t)
  end.

Definition close_frame (f : frame) : regex :=
  let body := alt_of (rev (seq_of (rev (fitems f)) :: falts f)) in
  match fgroup f with
  | Some n => Group n body
  | None => body
  end.

Record pstate := PState {
  ngroups : nat;
  top : frame;
  below : list frame;
  repeatable : bool      (* the last item may take a quantifier *)
}.

Definition push_item (r : regex) (rep : bool) (st : pstate) : pstate :=
  let f := top st in
  PState (ngroups st) (Frame (fgroup f) (falts f) (r :: fitems f)) (below st) rep.

Definition quantify (q : regex -> regex) (st : pstate) : option pstate :=
  let f := top st in
  if repeatable st then
    match fitems f with
    | r :: items =>
        Some (PState (ngroups st) (Frame (fgroup f) (falts f) (q r :: items)) (below st) false)
    | [] => None
    end
  else None.

Definition is_anchor (r : regex) : bool :=
  match r with
  | Bol | Eol => true
  | _ => false
  end.

Definition pstep (st : pstate) (t : token) : option pstate :=
  match t with
  | TAtom r => Some (push_item r (negb (is_anchor r)) st)
  | TOpen =>
      let n := S (ngroups st) in
      Some (PState n (Frame (Some n) [] []) (top st :: below st) false)
  | TOpenNC =>
      Some (PState (ngroups st) (Frame None [] []) (top st :: below st) false)
  | TClose =>
      match below st with
      | parent :: rest =>
          Some (push_item (close_frame (top st)) true
                  (PState (ngroups st) parent rest false))
      | [] => None
      end
  | TBar =>
      let f := top st in
      Some (PState (ngroups st)
              (Frame (fgroup f) (seq_of (rev (fitems f)) :: falts f) [])
              (below st) false)
  | TStar => quantify Star st
  | TPlus => quantify Plus st
  | TQuest => quantify Opt st
  end.

Fixpoint psteps (st : pstate) (l : list token) : option pstate :=
  match l with
  | [] => Some st
  | t :: rest =>
      match pstep st t with
      | Some st' => psteps st' rest
      | None => None
      end
  end.

Definition pinit : pstate := PState 0 (Frame None [] []) [] false.

Definition pfinish (st : pstate) : option regex :=
  match below st with
  | [] => Some (close_frame (top st))
  | _ => None
  end.

(** [re.compile] *)
Definition compile (pattern : str) : option regex :=
  match tokens pattern with
  | Some l =>
      match psteps pinit l with
      | Some st => pfinish st
      | None => None
      end
  | None => None
  end.

(** ** Matching *)

Definition in_item (c : ascii) (i : citem) : bool :=
  match i with
  | CChar a => Ascii.eqb c a
  | CRange lo hi => in_range lo hi c
  | CDigit => is_digit c
  end.

Definition in_set (neg : bool) (items : list citem) (c : ascii) : bool :=
  xorb neg (existsb (in_item c) items).

(** The spans of the groups that have matched, latest first. *)
Definition marks := list (nat * (nat * nat)).

(** What is left to match: the position, the rest of the subject, the
    marks so far. *)
Definition kont := nat -> str -> marks -> option marks.

Definition orelse (a b : option marks) : option marks :=
  match a with
  | Some x => Some x
  | None => b
  end.

Definition one (p : ascii -> bool) (pos : nat) (s : str) (c : marks) (k : kont)
  : option marks :=
  match s with
  | x :: t => if p x then k (S pos) t c else None
  | [] => None
  end.

Section Repeat.
Variable step : nat -> str -> marks -> kont -> option marks.

(** Greedy repetition; an iteration that consumes nothing is not
    repeated. *)
Fixpoint star (fuel : nat) (pos : nat) (s : str) (c : marks) (k : kont)
  : option marks :=
  match fuel with
  | 0 => k pos s c
  | S fuel =>
      orelse
        (step pos s c (fun p t c' =>
           if length t <? length s then star fuel p t c' k else None))
        (k pos s c)
  end.
End Repeat.

Fixpoint m (r : regex) (pos : nat) (s : str) (c : marks) (k : kont) {struct r}
  : option marks :=
  match r with
  | Empty => k pos s c
  | Lit a => one (Ascii.eqb a) pos s c k
  | Any => one (fun x => negb (Ascii.eqb x newline)) pos s c k
  | Cls neg items => one (in_set neg items) pos s c k
  | Bol => if pos =? 0 then k pos s c else None
  | Eol =>
      match s with
      | [] => k pos s c
      | [x] => if Ascii.eqb x newline then k pos s c else None
      | _ => None
      end
  | Seq a b => m a pos s c (fun p t c' => m b p t c' k)
  | Alt a b => orelse (m a pos s c k) (m b pos s c k)
  | Star a => star (m a) (length s) pos s c k
  | Plus a => m a pos s c (fun p t c' => star (m a) (length t) p t c' k)
  | Opt a => orelse (m a pos s c k) (k pos s c)
  | Group n a => m a pos s c (fun p t c' => k p t ((n, (pos, p)) :: c'))
  end.

(** A match object: the subject and the spans of the groups; group 0 is
    the whole match. *)
Record mobj := MObj { subject : str; spans : marks }.

Fixpoint span_of (n : nat) (c : marks) : option (nat * nat) :=
  match c with
  | [] => None
  | (i, sp) :: rest => if i =? n then Some sp else span_of n rest
  end.

Definition slice (s : str) (i j : nat) : str := firstn (j - i) (skipn i s).

(** [Match.span(n)] and [Match.group(n)], [None] for a group that took no
    part in the match. *)
Definition span (mo : mobj) (n : nat) : option (nat * nat) := span_of n (spans mo).

Definition group (mo : mobj) (n : nat) : option str :=
  match span mo n with
  | Some (i, j) => Some (slice (subject mo) i j)
  | None => None
  end.

Definition whole (start : nat) : kont :=
  fun p _ c => Some ((0, (start, p)) :: c).

Definition whole_to_end (start : nat) : kont :=
  fun p t c =>
    match t with
    | [] => Some ((0, (start, p)) :: c)
    | _ => None
    end.

Definition match_re (r : regex) (s : str) : option mobj :=
  option_map (MObj s) (m r 0 s [] (whole 0)).

Definition fullmatch_re (r : regex) (s : str) : option mobj :=
  option_map (MObj s) (m r 0 s [] (whole_to_end 0)).

Fixpoint search_at (r : regex) (pos : nat) (s : str) : option marks :=
  match m r pos s [] (whole pos) with
  | Some c => Some c
  | None =>
      match s with
      | [] => None
      | _ :: t => search_at r (S pos) t
      end
  end.

Definition search_re (r : regex) (s : str) : option mobj :=
  option_map (MObj s) (search_at r 0 s).

Definition with_pattern {A} (f : regex -> str -> A) (pattern s : str) : result A :=
  match compile pattern with
  | Some r => Ok (f r s)
  | None => Raise ReError
  end.

(** [re.match], [re.fullmatch] and [re.search] on a pattern string. *)
Definition match_ := with_pattern match_re.
Definition fullmatch := with_pattern fullmatch_re.
Definition search := with_pattern search_re.

End Re.

Definition truthy {A} (o : option A) : bool :=
  match o with
  | Some _ => true
  | None => false
  end.


Definition str_truthy (s : str) : bool :=
  match s with
  | [] => false
  | _ => true
  end.

(* ================================================================== *)
(** * Integers and their decimal text *)

Fixpoint str_of_uint (d : Decimal.uint) : str :=
  match d with
  | Decimal.Nil => []
  | Decimal.D0 d => "0"%char :: str_of_uint d
  | Decimal.D1 d => "1"%char :: str_of_uint d
  | Decimal.D2 d => "2"%char :: str_of_uint d
  | Decimal.D3 d => "3"%char :: str_of_uint d
  | Decimal.D4 d => "4"%char :: str_of_uint d
  | Decimal.D5 d => "5"%char :: str_of_uint d
  | Decimal.D6 d => "6"%char :: str_of_uint d
  | Decimal.D7 d => "7"%char :: str_of_uint d
  | Decimal.D8 d => "8"%char :: str_of_uint d
  | Decimal.D9 d => "9"%char :: str_of_uint d
  end.

Definition digit_of (c : ascii) : option (Decimal.uint -> Decimal.uint) :=
  match code c - 48 with
  | 0 => if code c =? 48 then Some Decimal.D0 else None
  | 1 => Some Decimal.D1
  | 2 => Some Decimal.D2
  | 3 => Some Decimal.D3
  | 4 => Some Decimal.D4
  | 5 => Some Decimal.D5
  | 6 => Some Decimal.D6
  | 7 => Some Decimal.D7
  | 8 => Some Decimal.D8
  | 9 => Some Decimal.D9
  | _ => None
  end.

Fixpoint uint_of_str (s : str) : option Decimal.uint :=
  match s with
  | [] => Some Decimal.Nil
  | c :: t =>
      match digit_of c, uint_of_str t with
      | Some d, Some u => Some (d u)
      | _, _ => None
      end
  end.

(** [str(n)] and [f"{n}"] for an [int]. *)
Definition dec (n : N) : str := str_of_uint (N.to_uint n).

(** [int(s)] on a run of digits, the only texts the program converts. *)
Definition int_ (s : str) : result N :=
  match s with
  | [] => Raise ValueError
  | _ =>
      match uint_of_str s with
      | Some u => Ok (N.of_uint u)
      | None => Raise ValueError
      end
  end.

(* ================================================================== *)
(** * The part of [semver] (python-semver, class [Version],
      alias [VersionInfo]) that the program calls *)

Module Semver.

Record Version := MkVersion {
  major : N;
  minor : N;
  patch : N;
  prerelease : option str;
  build : option str
}.

(** [Version._REGEX], written without the layout of [re.VERBOSE] and with
    numbered groups: 1 major, 2 minor, 3 patch, 4 prerelease, 5 build. *)
Definition REGEX : str :=
  "^(0|[1-9]\d*)\.(0|[1-9]\d*)\.(0|[1-9]\d*)(?:-((?:0|[1-9]\d*|\d*[a-zA-Z-][0-9a-zA-Z-]*)(?:\.(?:0|[1-9]\d*|\d*[a-zA-Z-][0-9a-zA-Z-]*))*))?(?:\+([0-9a-zA-Z-]+(?:\.[0-9a-zA-Z-]+)*))?$".

(** [Version.parse] *)
Definition parse (version : str) : result Version :=
  mo <- Re.match_ REGEX version ;;
  match mo with
  | None => Raise ValueError
  | Some mo =>
      match Re.group mo 1, Re.group mo 2, Re.group mo 3 with
      | Some a, Some b, Some c =>
          ma <- int_ a ;;
          mi <- int_ b ;;
          pa <- int_ c ;;
          Ok (MkVersion ma mi pa (Re.group mo 4) (Re.group mo 5))
      | _, _, _ => Raise ValueError
      end
  end.

Definition opt_truthy (o : option str) : bool :=
  match o with
  | Some s => str_truthy s
  | None => false
  end.

Definition or_empty (o : option str) : str :=
  match o with
  | Some s => s
  | None => []
  end.

(** [Version.__str__] *)
Definition to_str (v : Version) : str :=
  dec (major v) ++ "." ++ dec (minor v) ++ "." ++ dec (patch v)
  ++ (if opt_truthy (prerelease v) then "-" ++ or_empty (prerelease v) else [])
  ++ (if opt_truthy (build v) then "+" ++ or_empty (build v) else []).

Definition bump_major (v : Version) : Version :=
  MkVersion (major v + 1) 0 0 None None.

Definition bump_minor (v : Version) : Version :=
  MkVersion (major v) (minor v + 1) 0 None None.

Definition bump_patch (v : Version) : Version :=
  MkVersion (major v) (minor v) (patch v + 1) None None.

(** [Version._LAST_NUMBER] *)
Definition LAST_NUMBER : str := "(?:[^\d]*(\d+)[^\d]*)+".

(** [Version._increment_string]: the last run of digits, plus one. *)
Definition increment_string (string : str) : result str :=
  mo <- Re.search LAST_NUMBER string ;;
  match mo with
  | Some mo =>
      match Re.group mo 1, Re.span mo 1 with
      | Some g, Some (start, end_) =>
          n <- int_ g ;;
          let next_ := dec (n + 1) in
          Ok (firstn (Nat.max (end_ - length next_) start) string
              ++ next_ ++ skipn end_ string)
      | _, _ => Raise ValueError
      end
  | None => Ok string
  end.

(** [Version.bump_prerelease], with its default token ["rc"]. *)
Definition bump_prerelease (v : Version) : result Version :=
  let prerelease :=
    match prerelease v with
    | Some p => p
    | None => "rc.0"
    end in
  p <- increment_string prerelease ;;
  Ok (MkVersion (major v) (minor v) (patch v) (Some p) None).

(** [_cmp]: negative, zero or positive. *)
Definition cmp_int (a b : N) : Z :=
  match N.compare a b with
  | Lt => (-1)%Z
  | Eq => 0%Z
  | Gt => 1%Z
  end.

Definition cmp_nat (a b : nat) : Z := cmp_int (N.of_nat a) (N.of_nat b).

Fixpoint cmp_str (a b : str) : Z :=
  match a, b with
  | [], [] => 0%Z
  | [], _ :: _ => (-1)%Z
  | _ :: _, [] => 1%Z
  | x :: a', y :: b' =>
      if code x <? code y then (-1)%Z
      else if code y <? code x then 1%Z
      else cmp_str a' b'
  end.

Definition cmp_triple (a b : N * N * N) : Z :=
  let '(a1, a2, a3) := a in
  let '(b1, b2, b3) := b in
  if negb (cmp_int a1 b1 =? 0)%Z then cmp_int a1 b1
  else if negb (cmp_int a2 b2 =? 0)%Z then cmp_int a2 b2
  else cmp_int a3 b3.

(** [str.split(".")] *)
Fixpoint split_dot (s : str) (cur : str) : list str :=
  match s with
  | [] => [rev cur]
  | c :: t =>
      if Ascii.eqb c "." then rev cur :: split_dot t []
      else split_dot t (c :: cur)
  end.

Inductive part := PInt (n : N) | PStr (s : str).

(** [convert] of [_nat_cmp] *)
Definition convert (text : str) : result part :=
  mo <- Re.match_ "^[0-9]+$" text ;;
  if truthy mo then n <- int_ text ;; Ok (PInt n) else Ok (PStr text).

Definition split_key (key : str) : result (list part) :=
  mapM convert (split_dot key []).

Definition cmp_prerelease_tag (a b : part) : Z :=
  match a, b with
  | PInt x, PInt y => cmp_int x y
  | PInt _, PStr _ => (-1)%Z
  | PStr _, PInt _ => 1%Z
  | PStr x, PStr y => cmp_str x y
  end.

Fixpoint cmp_parts (a b : list part) (otherwise : Z) : Z :=
  match a, b with
  | x :: a', y :: b' =>
      let r := cmp_prerelease_tag x y in
      if negb (r =? 0)%Z then r else cmp_parts a' b' otherwise
  | _, _ => otherwise
  end.

(** [_nat_cmp] *)
Definition nat_cmp (a b : option str) : result Z :=
  let a := or_empty a in
  let b := or_empty b in
  a_parts <- split_key a ;;
  b_parts <- split_key b ;;
  Ok (cmp_parts a_parts b_parts (cmp_nat (length a) (length b))).

(** [Version.compare] on two versions; the build takes no part. *)
Definition compare (v other : Version) : result Z :=
  let x := cmp_triple (major v, minor v, patch v) (major other, minor other, patch other) in
  if negb (x =? 0)%Z then Ok x
  else
    rccmp <- nat_cmp (prerelease v) (prerelease other) ;;
    if (rccmp =? 0)%Z then Ok 0%Z
    else if negb (opt_truthy (prerelease v)) then Ok 1%Z
    else if negb (opt_truthy (prerelease other)) then Ok (-1)%Z
    else Ok rccmp.

(** [Version.__lt__] *)
Definition lt (v other : Version) : result bool :=
  c <- compare v other ;; Ok (c <? 0)%Z.

End Semver.

(* ================================================================== *)
(** * The version-control backend

    Of GitPython the program uses [repo.tags], [repo.create_tag] and
    [repo.commit]. A repository is the list of the names of its tags, in
    the order of their creation; it has no other reference. [repo.tags]
    enumerates the tags sorted by name. [git tag] refuses a name that is
    taken, that is not a well-formed reference name, or that would be both
    a reference and a directory of references ([a] beside [a/b]). *)

Definition repo := list str.

Fixpoint has_infix (needle s : str) : bool :=
  match s with
  | [] => str_eqb needle []
  | _ :: t => str_eqb (firstn (length needle) s) needle || has_infix needle t
  end.

Definition bad_ref_char (c : ascii) : bool :=
  (code c <? 33) || (code c =? 127)
  || existsb (Ascii.eqb c) ["~"; "^"; ":"; "?"; "*"; "["; "\"]%char.

(** [git check-ref-format] on [refs/tags/<name>], and the refusal of a
    name that reads as an option. *)
Definition valid_tag_name (name : str) : bool :=
  str_truthy name
  && negb (existsb bad_ref_char name)
  && negb (has_infix ".." name)
  && negb (has_infix "@{" name)
  && negb (has_infix "//" name)
  && negb (has_infix "/." name)
  && negb (has_infix ".lock/" name)
  && negb (str_eqb (firstn 1 name) ".")
  && negb (str_eqb (firstn 1 name) "-")
  && negb (str_eqb (firstn 1 name) "/")
  && negb (str_eqb (firstn 1 (rev name)) "/")
  && negb (str_eqb (firstn 1 (rev name)) ".")
  && negb (str_eqb (firstn 5 (rev name)) "kcol.")
  && negb (str_eqb name "@").

Definition has_tag (r : repo) (name : str) : bool := existsb (str_eqb name) r.

(** The order of Python on [str]: by code points, a prefix first. *)
Fixpoint str_leb (a b : str) : bool :=
  match a, b with
  | [], _ => true
  | _ :: _, [] => false
  | x :: a', y :: b' =>
      if code x <? code y then true
      else if code y <? code x then false
      else str_leb a' b'
  end.

Fixpoint insert_name (x : str) (l : list str) : list str :=
  match l with
  | [] => [x]
  | y :: t => if str_leb x y then x :: l else y :: insert_name x t
  end.

(** [repo.tags]: the tags, sorted by name. *)
Definition repo_tags (r : repo) : list str := fold_right insert_name [] r.

Fixpoint is_prefix (a b : str) : bool :=
  match a, b with
  | [], _ => true
  | _ :: _, [] => false
  | x :: a', y :: b' => Ascii.eqb x y && is_prefix a' b'
  end.

(** A reference is a file: [a] and [a/b] cannot both be tags. *)
Definition clashes (r : repo) (name : str) : bool :=
  existsb (fun t => is_prefix (name ++ "/") t || is_prefix (t ++ "/") name) r.

(** [repo.create_tag(name, ...)] *)
Definition create_tag (r : repo) (name : str) : result repo :=
  if valid_tag_name name && negb (has_tag r name) && negb (clashes r name)
  then Ok (r ++ [name])
  else Raise GitCommandError.

(** [repo.commit(name)]: the commit the tag [name] points to. *)
Definition commit (r : repo) (name : str) : result unit :=
  if has_tag r name then Ok tt else Raise BadName.

(* ================================================================== *)
(** * [VersionControlManager] *)

Module Vcm.

(** What a method hands back as the new tag: a [str], or the [Version]
    that [bump_prerelease] or [bump_patch] built; [create_tag] names the
    tag by its [str()]. *)
Inductive tagval :=
| TStr (s : str)
| TVer (v : Semver.Version).

Definition name_of (t : tagval) : str :=
  match t with
  | TStr s => s
  | TVer v => Semver.to_str v
  end.

Definition PRERELEASE : str := "^(\d+)\.(\d+)\.(\d+)-([a-z]+)\.(\d+)$".
Definition PRODUCTION : str := "^(\d+)\.(\d+)\.(\d+)$".
Definition RC_OR_PATCH : str := "^(\d+)\.(\d+)\.(\d+)-(rc|patch)\.(\d+)$".

Definition base_of (t : Semver.Version) : str :=
  dec (Semver.major t) ++ "." ++ dec (Semver.minor t) ++ "." ++ dec (Semver.patch t).

Definition get_init_rc_tag (tag : str) : result str :=
  let pattern := PRERELEASE in
  mo <- Re.fullmatch pattern tag ;;
  if negb (truthy mo) then Raise ValueError
  else
    current_tag <- Semver.parse tag ;;
    Ok (base_of current_tag ++ "-rc.1").

(** [any(re.search(pattern, t.name.strip()) for t in tags)] *)
Fixpoint any_search (pattern : str) (tags : list str) : result bool :=
  match tags with
  | [] => Ok false
  | t :: rest =>
      mo <- Re.search pattern (strip t) ;;
      if truthy mo then Ok true else any_search pattern rest
  end.

Definition find_tag (r : repo) (tag : str) : result bool :=
  let pattern := "^" ++ tag ++ "$" in
  any_search pattern (repo_tags r).

(** [[tag.name.strip() for tag in tags if re.search(pattern, tag.name)]] *)
Fixpoint select (pattern : str) (tags : list str) : result (list str) :=
  match tags with
  | [] => Ok []
  | t :: rest =>
      mo <- Re.search pattern t ;;
      l <- select pattern rest ;;
      Ok (if truthy mo then strip t :: l else l)
  end.

(** [sorted(tags, key=Version.parse, reverse=True)]: the keys are computed
    first; the sort is stable, and with [reverse] it is the stable
    ascending sort of the reversed list, reversed. *)
Definition keyed := (Semver.Version * str)%type.

Fixpoint insert (x : keyed) (l : list keyed) : result (list keyed) :=
  match l with
  | [] => Ok [x]
  | y :: t =>
      b <- Semver.lt (fst y) (fst x) ;;
      if b then l' <- insert x t ;; Ok (y :: l') else Ok (x :: y :: t)
  end.

Fixpoint sort_asc (l : list keyed) : result (list keyed) :=
  match l with
  | [] => Ok []
  | x :: t => t' <- sort_asc t ;; insert x t'
  end.

Definition sorted_reverse (tags : list str) : result (list str) :=
  keys <- mapM Semver.parse tags ;;
  l <- sort_asc (rev (combine keys tags)) ;;
  Ok (map snd (rev l)).

Definition find_tag_with_pattern (r : repo) (pattern : str) : result (option str) :=
  tags <- select pattern (repo_tags r) ;;
  sorted_tags <- sorted_reverse tags ;;
  Ok (match sorted_tags with
      | t :: _ => Some t
      | [] => None
      end).

Definition get_current_tag (r : repo) (prerelease_tag : str) (production : bool)
  : result (option str) :=
  let dev_pattern :=
    if production then "^(\d+)\.(\d+)\.(\d+)$"
    else "^(\d+)\.(\d+)\.(\d+)-" ++ prerelease_tag ++ "\.(\d+)$" in
  find_tag_with_pattern r dev_pattern.

Definition created (r : repo) (t : tagval) : result (tagval * repo) :=
  r' <- create_tag r (name_of t) ;; Ok (t, r').

Definition increment_prerelease_tag (r : repo) (tag : option str)
    (prerelease_tag : str) (major_bump : bool) : result (tagval * repo) :=
  let pattern := PRERELEASE in
  next_tag <-
    match tag with
    | Some ((_ :: _) as tag) =>
        mo <- Re.fullmatch pattern tag ;;
        if negb (truthy mo) then Raise ValueError
        else
          rc <- get_init_rc_tag tag ;;
          found <- find_tag r rc ;;
          if found then
            if major_bump then
              v <- Semver.parse tag ;;
              Ok (TStr (Semver.to_str (Semver.bump_major v) ++ "-" ++ prerelease_tag ++ ".1"))
            else
              v <- Semver.parse tag ;;
              Ok (TStr (Semver.to_str (Semver.bump_minor v) ++ "-" ++ prerelease_tag ++ ".1"))
          else
            v <- Semver.parse tag ;;
            w <- Semver.bump_prerelease v ;;
            Ok (TVer w)
    | _ => Ok (TStr ("0.1.0-" ++ prerelease_tag ++ ".1"))
    end ;;
  created r next_tag.

Definition init_new_rc (r : repo) (prerelease_tag : str) : result (option str * repo) :=
  current_dev_tag <- get_current_tag r prerelease_tag false ;;
  match current_dev_tag with
  | Some ((_ :: _) as current_dev_tag) =>
      t <- Semver.parse current_dev_tag ;;
      let init_release_tag := base_of t ++ "-rc.1" in
      _ <- commit r current_dev_tag ;;
      r' <- create_tag r init_release_tag ;;
      Ok (Some init_release_tag, r')
  | _ => Ok (None, r)
  end.

Definition init_new_patch (r : repo) : result (option str * repo) :=
  current_prod <- get_current_tag r "dev" true ;;
  match current_prod with
  | Some ((_ :: _) as current_prod) =>
      let init_patch_tag := current_prod ++ "-patch.1" in
      _ <- commit r current_prod ;;
      r' <- create_tag r init_patch_tag ;;
      Ok (Some init_patch_tag, r')
  | _ => Ok (None, r)
  end.

Definition get_current_rc_patch (r : repo) (tag prerelease_tag : str)
  : result (option str) :=
  let pattern := PRODUCTION in
  mo <- Re.fullmatch pattern tag ;;
  if negb (truthy mo) then Raise ValueError
  else
    let rc_pattern := "^" ++ tag ++ "-" ++ prerelease_tag ++ "\.(\d+)$" in
    find_tag_with_pattern r rc_pattern.

Definition RC_EXISTS : str :=
  "Production version available. Cannot create Release Candidate version!".
Definition NO_PRODUCTION : str :=
  "Production version not available. Cannot create Patch version!".
Definition PATCH_SHIPPED : str :=
  "Cannot increment Patch pre-release version. Patch found in Production.".

(** The local [current_rc] is [None] while no branch has assigned it. *)
Definition increment_rc_patch (r : repo) (tag prerelease_tag : str)
  : result (option tagval * repo) :=
  let pattern := PRODUCTION in
  mo <- Re.fullmatch pattern tag ;;
  if negb (truthy mo) then Raise ValueError
  else
    is_rc_with_prod <-
      (if str_eqb prerelease_tag "rc" then find_tag r tag else Ok false) ;;
    if is_rc_with_prod then Raise (InvalidTagCreation RC_EXISTS)
    else
      is_patch_without_prod <-
        (if str_eqb prerelease_tag "patch"
         then found <- find_tag r tag ;; Ok (negb found)
         else Ok false) ;;
      if is_patch_without_prod then Raise (InvalidTagCreation NO_PRODUCTION)
      else
        current_rc <-
          (if str_eqb prerelease_tag "rc" then
             c <- get_current_rc_patch r tag "rc" ;; Ok (Some c)
           else if str_eqb prerelease_tag "patch" then
             v <- Semver.parse tag ;;
             shipped <- find_tag r (Semver.to_str (Semver.bump_patch v)) ;;
             if shipped then Raise (InvalidTagCreation PATCH_SHIPPED)
             else c <- get_current_rc_patch r tag "patch" ;; Ok (Some c)
           else Ok None) ;;
        match current_rc with
        | None => Raise UnboundLocalError
        | Some (Some ((_ :: _) as current_rc)) =>
            v <- Semver.parse current_rc ;;
            new_rc_tag <- Semver.bump_prerelease v ;;
            r' <- create_tag r (Semver.to_str new_rc_tag) ;;
            Ok (Some (TVer new_rc_tag), r')
        | Some _ => Ok (None, r)
        end.

Definition create_prod_tag (r : repo) (tag : str) : result (tagval * repo) :=
  let pattern := RC_OR_PATCH in
  mo <- Re.fullmatch pattern tag ;;
  if negb (truthy mo) then Raise ValueError
  else
    mo' <- Re.match_ pattern tag ;;
    match mo' with
    | None => Raise ValueError
    | Some mo' =>
        new_prod_tag <-
          (if match Re.group mo' 4 with
              | Some g => str_eqb g "patch"
              | None => false
              end
           then v <- Semver.parse tag ;; Ok (TVer (Semver.bump_patch v))
           else t <- Semver.parse tag ;; Ok (TStr (base_of t))) ;;
        _ <- commit r tag ;;
        r' <- create_tag r (name_of new_prod_tag) ;;
        Ok (new_prod_tag, r')
    end.

End Vcm.

Import Vcm.

Import Re.

Unset Implicit Arguments.

(* ================================================================== *)
(** * Notions used to state and prove the properties *)

(** A continuation that cannot go on from a character of [p]. *)
Definition fails_on (p : ascii -> bool) (k : kont) : Prop :=
  forall pos x t c, p x = true -> k pos (x :: t) c = None.

Definition stops (p : ascii -> bool) (s : str) : Prop :=
  match s with
  | [] => True
  | x :: _ => p x = false
  end.

Fixpoint take_while (p : ascii -> bool) (s : str) : str :=
  match s with
  | x :: t => if p x then x :: take_while p t else []
  | [] => []
  end.

Fixpoint drop_while (p : ascii -> bool) (s : str) : str :=
  match s with
  | x :: t => if p x then drop_while p t else s
  | [] => []
  end.

(** Decimal text without a leading zero. *)
Definition canon (s : str) : bool :=
  match s with
  | [] => false
  | c :: t => forallb is_digit s && (negb (Ascii.eqb c "0") || str_eqb t [])
  end.

(** ** Patterns that are a chain of characters and runs

    Most patterns of the program are of the shape [^ s1 ... sn $] where a
    segment is a literal character, a [.], or a run [x+] of a set,
    possibly in a group. For those, matching is a plain scan. *)

Inductive seg :=
| SChar (a : ascii)
| SDot
| SRun (g : option nat) (neg : bool) (items : list citem).

Definition re_of_seg (sg : seg) : regex :=
  match sg with
  | SChar a => Lit a
  | SDot => Any
  | SRun (Some n) neg items => Group n (Seq (Plus (Cls neg items)) Empty)
  | SRun None neg items => Plus (Cls neg items)
  end.

Definition chain_body (l : list seg) : regex :=
  fold_right Seq (Seq Eol Empty) (map re_of_seg l).

Definition chain_re (l : list seg) : regex := Seq Bol (chain_body l).

(** What may follow a run: a literal outside the set, or the end. *)
Fixpoint chain_ok (l : list seg) : bool :=
  match l with
  | [] => true
  | SRun _ neg items :: rest =>
      negb (in_set neg items newline)
      && match rest with
         | [] => true
         | SChar a :: _ => negb (in_set neg items a)
         | _ => false
         end
      && chain_ok rest
  | _ :: rest => chain_ok rest
  end.

Fixpoint accepts (l : list seg) (s : str) : bool :=
  match l with
  | [] =>
      match s with
      | [] => true
      | [x] => Ascii.eqb x newline
      | _ => false
      end
  | SChar a :: rest =>
      match s with
      | x :: t => Ascii.eqb a x && accepts rest t
      | [] => false
      end
  | SDot :: rest =>
      match s with
      | x :: t => negb (Ascii.eqb x newline) && accepts rest t
      | [] => false
      end
  | SRun _ neg items :: rest =>
      match take_while (in_set neg items) s with
      | [] => false
      | _ => accepts rest (drop_while (in_set neg items) s)
      end
  end.

(** The same, for a match that must reach the end of the subject. *)
Fixpoint accepts_all (l : list seg) (s : str) : bool :=
  match l with
  | [] =>
      match s with
      | [] => true
      | _ => false
      end
  | SChar a :: rest =>
      match s with
      | x :: t => Ascii.eqb a x && accepts_all rest t
      | [] => false
      end
  | SDot :: rest =>
      match s with
      | x :: t => negb (Ascii.eqb x newline) && accepts_all rest t
      | [] => false
      end
  | SRun _ neg items :: rest =>
      match take_while (in_set neg items) s with
      | [] => false
      | _ => accepts_all rest (drop_while (in_set neg items) s)
      end
  end.

Definition final (to_end : bool) (start : nat) : kont :=
  if to_end then whole_to_end start else whole start.

Definition accepts_ (to_end : bool) := if to_end then accepts_all else accepts.

(** ** Compiling a pattern that holds a name verbatim *)

(** The characters of a pattern that stand for themselves. *)
Definition plain (c : ascii) : bool :=
  negb (existsb (Ascii.eqb c) ["\"; "("; ")"; "|"; "*"; "+"; "?"; "{"; "["; "."; "^"; "$"]%char).

(** A character of a name, as the pattern reads it: [.] is a wildcard. *)
Definition seg_of_char (c : ascii) : seg :=
  if Ascii.eqb c "." then SDot else SChar c.

Definition namechar (c : ascii) : bool := plain c || Ascii.eqb c ".".

Definition tok_of_char (c : ascii) : token := TAtom (re_of_seg (seg_of_char c)).

Definition push_name (name : str) (st : pstate) : pstate :=
  match name with
  | [] => st
  | _ =>
      PState (ngroups st)
        (Frame (fgroup (top st)) (falts (top st))
           (rev (map (fun c => re_of_seg (seg_of_char c)) name) ++ fitems (top st)))
        (below st) true
  end.

Definition DIGITS (n : nat) : seg := SRun (Some n) false [CDigit].

Definition DIGIT : regex := Cls false [CDigit].
Definition NZ : regex := Cls false [CRange "1" "9"].
Definition ALPHA : regex := Cls false [CRange "a" "z"; CRange "A" "Z"; CChar "-"].
Definition ALNUM : regex := Cls false [CRange "0" "9"; CRange "a" "z"; CRange "A" "Z"; CChar "-"].
Definition NUM : regex := Alt (Seq (Lit "0") Empty) (Seq NZ (Seq (Star DIGIT) Empty)).
Definition IDENT : regex :=
  Alt (Seq (Lit "0") Empty)
    (Alt (Seq NZ (Seq (Star DIGIT) Empty))
         (Seq (Star DIGIT) (Seq ALPHA (Seq (Star ALNUM) Empty)))).
Definition MORE : regex := Star (Seq (Lit ".") (Seq IDENT Empty)).
Definition PREPART : regex :=
  Opt (Seq (Lit "-") (Seq (Group 4 (Seq IDENT (Seq MORE Empty))) Empty)).
Definition BUILDPART : regex :=
  Opt (Seq (Lit "+")
         (Seq (Group 5 (Seq (Plus ALNUM)
                          (Seq (Star (Seq (Lit ".") (Seq (Plus ALNUM) Empty))) Empty)))
              Empty)).
Definition TAIL : regex := Seq PREPART (Seq BUILDPART (Seq Eol Empty)).
Definition SEMVER_RE : regex :=
  Seq Bol (Seq (Group 1 NUM) (Seq (Lit ".") (Seq (Group 2 NUM) (Seq (Lit ".")
    (Seq (Group 3 NUM) TAIL))))).

Definition p_digit : ascii -> bool := in_set false [CDigit].
Definition p_nz : ascii -> bool := in_set false [CRange "1" "9"].
Definition p_alpha : ascii -> bool :=
  in_set false [CRange "a" "z"; CRange "A" "Z"; CChar "-"].
Definition p_alnum : ascii -> bool :=
  in_set false [CRange "0" "9"; CRange "a" "z"; CRange "A" "Z"; CChar "-"].

Definition DOT_IDENT : regex := Seq (Lit ".") (Seq IDENT Empty).

Definition REST : regex := Seq BUILDPART (Seq Eol Empty).

Definition version3 (a b c : str) (pre : option str) : result Semver.Version :=
  ma <- int_ a ;; mi <- int_ b ;; pa <- int_ c ;;
  Ok (Semver.MkVersion ma mi pa pre None).

(** The text ["X.Y.Z"] of a base version. *)
Definition base (M m p : N) : str := dec M ++ "." ++ dec m ++ "." ++ dec p.

(** The prerelease tag ["X.Y.Z-channel.N"]. *)
Definition ptag (M m p : N) (ch : str) (n : N) : str :=
  base M m p ++ "-" ++ ch ++ "." ++ dec n.

(** A channel name of lowercase letters. *)
Definition channel (ch : str) : bool := str_truthy ch && forallb is_lower ch.

(** Concatenations, flattened to the right. *)
Ltac flat := repeat (progress (rewrite <- ?app_assoc; cbn [app])).

(** ** [_increment_string] *)

Definition NOTDIGIT : regex := Cls true [CDigit].
Definition NUMBER_BODY : regex :=
  Seq (Star NOTDIGIT) (Seq (Group 1 (Seq (Plus DIGIT) Empty)) (Seq (Star NOTDIGIT) Empty)).
Definition LAST_RE : regex := Seq (Plus NUMBER_BODY) Empty.

Definition p_notdigit : ascii -> bool := in_set true [CDigit].

(** ** Comparison *)

Definition DIGITS09 : list seg := [SRun None false [CRange "0" "9"]].

Definition p_09 : ascii -> bool := in_set false [CRange "0" "9"].

Definition nodot (s : str) : bool := forallb (fun c => negb (Ascii.eqb c ".")) s.

Definition triple (v : Semver.Version) : N * N * N :=
  (Semver.major v, Semver.minor v, Semver.patch v).

(** [re.fullmatch(pattern, s)] is not [None]. *)
Definition matches (pattern s : str) : bool :=
  match Re.fullmatch pattern s with
  | Ok (Some _) => true
  | _ => false
  end.

Definition LOWERS (n : nat) : seg := SRun (Some n) false [CRange "a" "z"].

Definition PROD_CHAIN : list seg :=
  [DIGITS 1; SChar "."; DIGITS 2; SChar "."; DIGITS 3].

Definition PRE_CHAIN : list seg :=
  [DIGITS 1; SChar "."; DIGITS 2; SChar "."; DIGITS 3; SChar "-";
   LOWERS 4; SChar "."; DIGITS 5].

(** A run of digits, not empty. *)
Definition digits (s : str) : Prop := forallb is_digit s = true /\ s <> [].
Definition lowers (s : str) : Prop := forallb is_lower s = true /\ s <> [].

Definition prod_text (a b c : str) : str := a ++ "."%char :: b ++ "."%char :: c.
Definition pre_text (a b c ch n : str) : str :=
  a ++ "."%char :: b ++ "."%char :: c ++ "-"%char :: ch ++ "."%char :: n.

Definition DG (n : nat) : regex := Group n (Seq (Plus (Cls false [CDigit])) Empty).
Definition WORD_RC : regex := Seq (Lit "r") (Seq (Lit "c") Empty).
Definition WORD_PATCH : regex :=
  Seq (Lit "p") (Seq (Lit "a") (Seq (Lit "t") (Seq (Lit "c") (Seq (Lit "h") Empty)))).
Definition RCP_RE : regex :=
  Seq Bol (Seq (DG 1) (Seq (Lit ".") (Seq (DG 2) (Seq (Lit ".") (Seq (DG 3) (Seq (Lit "-")
    (Seq (Group 4 (Alt WORD_RC WORD_PATCH)) (Seq (Lit ".") (Seq (DG 5) (Seq Eol Empty)))))))))).

Definition rcp_marks (x y z w n : str) : marks :=
  let i2 := S (length x) in
  let i3 := S (i2 + length y) in
  let i4 := S (i3 + length z) in
  let i5 := S (i4 + length w) in
  [(5, (i5, i5 + length n)); (4, (i4, i4 + length w)); (3, (i3, i3 + length z));
   (2, (i2, i2 + length y)); (1, (0, length x))].

(** [promote]: the backend resolves [tag], then creates the tag that is
    handed back. *)
Definition promoted (r : repo) (tag : str) (t : tagval) : result (tagval * repo) :=
  _ <- commit r tag ;; created r t.

(** A name of one of the two shapes of the lifecycle. *)
Definition shaped (t : str) : bool := matches PRODUCTION t || matches PRERELEASE t.

(** A repository that holds nothing but production and prerelease tags. *)
Definition lifecycle (r : repo) : bool := forallb shaped r.

(** ** The characters of the names of the lifecycle *)

Ltac not_special c :=
  unfold namechar, plain; cbn [existsb];
  repeat match goal with
         | |- context [Ascii.eqb c ?x] =>
             destruct (Ascii.eqb_spec c x); [subst; discriminate|]
         end; reflexivity.

(** ** A name read as a pattern, against a name of the lifecycle *)

Definition dots (s : str) : nat := count_occ ascii_dec s "."%char.

Definition no_newline (s : str) : Prop := ~ In newline s.

Definition tagchar (c : ascii) : bool :=
  is_digit c || is_lower c || Ascii.eqb c "-" || Ascii.eqb c ".".

(** The returned tag as a version: a [str] operand of a comparison is
    parsed by [Version.compare]. *)
Definition as_version (t : tagval) : result Semver.Version :=
  match t with
  | TStr s => Semver.parse s
  | TVer v => Ok v
  end.

(** ** Groups that a part of the pattern leaves alone *)

Fixpoint no_group (n : nat) (r : regex) : bool :=
  match r with
  | Seq a b | Alt a b => no_group n a && no_group n b
  | Star a | Plus a | Opt a => no_group n a
  | Group j a => negb (j =? n) && no_group n a
  | _ => true
  end.

Definition keeps (n : nat) (k : kont) : Prop :=
  forall p t c c', k p t c = Some c' -> span_of n c' = span_of n c.

(** The lexicographic order on lists of numbers. *)
Fixpoint lexc (a b : list N) : comparison :=
  match a, b with
  | [], [] => Eq
  | [], _ :: _ => Lt
  | _ :: _, [] => Gt
  | x :: a', y :: b' =>
      match N.compare x y with
      | Eq => lexc a' b'
      | c => c
      end
  end.

Definition lex_lt (a b : list N) : bool :=
  match lexc a b with
  | Lt => true
  | _ => false
  end.

(** The keyed list of a sort: its versions are in the class [P], and no
    element is below one that comes before it. *)
Definition ranked (P : Semver.Version -> Prop) (l : list keyed) : Prop :=
  Forall (fun x => P (fst x)) l.

Fixpoint ascending (key : Semver.Version -> list N) (l : list keyed) : Prop :=
  match l with
  | [] => True
  | x :: t =>
      Forall (fun y => lex_lt (key (fst y)) (key (fst x)) = false) t /\ ascending key t
  end.

Definition nd (c : ascii) : bool := negb (Ascii.eqb c ".").

(** A tag that [semver] reads. *)
Definition versioned (t : str) : bool :=
  match Semver.parse t with
  | Ok _ => true
  | Raise _ => false
  end.

(** A tag of the lifecycle written without leading zeros, and a
    repository of such tags. *)
Definition canonical (t : str) : bool := shaped t && versioned t.

Definition wellformed (r : repo) : bool := forallb canonical r.

(** The number that ends the prerelease, [0] without one. *)
Definition ordinal (v : Semver.Version) : N :=
  match Semver.prerelease v with
  | Some pre =>
      match int_ (last (Semver.split_dot pre []) []) with
      | Ok n => n
      | Raise _ => 0%N
      end
  | None => 0%N
  end.

Definition rank (v : Semver.Version) : list N :=
  [Semver.major v; Semver.minor v; Semver.patch v; ordinal v].

Definition plain_version (v : Semver.Version) : Prop :=
  exists M m p, v = Semver.MkVersion M m p None None.

Definition channel_version (ch : str) (v : Semver.Version) : Prop :=
  exists M m p n, v = Semver.MkVersion M m p (Some (ch ++ "." ++ dec n)) None.

(** *** The production grammar *)

Definition production_tag (t : str) : Prop := exists M m p, t = base M m p.

(** *** The grammar of a channel *)

Definition CHANNEL_CHAIN (ch : str) : list seg :=
  [DIGITS 1; SChar "."; DIGITS 2; SChar "."; DIGITS 3; SChar "-"]
  ++ map seg_of_char ch ++ [SChar "."; DIGITS 4].

Definition channel_tag (ch t : str) : Prop := exists M m p n, t = ptag M m p ch n.

(** *** The prereleases of one base version in one channel *)

Definition FAMILY_CHAIN (name : str) : list seg :=
  map seg_of_char name ++ [SChar "."; DIGITS 1].

Definition family_tag (M m p : N) (ch t : str) : Prop := exists n, t = ptag M m p ch n.

(** What a lookup hands back over a class [C] of tags: nothing when the
    repository has no tag of the class, and otherwise a tag of the class
    that no other one is above. *)
Definition highest_of (C : str -> Prop) (r : repo) (out : option str) : Prop :=
  match out with
  | None => forall t, In t r -> ~ C t
  | Some d =>
      In d r /\ C d
      /\ exists v, Semver.parse d = Ok v
                   /\ forall u w, In u r -> C u -> Semver.parse u = Ok w ->
                                  Semver.lt v w = Ok false
                                  /\ lex_lt (rank v) (rank w) = false
  end.

(** The test of [find_tag_with_pattern] on one tag:
    [re.search(pattern, tag.name)] finds a match. *)
Definition selects (pattern t : str) : bool :=
  match Re.search pattern t with
  | Ok (Some _) => true
  | _ => false
  end.


(** The pattern that [get_current_tag] builds for a channel. *)
Definition CHANNEL_PATTERN (ch : str) : str := "^(\d+)\.(\d+)\.(\d+)-" ++ ch ++ "\.(\d+)$".

(* ================================================================== *)
(** * Facts *)

Lemma str_eqb_eq (a b : str) : str_eqb a b = true <-> a = b.
Proof.
  unfold str_eqb; destruct (list_eq_dec ascii_dec a b); split; congruence.
Qed.

Lemma str_eqb_refl (a : str) : str_eqb a a = true.
Proof. now apply str_eqb_eq. Qed.

Lemma str_eqb_neq (a b : str) : str_eqb a b = false <-> a <> b.
Proof.
  unfold str_eqb; destruct (list_eq_dec ascii_dec a b); split; congruence.
Qed.

Lemma orelse_none_r (a : option marks) : orelse a None = a.
Proof. now destruct a. Qed.

Lemma star_one_run (p : ascii -> bool) (k : kont) (run : str) :
  forall fuel pos rest c,
    forallb p run = true -> stops p rest -> fails_on p k ->
    length run <= fuel ->
    star (one p) fuel pos (run ++ rest) c k = k (pos + length run) rest c.
Proof.
  induction run as [|y run IH]; intros fuel pos rest c Hrun Hrest Hk Hfuel.
  - simpl. rewrite Nat.add_0_r. destruct fuel as [|fuel]; simpl; [reflexivity|].
    destruct rest as [|x t]; simpl; [reflexivity|].
    simpl in Hrest. now rewrite Hrest.
  - simpl in Hrun. apply andb_true_iff in Hrun as [Hy Hrun].
    destruct fuel as [|fuel]; simpl in Hfuel; [lia|].
    simpl. rewrite Hy.
    replace (length (run ++ rest) <? S (length (run ++ rest))) with true
      by (symmetry; apply Nat.ltb_lt; lia).
    rewrite IH by (auto; lia).
    rewrite (Hk pos y (run ++ rest) c Hy), orelse_none_r.
    f_equal. lia.
Qed.

Lemma take_drop_while p s : take_while p s ++ drop_while p s = s.
Proof. induction s as [|x t IH]; simpl; [reflexivity|]. destruct (p x); simpl; congruence. Qed.

Lemma take_while_all p s : forallb p (take_while p s) = true.
Proof. induction s as [|x t IH]; simpl; [reflexivity|]. destruct (p x) eqn:E; simpl; [now rewrite E|reflexivity]. Qed.

Lemma drop_while_stops p s : stops p (drop_while p s).
Proof. induction s as [|x t IH]; simpl; [exact I|]. destruct (p x) eqn:E; simpl; auto. Qed.

Lemma take_while_app p run rest :
  forallb p run = true -> stops p rest -> take_while p (run ++ rest) = run.
Proof.
  induction run as [|x run IH]; simpl; intros Hr Hs.
  - destruct rest; simpl in *; [reflexivity|now rewrite Hs].
  - apply andb_true_iff in Hr as [-> Hr]. now rewrite IH.
Qed.

Lemma drop_while_app p run rest :
  forallb p run = true -> stops p rest -> drop_while p (run ++ rest) = rest.
Proof.
  induction run as [|x run IH]; simpl; intros Hr Hs.
  - destruct rest; simpl in *; [reflexivity|now rewrite Hs].
  - apply andb_true_iff in Hr as [-> Hr]. now rewrite IH.
Qed.

(** [r*] and [r+] over a one-character [r], before a continuation that
    cannot start inside the run: the whole run is taken. *)
Lemma star_one (p : ascii -> bool) (k : kont) pos s c :
  fails_on p k ->
  star (one p) (length s) pos s c k
  = k (pos + length (take_while p s)) (drop_while p s) c.
Proof.
  intros Hk. rewrite <- (take_drop_while p s) at 1 2.
  apply star_one_run; auto using take_while_all, drop_while_stops.
  rewrite length_app. lia.
Qed.

Lemma plus_one (p : ascii -> bool) (k : kont) pos s c :
  fails_on p k ->
  one p pos s c (fun p' t c' => star (one p) (length t) p' t c' k)
  = match take_while p s with
    | [] => None
    | _ => k (pos + length (take_while p s)) (drop_while p s) c
    end.
Proof.
  intros Hk. destruct s as [|x t]; simpl; [reflexivity|].
  destruct (p x) eqn:E; [|reflexivity].
  rewrite star_one by assumption. f_equal. simpl. lia.
Qed.

Lemma code_inj (a b : ascii) : code a = code b -> a = b.
Proof.
  unfold code; intros H.
  rewrite <- (ascii_nat_embedding a), <- (ascii_nat_embedding b). now rewrite H.
Qed.

Lemma is_digit_code (c : ascii) : is_digit c = true <-> 48 <= code c <= 57.
Proof.
  unfold is_digit, in_range. rewrite andb_true_iff, !Nat.leb_le. reflexivity.
Qed.

Lemma is_lower_code (c : ascii) : is_lower c = true <-> 97 <= code c <= 122.
Proof.
  unfold is_lower, in_range. rewrite andb_true_iff, !Nat.leb_le. reflexivity.
Qed.

Lemma digit_of_some (c : ascii) :
  is_digit c = true -> exists d, digit_of c = Some d /\ forall u, str_of_uint (d u) = c :: str_of_uint u.
Proof.
  intros H. apply is_digit_code in H. unfold digit_of.
  assert (E : code c = 48 + (code c - 48)) by lia.
  destruct (code c - 48) as [|[|[|[|[|[|[|[|[|[|k]]]]]]]]]] eqn:K;
    try (try rewrite E; simpl; eexists; split; [reflexivity|];
         intros u; simpl; f_equal; apply code_inj; rewrite E; reflexivity).
  lia.
Qed.

Lemma digit_of_is_digit (c : ascii) d : digit_of c = Some d -> is_digit c = true.
Proof.
  unfold digit_of. intros H. apply is_digit_code.
  destruct (code c - 48) as [|[|[|[|[|[|[|[|[|[|k]]]]]]]]]] eqn:K; try lia; try discriminate.
  destruct (code c =? 48) eqn:E; [|discriminate]. apply Nat.eqb_eq in E. lia.
Qed.

Lemma str_of_uint_digits u : forallb is_digit (str_of_uint u) = true.
Proof. induction u; simpl; auto. Qed.

Lemma uint_of_str_of_uint u : uint_of_str (str_of_uint u) = Some u.
Proof. induction u; simpl; try rewrite IHu; reflexivity. Qed.

Lemma uint_of_str_some (s : str) :
  forallb is_digit s = true -> exists u, uint_of_str s = Some u /\ str_of_uint u = s.
Proof.
  induction s as [|c s IH]; simpl; intros H.
  - exists Decimal.Nil. auto.
  - apply andb_true_iff in H as [Hc Hs].
    destruct (IH Hs) as (u & Hu & Hus).
    destruct (digit_of_some c Hc) as (d & Hd & Hdu).
    exists (d u). rewrite Hd, Hu. split; [reflexivity|]. now rewrite Hdu, Hus.
Qed.

Lemma uint_of_str_digits (s : str) u : uint_of_str s = Some u -> forallb is_digit s = true.
Proof.
  revert u; induction s as [|c s IH]; simpl; intros u H; [reflexivity|].
  destruct (digit_of c) eqn:D; [|discriminate].
  destruct (uint_of_str s) eqn:U; [|discriminate].
  rewrite (digit_of_is_digit _ _ D). simpl. eauto.
Qed.

Lemma to_uint_unorm n : Decimal.unorm (N.to_uint n) = N.to_uint n.
Proof.
  rewrite <- (DecimalN.Unsigned.of_to n) at 2.
  now rewrite DecimalN.Unsigned.to_of.
Qed.

Lemma dec_digits n : forallb is_digit (dec n) = true.
Proof. apply str_of_uint_digits. Qed.

Lemma unorm_fix_canon u : Decimal.unorm u = u -> canon (str_of_uint u) = true.
Proof.
  intros H. unfold canon.
  destruct u as [|u'| | | | | | | | |]; simpl; try discriminate;
    try (rewrite str_of_uint_digits; reflexivity).
  rewrite str_of_uint_digits. simpl.
  unfold Decimal.unorm in H. simpl in H.
  destruct (Decimal.nzhead u') eqn:E.
  - injection H as <-. reflexivity.
  - injection H as <-. now apply DecimalFacts.nzhead_nonzero in E.
  - discriminate. - discriminate. - discriminate. - discriminate.
  - discriminate. - discriminate. - discriminate. - discriminate.
  - discriminate.
Qed.

Lemma canon_dec n : canon (dec n) = true.
Proof. apply unorm_fix_canon, to_uint_unorm. Qed.

Lemma dec_nonempty n : dec n <> [].
Proof. intros H. pose proof (canon_dec n) as C. now rewrite H in C. Qed.

Lemma int_dec n : int_ (dec n) = Ok n.
Proof.
  unfold int_. destruct (dec n) eqn:E; [now apply dec_nonempty in E|].
  rewrite <- E. unfold dec. rewrite uint_of_str_of_uint.
  now rewrite DecimalN.Unsigned.of_to.
Qed.

Lemma canon_unorm (s : str) u :
  canon s = true -> uint_of_str s = Some u -> Decimal.unorm u = u.
Proof.
  unfold canon. destruct s as [|c t]; [discriminate|].
  intros H U. apply andb_true_iff in H as [_ H].
  simpl in U. destruct (digit_of c) as [d|] eqn:D; [|discriminate].
  destruct (uint_of_str t) as [v|] eqn:V; [|discriminate].
  injection U as <-.
  apply orb_true_iff in H as [H|H].
  - unfold digit_of in D.
    destruct (code c - 48) as [|[|[|[|[|[|[|[|[|[|k]]]]]]]]]] eqn:K;
      try discriminate; try (injection D as <-; reflexivity).
    destruct (code c =? 48) eqn:E48; [|discriminate].
    apply Nat.eqb_eq in E48.
    assert (c = "0"%char) by (apply code_inj; rewrite E48; reflexivity).
    subst c. discriminate.
  - apply str_eqb_eq in H. subst t. simpl in V. injection V as <-.
    unfold digit_of in D.
    destruct (code c - 48) as [|[|[|[|[|[|[|[|[|[|k]]]]]]]]]] eqn:K;
      try discriminate; try (injection D as <-; reflexivity).
    destruct (code c =? 48); [|discriminate]. injection D as <-. reflexivity.
Qed.

(** A run of digits without a leading zero is the text of its value. *)
Lemma canon_is_dec (s : str) :
  canon s = true -> exists n, s = dec n /\ int_ s = Ok n.
Proof.
  intros C.
  assert (D : forallb is_digit s = true).
  { unfold canon in C. destruct s; [discriminate|]. now apply andb_true_iff in C as [C _]. }
  destruct (uint_of_str_some s D) as (u & U & Us).
  exists (N.of_uint u).
  assert (E : dec (N.of_uint u) = s).
  { unfold dec. rewrite DecimalN.Unsigned.to_of, (canon_unorm s u C U). exact Us. }
  split; [now symmetry|]. rewrite <- E at 1. apply int_dec.
Qed.

Lemma dec_inj n n' : dec n = dec n' -> n = n'.
Proof.
  intros H. pose proof (int_dec n) as A. rewrite H, int_dec in A. congruence.
Qed.

Lemma m_plus_set neg items pos s c k :
  fails_on (in_set neg items) k ->
  m (Plus (Cls neg items)) pos s c k
  = match take_while (in_set neg items) s with
    | [] => None
    | _ => k (pos + length (take_while (in_set neg items) s))
             (drop_while (in_set neg items) s) c
    end.
Proof. intros Hk. exact (plus_one _ k pos s c Hk). Qed.

Lemma m_run_group n neg items r pos s c k :
  (forall p0, fails_on (in_set neg items) (fun p t c' => m r p t ((n, (p0, p)) :: c') k)) ->
  m (Seq (Group n (Seq (Plus (Cls neg items)) Empty)) r) pos s c k
  = match take_while (in_set neg items) s with
    | [] => None
    | _ => m r (pos + length (take_while (in_set neg items) s))
             (drop_while (in_set neg items) s)
             ((n, (pos, pos + length (take_while (in_set neg items) s))) :: c) k
    end.
Proof.
  intros H.
  exact (m_plus_set neg items pos s c
           (fun p t c' => m r p t ((n, (pos, p)) :: c') k) (H pos)).
Qed.

Lemma m_run_plain neg items r pos s c k :
  fails_on (in_set neg items) (fun p t c' => m r p t c' k) ->
  m (Seq (Plus (Cls neg items)) r) pos s c k
  = match take_while (in_set neg items) s with
    | [] => None
    | _ => m r (pos + length (take_while (in_set neg items) s))
             (drop_while (in_set neg items) s) c k
    end.
Proof.
  intros H.
  exact (m_plus_set neg items pos s c (fun p t c' => m r p t c' k) H).
Qed.

Lemma chain_head_fails (p : ascii -> bool) l k :
  p newline = false ->
  match l with
  | [] => True
  | SChar a :: _ => p a = false
  | _ => False
  end ->
  fails_on p (fun pos t c => m (chain_body l) pos t c k).
Proof.
  intros Hnl Hl pos x t c Hx. destruct l as [|[a| |g neg items] l]; simpl in *; try tauto.
  - destruct t; [|reflexivity].
    destruct (Ascii.eqb_spec x newline); [congruence|reflexivity].
  - destruct (Ascii.eqb_spec a x); [congruence|reflexivity].
Qed.

Lemma chain_body_spec to_end start (l : list seg) :
  chain_ok l = true ->
  forall pos s c,
    truthy (m (chain_body l) pos s c (final to_end start)) = accepts_ to_end l s.
Proof.
  induction l as [|sg l IH]; intros Hok pos s c.
  - destruct to_end; simpl.
    + destruct s as [|x [|y t]]; simpl; try reflexivity.
      now destruct (Ascii.eqb x newline).
    + destruct s as [|x [|y t]]; simpl; try reflexivity.
      now destruct (Ascii.eqb x newline).
  - destruct sg as [a| |g neg items].
    + simpl in Hok. specialize (IH Hok).
      change (chain_body (SChar a :: l)) with (Seq (Lit a) (chain_body l)).
      destruct s as [|x t]; [now destruct to_end|].
      cbn [m one].
      replace (accepts_ to_end (SChar a :: l) (x :: t))
        with (Ascii.eqb a x && accepts_ to_end l t) by now destruct to_end.
      destruct (Ascii.eqb a x); simpl; [apply IH|reflexivity].
    + simpl in Hok. specialize (IH Hok).
      change (chain_body (SDot :: l)) with (Seq Any (chain_body l)).
      destruct s as [|x t]; [now destruct to_end|].
      cbn [m one].
      replace (accepts_ to_end (SDot :: l) (x :: t))
        with (negb (Ascii.eqb x newline) && accepts_ to_end l t) by now destruct to_end.
      destruct (Ascii.eqb x newline); simpl; [reflexivity|apply IH].
    + simpl in Hok. apply andb_true_iff in Hok as [Hok Hl].
      apply andb_true_iff in Hok as [Hnl Hnext].
      apply negb_true_iff in Hnl. specialize (IH Hl).
      assert (Hhead : match l with
                      | [] => True
                      | SChar a :: _ => in_set neg items a = false
                      | _ => False
                      end).
      { destruct l as [|[a| |] l']; try discriminate; auto. now apply negb_true_iff. }
      pose proof (chain_head_fails (in_set neg items) l (final to_end start) Hnl Hhead) as F.
      assert (E : accepts_ to_end (SRun g neg items :: l) s
                  = match take_while (in_set neg items) s with
                    | [] => false
                    | _ => accepts_ to_end l (drop_while (in_set neg items) s)
                    end) by now destruct to_end.
      rewrite E. clear E.
      destruct g as [n|].
      * change (chain_body (SRun (Some n) neg items :: l))
          with (Seq (Group n (Seq (Plus (Cls neg items)) Empty)) (chain_body l)).
        rewrite m_run_group.
        -- destruct (take_while (in_set neg items) s); [reflexivity|]. apply IH.
        -- intros p0 p x t c' Hx. apply F. exact Hx.
      * change (chain_body (SRun None neg items :: l))
          with (Seq (Plus (Cls neg items)) (chain_body l)).
        rewrite m_run_plain by exact F.
        destruct (take_while (in_set neg items) s); [reflexivity|]. apply IH.
Qed.

Lemma search_at_bol r pos s : search_at (Seq Bol r) (S pos) s = None.
Proof. revert pos; induction s as [|x t IH]; intros pos; simpl; auto. Qed.

Lemma chain_search (l : list seg) s :
  chain_ok l = true -> truthy (search_re (chain_re l) s) = accepts l s.
Proof.
  intros Hok. unfold search_re, chain_re.
  pose proof (chain_body_spec false 0 l Hok 0 s []) as H. simpl in H.
  destruct s as [|x t]; simpl search_at; cbn [m Nat.eqb];
    destruct (m (chain_body l) 0 _ [] (whole 0)) eqn:E; simpl in *; auto.
  rewrite search_at_bol. simpl. exact H.
Qed.

Lemma chain_match (l : list seg) s :
  chain_ok l = true -> truthy (match_re (chain_re l) s) = accepts l s.
Proof.
  intros Hok. unfold match_re, chain_re.
  pose proof (chain_body_spec false 0 l Hok 0 s []) as H. simpl in H.
  cbn [m Nat.eqb]. destruct (m (chain_body l) 0 s [] (whole 0)); simpl in *; auto.
Qed.

Lemma chain_fullmatch (l : list seg) s :
  chain_ok l = true -> truthy (fullmatch_re (chain_re l) s) = accepts_all l s.
Proof.
  intros Hok. unfold fullmatch_re, chain_re.
  pose proof (chain_body_spec true 0 l Hok 0 s []) as H. simpl in H.
  cbn [m Nat.eqb]. destruct (m (chain_body l) 0 s [] (whole_to_end 0)); simpl in *; auto.
Qed.

Lemma scan_plain c rest :
  plain c = true ->
  scan_tokens Normal (c :: rest) = cons_tok (TAtom (Lit c)) (scan_tokens Normal rest).
Proof.
  unfold plain. rewrite negb_true_iff. simpl. rewrite !orb_false_iff.
  intros (H1 & H2 & H3 & H4 & H5 & H6 & H7 & H8 & H9 & H10 & H11 & H12 & _).
  unfold is_char. now rewrite H1, H2, H3, H4, H5, H6, H7, H8, H9, H10, H11, H12.
Qed.

Lemma scan_namechar c rest :
  namechar c = true ->
  scan_tokens Normal (c :: rest) = cons_tok (tok_of_char c) (scan_tokens Normal rest).
Proof.
  unfold namechar, tok_of_char, seg_of_char. intros H.
  destruct (Ascii.eqb_spec c "."); [subst; reflexivity|].
  rewrite orb_false_r in H. now apply scan_plain.
Qed.

Lemma scan_name name rest :
  forallb namechar name = true ->
  scan_tokens Normal (name ++ rest)
  = option_map (app (map tok_of_char name)) (scan_tokens Normal rest).
Proof.
  induction name as [|c name IH]; simpl; intros H.
  - now destruct (scan_tokens Normal rest).
  - apply andb_true_iff in H as [Hc H].
    change (scan_tokens Normal (c :: name ++ rest)
            = option_map (app (map tok_of_char (c :: name))) (scan_tokens Normal rest)).
    rewrite scan_namechar, IH by assumption.
    now destruct (scan_tokens Normal rest).
Qed.

Lemma psteps_app st l1 l2 :
  psteps st (l1 ++ l2)
  = match psteps st l1 with
    | Some st' => psteps st' l2
    | None => None
    end.
Proof.
  revert st; induction l1 as [|t l1 IH]; intros st; simpl; [reflexivity|].
  destruct (pstep st t); auto.
Qed.

Lemma psteps_name name st :
  psteps st (map tok_of_char name) = Some (push_name name st).
Proof.
  revert st; induction name as [|c name IH]; intros st; [reflexivity|].
  change (match pstep st (tok_of_char c) with
          | Some st' => psteps st' (map tok_of_char name)
          | None => None
          end = Some (push_name (c :: name) st)).
  assert (E : pstep st (tok_of_char c)
              = Some (push_item (re_of_seg (seg_of_char c)) true st)).
  { unfold tok_of_char, seg_of_char. now destruct (Ascii.eqb c "."). }
  rewrite E, IH. f_equal. unfold push_name, push_item.
  destruct name as [|d name]; simpl; [reflexivity|].
  f_equal. f_equal. now rewrite <- !app_assoc.
Qed.

Lemma seq_of_app l1 l2 : seq_of (l1 ++ l2) = fold_right Seq (seq_of l2) l1.
Proof. unfold seq_of. apply fold_right_app. Qed.

Lemma chain_re_seq_of l :
  chain_re l = seq_of (Bol :: map re_of_seg l ++ [Eol]).
Proof.
  unfold chain_re, chain_body. simpl. now rewrite seq_of_app.
Qed.

(** [find_tag]: [^name$] *)
Lemma compile_exact name :
  forallb namechar name = true ->
  compile ("^" ++ name ++ "$") = Some (chain_re (map seg_of_char name)).
Proof.
  intros H. unfold compile, tokens.
  change (scan_tokens Normal ("^" ++ name ++ "$"))
    with (cons_tok (TAtom Bol) (scan_tokens Normal (name ++ "$"))).
  rewrite scan_name by assumption. simpl option_map. simpl cons_tok. cbv beta iota.
  change (TAtom Bol :: map tok_of_char name ++ [TAtom Eol])
    with ([TAtom Bol] ++ map tok_of_char name ++ [TAtom Eol]).
  rewrite psteps_app.
  change (psteps pinit [TAtom Bol])
    with (Some (PState 0 (Frame None [] [Bol]) [] false)).
  cbv beta iota. rewrite psteps_app, psteps_name.
  rewrite chain_re_seq_of, map_map.
  destruct name as [|c name]; [reflexivity|].
  unfold push_name. simpl. unfold pfinish, close_frame. simpl.
  f_equal. rewrite !rev_app_distr, rev_involutive. reflexivity.
Qed.

(** [get_current_rc_patch]: [^name\.(\d+)$] *)
Lemma compile_family name :
  forallb namechar name = true ->
  compile ("^" ++ name ++ "\.(\d+)$")
  = Some (chain_re (map seg_of_char name ++ [SChar "."; DIGITS 1])).
Proof.
  intros H. unfold compile, tokens.
  change (scan_tokens Normal ("^" ++ name ++ "\.(\d+)$"))
    with (cons_tok (TAtom Bol) (scan_tokens Normal (name ++ "\.(\d+)$"))).
  rewrite scan_name by assumption.
  change (scan_tokens Normal "\.(\d+)$")
    with (Some [TAtom (Lit "."); TOpen; TAtom (Cls false [CDigit]); TPlus; TClose; TAtom Eol]).
  simpl option_map. simpl cons_tok. cbv beta iota.
  change (TAtom Bol :: ?l) with ([TAtom Bol] ++ l).
  rewrite psteps_app.
  change (psteps pinit [TAtom Bol])
    with (Some (PState 0 (Frame None [] [Bol]) [] false)).
  cbv beta iota. rewrite psteps_app, psteps_name.
  rewrite chain_re_seq_of, map_app, map_map.
  destruct name as [|c name]; [reflexivity|].
  unfold push_name. simpl. unfold pfinish, close_frame. simpl.
  f_equal. rewrite !rev_app_distr, rev_involutive. simpl.
  rewrite <- !app_assoc. reflexivity.
Qed.

(** [get_current_tag]: [^(\d+)\.(\d+)\.(\d+)-name\.(\d+)$] *)
Lemma compile_channel name :
  forallb namechar name = true ->
  compile ("^(\d+)\.(\d+)\.(\d+)-" ++ name ++ "\.(\d+)$")
  = Some (chain_re ([DIGITS 1; SChar "."; DIGITS 2; SChar "."; DIGITS 3; SChar "-"]
                    ++ map seg_of_char name ++ [SChar "."; DIGITS 4])).
Proof.
  intros H. unfold compile, tokens.
  set (pre := [TAtom Bol; TOpen; TAtom (Cls false [CDigit]); TPlus; TClose; TAtom (Lit ".");
               TOpen; TAtom (Cls false [CDigit]); TPlus; TClose; TAtom (Lit ".");
               TOpen; TAtom (Cls false [CDigit]); TPlus; TClose; TAtom (Lit "-")]).
  assert (E : scan_tokens Normal ("^(\d+)\.(\d+)\.(\d+)-" ++ name ++ "\.(\d+)$")
              = option_map (app pre) (scan_tokens Normal (name ++ "\.(\d+)$"))).
  { simpl. now destruct (scan_tokens Normal (name ++ "\.(\d+)$")). }
  rewrite E, scan_name by assumption.
  change (scan_tokens Normal "\.(\d+)$")
    with (Some [TAtom (Lit "."); TOpen; TAtom (Cls false [CDigit]); TPlus; TClose; TAtom Eol]).
  cbn [option_map]. rewrite psteps_app.
  set (d := fun n => Group n (Seq (Plus (Cls false [CDigit])) Empty)).
  change (psteps pinit pre)
    with (Some (PState 3 (Frame None [] [Lit "-"; d 3; Lit "."; d 2; Lit "."; d 1; Bol]) [] true)).
  cbv beta iota. rewrite psteps_app, psteps_name.
  rewrite chain_re_seq_of, !map_app, map_map.
  destruct name as [|c name]; [reflexivity|].
  unfold push_name. simpl. unfold pfinish, close_frame. simpl.
  f_equal. rewrite !rev_app_distr, rev_involutive. simpl.
  rewrite <- !app_assoc. reflexivity.
Qed.

Lemma compile_semver : compile Semver.REGEX = Some SEMVER_RE.
Proof. vm_compute. reflexivity. Qed.

Lemma p_digit_eq x : p_digit x = is_digit x.
Proof. unfold p_digit, in_set. simpl. now rewrite orb_false_r. Qed.

Lemma forallb_ext_eq (p q : ascii -> bool) (s : str) :
  (forall x, p x = q x) -> forallb p s = forallb q s.
Proof. intros E; induction s; simpl; [reflexivity|]. now rewrite E, IHs. Qed.

Lemma stops_weaken (p q : ascii -> bool) (s : str) :
  (forall x, q x = true -> p x = true) -> stops p s -> stops q s.
Proof.
  intros E. destruct s as [|x t]; simpl; [auto|]. intros H.
  destruct (q x) eqn:Q; [|reflexivity]. apply E in Q. congruence.
Qed.

Lemma fails_on_weaken (p q : ascii -> bool) k :
  (forall x, q x = true -> p x = true) -> fails_on p k -> fails_on q k.
Proof. intros E H pos x t c Q. apply H. now apply E. Qed.

Lemma digit_alnum x : is_digit x = true -> p_alnum x = true.
Proof.
  intros H. unfold p_alnum, in_set. simpl. unfold is_digit in H. now rewrite H.
Qed.

Lemma p_digit_alnum x : p_digit x = true -> p_alnum x = true.
Proof. rewrite p_digit_eq. apply digit_alnum. Qed.

Lemma lower_alnum x : is_lower x = true -> p_alnum x = true.
Proof.
  intros H. unfold p_alnum, in_set. simpl. unfold is_lower in H. rewrite H.
  now rewrite orb_true_r.
Qed.

Lemma lower_alpha x : is_lower x = true -> p_alpha x = true.
Proof.
  intros H. unfold p_alpha, in_set. simpl. unfold is_lower in H. now rewrite H.
Qed.

Lemma alpha_alnum x : p_alpha x = true -> p_alnum x = true.
Proof.
  unfold p_alpha, p_alnum, in_set. simpl. intros H.
  destruct (in_range "0" "9" x); [reflexivity|exact H].
Qed.

Lemma digit_not_alpha x : is_digit x = true -> p_alpha x = false.
Proof.
  intros H. apply is_digit_code in H.
  assert (A : in_range "a" "z" x = false).
  { unfold in_range. change (code "a") with 97.
    apply andb_false_iff; left; apply Nat.leb_gt; lia. }
  assert (B : in_range "A" "Z" x = false).
  { unfold in_range. change (code "A") with 65.
    apply andb_false_iff; left; apply Nat.leb_gt; lia. }
  assert (C : Ascii.eqb x "-" = false).
  { apply Ascii.eqb_neq. intros ->. cbv in H. lia. }
  unfold p_alpha, in_set. cbn [existsb in_item]. now rewrite A, B, C.
Qed.

Lemma lower_not_digit x : is_lower x = true -> is_digit x = false.
Proof.
  intros H. apply is_lower_code in H. unfold is_digit, in_range.
  change (code "9") with 57.
  apply andb_false_iff; right; apply Nat.leb_gt; lia.
Qed.

Lemma digit_nz x : is_digit x = true -> x <> "0"%char -> p_nz x = true.
Proof.
  intros H N. apply is_digit_code in H.
  assert (code x <> 48) by (intros E; apply N, code_inj; rewrite E; reflexivity).
  unfold p_nz, in_set. cbn [existsb in_item]. unfold in_range.
  change (code "1") with 49. change (code "9") with 57.
  rewrite orb_false_r. apply andb_true_iff; split; apply Nat.leb_le; lia.
Qed.

(** Unfolding of the matcher, one constructor at a time. *)
Lemma m_empty pos s c k : m Empty pos s c k = k pos s c.
Proof. reflexivity. Qed.
Lemma m_seq a b pos s c k :
  m (Seq a b) pos s c k = m a pos s c (fun p t c' => m b p t c' k).
Proof. reflexivity. Qed.
Lemma m_alt a b pos s c k :
  m (Alt a b) pos s c k = orelse (m a pos s c k) (m b pos s c k).
Proof. reflexivity. Qed.
Lemma m_opt a pos s c k :
  m (Opt a) pos s c k = orelse (m a pos s c k) (k pos s c).
Proof. reflexivity. Qed.
Lemma m_group n a pos s c k :
  m (Group n a) pos s c k = m a pos s c (fun p t c' => k p t ((n, (pos, p)) :: c')).
Proof. reflexivity. Qed.
Lemma m_lit_cons a pos x t c k :
  m (Lit a) pos (x :: t) c k = if Ascii.eqb a x then k (S pos) t c else None.
Proof. reflexivity. Qed.
Lemma m_lit_nil a pos c k : m (Lit a) pos [] c k = None.
Proof. reflexivity. Qed.
Lemma m_set_cons neg items pos x t c k :
  m (Cls neg items) pos (x :: t) c k = if in_set neg items x then k (S pos) t c else None.
Proof. reflexivity. Qed.
Lemma m_set_nil neg items pos c k : m (Cls neg items) pos [] c k = None.
Proof. reflexivity. Qed.
Lemma m_eol_nil pos c k : m Eol pos [] c k = k pos [] c.
Proof. reflexivity. Qed.
Lemma m_eol_cons pos x y t c k : m Eol pos (x :: y :: t) c k = None.
Proof. reflexivity. Qed.
Lemma m_bol_0 s c k : m Bol 0 s c k = k 0 s c.
Proof. reflexivity. Qed.

Lemma m_star_run neg items pos run rest c k :
  forallb (in_set neg items) run = true ->
  stops (in_set neg items) rest ->
  fails_on (in_set neg items) k ->
  m (Star (Cls neg items)) pos (run ++ rest) c k = k (pos + length run) rest c.
Proof.
  intros. cbn [m]. apply (star_one_run (in_set neg items)); auto.
  rewrite length_app. lia.
Qed.

Lemma m_plus_run neg items pos run rest c k :
  forallb (in_set neg items) run = true -> run <> [] ->
  stops (in_set neg items) rest ->
  fails_on (in_set neg items) k ->
  m (Plus (Cls neg items)) pos (run ++ rest) c k = k (pos + length run) rest c.
Proof.
  intros Hrun Hne Hrest Hk. rewrite m_plus_set by assumption.
  rewrite take_while_app, drop_while_app by assumption.
  destruct run; [congruence|reflexivity].
Qed.

(** [0|[1-9]\d*] on a run of digits. *)
Lemma num_spec (a rest : str) pos c k :
  forallb is_digit a = true -> a <> [] ->
  stops is_digit rest -> fails_on is_digit k ->
  m NUM pos (a ++ rest) c k
  = if canon a then k (pos + length a) rest c else None.
Proof.
  intros Ha Hne Hrest Hk. destruct a as [|x a']; [congruence|].
  simpl in Ha. apply andb_true_iff in Ha as [Hx Ha'].
  unfold canon. cbn [forallb]. rewrite Hx, Ha'. cbn [andb].
  cbn [app]. unfold NUM.
  rewrite m_alt, !m_seq, m_lit_cons.
  unfold NZ. rewrite m_set_cons. fold p_nz.
  destruct (Ascii.eqb_spec x "0") as [->|Nx].
  - change (p_nz "0") with false. change (Ascii.eqb "0" "0") with true.
    cbv beta iota. rewrite m_empty, orelse_none_r. cbn [negb orb].
    destruct a' as [|y a'']; cbn [app str_eqb].
    + change (str_eqb [] []) with true. cbv iota. f_equal. simpl. lia.
    + replace (str_eqb (y :: a'') []) with false
        by (symmetry; now apply str_eqb_neq).
      simpl in Ha'. apply andb_true_iff in Ha' as [Hy _]. now apply Hk.
  - replace (Ascii.eqb "0" x) with false
      by (symmetry; apply Ascii.eqb_neq; congruence).
    rewrite (digit_nz x Hx Nx). cbn [negb orb orelse]. cbv beta.
    rewrite m_seq. unfold DIGIT. rewrite m_star_run.
    + rewrite m_empty. f_equal. simpl. lia.
    + rewrite <- Ha'. apply forallb_ext_eq, p_digit_eq.
    + apply stops_weaken with (p := is_digit); auto. intros y. now rewrite <- p_digit_eq.
    + intros p y t c' Hy. rewrite m_empty. apply Hk. now rewrite <- p_digit_eq.
Qed.

Lemma m_star a pos s c k : m (Star a) pos s c k = star (m a) (length s) pos s c k.
Proof. reflexivity. Qed.

Lemma star_S step fuel pos s c k :
  star step (S fuel) pos s c k
  = orelse (step pos s c (fun p t c' =>
              if length t <? length s then star step fuel p t c' k else None))
           (k pos s c).
Proof. reflexivity. Qed.

Lemma p_alnum_dot : p_alnum "." = false.
Proof. reflexivity. Qed.

Lemma alnum_not_dot x : p_alnum x = true -> Ascii.eqb "." x = false.
Proof.
  intros H. apply Ascii.eqb_neq. intros <-. now rewrite p_alnum_dot in H.
Qed.

(** An identifier of letters. *)
Lemma ident_alpha (ch rest : str) pos c k :
  forallb is_lower ch = true -> ch <> [] ->
  stops p_alnum rest -> fails_on p_alnum k ->
  m IDENT pos (ch ++ rest) c k = k (pos + length ch) rest c.
Proof.
  intros Hch Hne Hrest Hk. destruct ch as [|x ch']; [congruence|].
  simpl in Hch. apply andb_true_iff in Hch as [Hx Hch'].
  cbn [app]. unfold IDENT.
  rewrite !m_alt, !m_seq, m_lit_cons. unfold NZ at 1. rewrite m_set_cons.
  assert (Dx : is_digit x = false) by now apply lower_not_digit.
  replace (Ascii.eqb "0" x) with false
    by (symmetry; apply Ascii.eqb_neq; intros <-; discriminate).
  replace (in_set false [CRange "1" "9"] x) with false.
  2:{ symmetry. unfold in_set. cbn [existsb in_item xorb].
      apply is_lower_code in Hx. unfold in_range.
      change (code "9") with 57.
      rewrite orb_false_r. apply andb_false_iff; right; apply Nat.leb_gt; lia. }
  cbn [orelse]. unfold DIGIT.
  rewrite (m_star_run false [CDigit] pos [] (x :: ch' ++ rest)); cbn [app length].
  - cbv beta. rewrite Nat.add_0_r, m_seq. unfold ALPHA. rewrite m_set_cons. fold p_alpha.
    rewrite (lower_alpha x Hx). rewrite m_seq. unfold ALNUM.
    rewrite m_star_run.
    + cbv beta. rewrite m_empty. f_equal. lia.
    + fold p_alnum. rewrite <- Hch'. clear - Hch'.
      induction ch' as [|y l IH]; simpl in *; [reflexivity|].
      apply andb_true_iff in Hch' as [Hy Hl]. rewrite Hy, (lower_alnum y Hy). simpl. auto.
    + exact Hrest.
    + intros p y t c' Hy. rewrite m_empty. now apply Hk.
  - reflexivity.
  - cbn [stops]. fold p_digit. now rewrite p_digit_eq.
  - intros p y t c' Hy. fold p_digit in Hy. rewrite p_digit_eq in Hy.
    rewrite m_seq. unfold ALPHA. rewrite m_set_cons. fold p_alpha.
    now rewrite (digit_not_alpha y Hy).
Qed.

(** An identifier of digits. *)
Lemma ident_digits (n rest : str) pos c k :
  forallb is_digit n = true -> n <> [] ->
  stops p_alnum rest -> fails_on p_alnum k ->
  m IDENT pos (n ++ rest) c k
  = if canon n then k (pos + length n) rest c else None.
Proof.
  intros Hn Hne Hrest Hk.
  assert (Hrest' : stops is_digit rest).
  { apply stops_weaken with (p := p_alnum); auto using digit_alnum. }
  assert (Hk' : fails_on is_digit k).
  { apply fails_on_weaken with (p := p_alnum); auto using digit_alnum. }
  unfold IDENT. rewrite m_alt.
  change (Alt (Seq NZ (Seq (Star DIGIT) Empty))
              (Seq (Star DIGIT) (Seq ALPHA (Seq (Star ALNUM) Empty))))
    with (Alt (Seq NZ (Seq (Star DIGIT) Empty))
              (Seq (Star DIGIT) (Seq ALPHA (Seq (Star ALNUM) Empty)))).
  rewrite (m_alt (Seq NZ (Seq (Star DIGIT) Empty))).
  assert (E3 : m (Seq (Star DIGIT) (Seq ALPHA (Seq (Star ALNUM) Empty))) pos (n ++ rest) c k = None).
  { rewrite m_seq. unfold DIGIT. rewrite m_star_run.
    - cbv beta. rewrite m_seq. unfold ALPHA. destruct rest as [|y t]; [apply m_set_nil|].
      rewrite m_set_cons. fold p_alpha. cbn [stops] in Hrest.
      destruct (p_alpha y) eqn:A; [|reflexivity].
      apply alpha_alnum in A. congruence.
    - rewrite <- Hn. apply forallb_ext_eq, p_digit_eq.
    - apply stops_weaken with (p := is_digit); auto. intros y. now rewrite <- p_digit_eq.
    - intros p y t c' Hy. fold p_digit in Hy. rewrite p_digit_eq in Hy.
      rewrite m_seq. unfold ALPHA. rewrite m_set_cons. fold p_alpha.
    now rewrite (digit_not_alpha y Hy). }
  rewrite E3, orelse_none_r.
  pose proof (num_spec n rest pos c k Hn Hne Hrest' Hk') as E.
  unfold NUM in E. rewrite m_alt in E. exact E.
Qed.

Lemma star_dot_ident_fails k :
  fails_on p_alnum k ->
  forall fuel, fails_on p_alnum (fun p t c' => star (m DOT_IDENT) fuel p t c' k).
Proof.
  intros Hk fuel pos x t c Hx. destruct fuel as [|fuel].
  - simpl. now apply Hk.
  - rewrite star_S. unfold DOT_IDENT at 1. rewrite m_seq, m_lit_cons.
    rewrite (alnum_not_dot x Hx). cbn [orelse]. now apply Hk.
Qed.

Lemma star_dot_ident_nil fuel pos c k :
  star (m DOT_IDENT) fuel pos [] c k = k pos [] c.
Proof. destruct fuel; reflexivity. Qed.

(** [(?:\.ident)*] on one more identifier of digits, at the end. *)
Lemma more_digits (n : str) pos c k :
  forallb is_digit n = true -> n <> [] ->
  fails_on p_alnum k ->
  k pos ("."%char :: n) c = None ->
  m MORE pos ("."%char :: n) c k
  = if canon n then k (S pos + length n) [] c else None.
Proof.
  intros Hn Hne Hk Hdot. unfold MORE. fold DOT_IDENT.
  rewrite m_star. cbn [length]. rewrite star_S, Hdot, orelse_none_r.
  unfold DOT_IDENT at 1. rewrite m_seq, m_lit_cons.
  change (Ascii.eqb "." ".") with true. cbv iota beta.
  rewrite m_seq. rewrite <- (app_nil_r n) at 1.
  rewrite ident_digits; auto.
  - destruct (canon n); [|reflexivity]. rewrite m_empty.
    cbn [length]. replace (0 <? S (length n)) with true by reflexivity.
    apply star_dot_ident_nil.
  - exact I.
  - intros p y t c' Hy. rewrite m_empty.
    match goal with |- (if ?b then _ else _) = _ => destruct b end; [|reflexivity].
    now apply star_dot_ident_fails.
Qed.

Lemma tail_nil pos c st : m TAIL pos [] c (whole st) = Some ((0, (st, pos)) :: c).
Proof. reflexivity. Qed.

Lemma rest_fails pos x t c st :
  x <> "+"%char -> (t <> [] \/ x <> newline) ->
  m REST pos (x :: t) c (whole st) = None.
Proof.
  intros Hplus Hnl. unfold REST, BUILDPART.
  rewrite m_seq, m_opt, m_seq, m_lit_cons.
  replace (Ascii.eqb "+" x) with false by (symmetry; apply Ascii.eqb_neq; congruence).
  cbn [orelse]. destruct t as [|y t].
  - cbn [m]. destruct (Ascii.eqb_spec x newline); [|reflexivity]. destruct Hnl; congruence.
  - reflexivity.
Qed.

Lemma tail_fails pos x t c st :
  x <> "-"%char -> x <> "+"%char -> (t <> [] \/ x <> newline) ->
  m TAIL pos (x :: t) c (whole st) = None.
Proof.
  intros Hminus Hplus Hnl. unfold TAIL, PREPART. fold REST.
  rewrite m_seq, m_opt, m_seq, m_lit_cons.
  replace (Ascii.eqb "-" x) with false by (symmetry; apply Ascii.eqb_neq; congruence).
  cbn [orelse]. now apply rest_fails.
Qed.

Lemma alnum_not_plus x : p_alnum x = true -> x <> "+"%char.
Proof. intros H ->. discriminate. Qed.

Lemma alnum_not_newline x : p_alnum x = true -> x <> newline.
Proof. intros H ->. discriminate. Qed.

Lemma digit_not_dot x : is_digit x = true -> Ascii.eqb "." x = false.
Proof. intros H. apply Ascii.eqb_neq. intros <-. discriminate. Qed.

(** The prerelease [-ch.n] of a channel of letters and a run of digits. *)
Lemma tail_pre (ch n : str) pos c st :
  forallb is_lower ch = true -> ch <> [] ->
  forallb is_digit n = true -> n <> [] ->
  m TAIL pos ("-"%char :: ch ++ "."%char :: n) c (whole st)
  = if canon n
    then Some ((0, (st, S (S pos + length ch) + length n))
               :: (4, (S pos, S (S pos + length ch) + length n)) :: c)
    else None.
Proof.
  intros Hch Hch0 Hn Hn0. unfold TAIL, PREPART. fold REST.
  rewrite m_seq, m_opt.
  rewrite (rest_fails pos); [|discriminate|left; destruct ch; discriminate].
  rewrite orelse_none_r, m_seq, m_lit_cons.
  change (Ascii.eqb "-" "-") with true. cbv iota beta.
  rewrite m_seq, m_group, m_seq.
  assert (F : forall p0, fails_on p_alnum
                (fun p t c' => m REST p t ((4, (p0, p)) :: c') (whole st))).
  { intros p0 p x t c' Hx. apply rest_fails.
    - now apply alnum_not_plus.
    - right. now apply alnum_not_newline. }
  rewrite ident_alpha; auto; [|reflexivity|].
  - cbv beta. rewrite m_seq, more_digits; auto.
    + intros p x t c' Hx. rewrite !m_empty. now apply F.
    + rewrite !m_empty. apply rest_fails; [discriminate|left; destruct n; congruence].
  - intros p x t c' Hx. rewrite m_seq. unfold MORE. fold DOT_IDENT. rewrite m_star.
    apply (star_dot_ident_fails
             (fun p1 t1 c1 => m Empty p1 t1 c1
                (fun p2 t2 c2 => m Empty p2 t2 ((4, (S pos, p2)) :: c2)
                   (fun p3 t3 c3 => m REST p3 t3 c3 (whole st))))); auto.
    intros p1 y t1 c1 Hy. rewrite !m_empty. now apply F.
Qed.

Lemma tail_fails_digit st (f : nat -> marks -> marks) :
  fails_on is_digit (fun p t c' => m TAIL p t (f p c') (whole st)).
Proof.
  intros p x t c' Hx. apply tail_fails.
  - intros ->. discriminate.
  - intros ->. discriminate.
  - right. intros ->. discriminate.
Qed.

Lemma dot_fails_digit (r : regex) k (f : nat -> marks -> marks) :
  fails_on is_digit (fun p t c' => m (Seq (Lit ".") r) p t (f p c') k).
Proof.
  intros p x t c' Hx. rewrite m_seq, m_lit_cons. now rewrite (digit_not_dot x Hx).
Qed.

(** The three numbers of a version, before whatever follows them. *)
Lemma semver_head (a b c tail : str) :
  forallb is_digit a = true -> a <> [] ->
  forallb is_digit b = true -> b <> [] ->
  forallb is_digit c = true -> c <> [] ->
  stops is_digit tail ->
  m SEMVER_RE 0 (a ++ "."%char :: b ++ "."%char :: c ++ tail) [] (whole 0)
  = if canon a && canon b && canon c
    then m TAIL (S (S (length a) + length b) + length c) tail
           [(3, (S (S (length a) + length b), S (S (length a) + length b) + length c));
            (2, (S (length a), S (length a) + length b));
            (1, (0, length a))]
           (whole 0)
    else None.
Proof.
  intros Ha Ha0 Hb Hb0 Hc Hc0 Htail. unfold SEMVER_RE.
  rewrite m_seq, m_bol_0, m_seq, m_group.
  rewrite num_spec; auto; [|reflexivity|].
  2:{ apply (dot_fails_digit _ _ (fun p c' => (1, (0, p)) :: c')). }
  destruct (canon a); [|reflexivity]. cbv beta. cbn [andb Nat.add].
  rewrite m_seq, m_lit_cons. change (Ascii.eqb "." ".") with true. cbv iota beta.
  rewrite m_seq, m_group.
  rewrite num_spec; auto; [|reflexivity|].
  2:{ apply (dot_fails_digit _ _ (fun p c' => (2, (S (length a), p)) :: c')). }
  destruct (canon b); [|reflexivity]. cbv beta. cbn [andb].
  rewrite m_seq, m_lit_cons. change (Ascii.eqb "." ".") with true. cbv iota beta.
  rewrite m_seq, m_group.
  rewrite num_spec;
    [|assumption|assumption|assumption
     |apply (tail_fails_digit 0
               (fun p c' => (3, (S (S (length a) + length b), p)) :: c'))].
  destruct (canon c); reflexivity.
Qed.

Lemma slice_at (s pre mid post : str) i j :
  s = pre ++ mid ++ post -> i = length pre -> j = length pre + length mid ->
  slice s i j = mid.
Proof.
  intros -> -> ->. unfold slice.
  rewrite skipn_app, skipn_all, Nat.sub_diag. simpl.
  replace (length pre + length mid - length pre) with (length mid + 0) by lia.
  rewrite firstn_app_2. simpl. apply app_nil_r.
Qed.

(** [Version.parse] on a text of the production shape. *)
Lemma parse_prod_shape (a b c : str) :
  forallb is_digit a = true -> a <> [] ->
  forallb is_digit b = true -> b <> [] ->
  forallb is_digit c = true -> c <> [] ->
  Semver.parse (a ++ "."%char :: b ++ "."%char :: c)
  = if canon a && canon b && canon c then version3 a b c None else Raise ValueError.
Proof.
  intros Ha Ha0 Hb Hb0 Hc Hc0.
  unfold Semver.parse, match_, with_pattern. rewrite compile_semver.
  cbn [bind]. unfold match_re.
  assert (E : m SEMVER_RE 0 (a ++ "."%char :: b ++ "."%char :: c) [] (whole 0)
              = if canon a && canon b && canon c
                then Some [(0, (0, S (S (length a) + length b) + length c));
                           (3, (S (S (length a) + length b), S (S (length a) + length b) + length c));
                           (2, (S (length a), S (length a) + length b));
                           (1, (0, length a))]
                else None).
  { rewrite <- (app_nil_r c) at 1. rewrite semver_head by (auto; exact I).
    now rewrite tail_nil. }
  rewrite E. clear E.
  destruct (canon a && canon b && canon c); [|reflexivity].
  cbn [option_map]. unfold group, span. cbn [spans subject span_of Nat.eqb].
  rewrite (slice_at _ [] a ("."%char :: b ++ "."%char :: c)); [|reflexivity|reflexivity|simpl; lia].
  rewrite (slice_at _ (a ++ ["."%char]) b ("."%char :: c));
    [|now rewrite <- app_assoc|rewrite length_app; simpl; lia|rewrite length_app; simpl; lia].
  rewrite (slice_at _ (a ++ "."%char :: b ++ ["."%char]) c []);
    [|now rewrite app_nil_r, <- !app_assoc; simpl; rewrite <- !app_assoc
     |rewrite !length_app; simpl; rewrite length_app; simpl; lia
     |rewrite !length_app; simpl; rewrite length_app; simpl; lia].
  reflexivity.
Qed.

(** [Version.parse] on a text of the prerelease shape. *)
Lemma parse_pre_shape (a b c ch n : str) :
  forallb is_digit a = true -> a <> [] ->
  forallb is_digit b = true -> b <> [] ->
  forallb is_digit c = true -> c <> [] ->
  forallb is_lower ch = true -> ch <> [] ->
  forallb is_digit n = true -> n <> [] ->
  Semver.parse (a ++ "."%char :: b ++ "."%char :: c ++ "-"%char :: ch ++ "."%char :: n)
  = if canon a && canon b && canon c && canon n
    then version3 a b c (Some (ch ++ "."%char :: n))
    else Raise ValueError.
Proof.
  intros Ha Ha0 Hb Hb0 Hc Hc0 Hch Hch0 Hn Hn0.
  unfold Semver.parse, match_, with_pattern. rewrite compile_semver.
  cbn [bind]. unfold match_re.
  rewrite semver_head by (auto; reflexivity).
  destruct (canon a && canon b && canon c); [|reflexivity]. cbn [andb].
  rewrite tail_pre by assumption.
  destruct (canon n); [|reflexivity].
  cbn [option_map]. unfold group, span. cbn [spans subject span_of Nat.eqb].
  set (s := a ++ "."%char :: b ++ "."%char :: c ++ "-"%char :: ch ++ "."%char :: n).
  rewrite (slice_at s [] a ("."%char :: b ++ "."%char :: c ++ "-"%char :: ch ++ "."%char :: n));
    [|reflexivity|reflexivity|simpl; lia].
  rewrite (slice_at s (a ++ ["."%char]) b ("."%char :: c ++ "-"%char :: ch ++ "."%char :: n));
    [|unfold s; now rewrite <- app_assoc
     |rewrite length_app; simpl; lia|rewrite length_app; simpl; lia].
  rewrite (slice_at s (a ++ "."%char :: b ++ ["."%char]) c ("-"%char :: ch ++ "."%char :: n));
    [|unfold s; now rewrite <- !app_assoc; simpl; rewrite <- !app_assoc
     |rewrite !length_app; simpl; rewrite length_app; simpl; lia
     |rewrite !length_app; simpl; rewrite length_app; simpl; lia].
  rewrite (slice_at s (a ++ "."%char :: b ++ "."%char :: c ++ ["-"%char]) (ch ++ "."%char :: n) []);
    [|unfold s; rewrite app_nil_r; rewrite <- !app_assoc; simpl; rewrite <- !app_assoc;
      simpl; rewrite <- !app_assoc; reflexivity
     |rewrite !length_app; simpl; rewrite !length_app; simpl; rewrite length_app; simpl; lia
     |rewrite !length_app; simpl; rewrite !length_app; simpl; rewrite !length_app; simpl; lia].
  reflexivity.
Qed.

Lemma channel_spec ch : channel ch = true <-> forallb is_lower ch = true /\ ch <> [].
Proof.
  unfold channel. rewrite andb_true_iff. destruct ch; simpl; intuition congruence.
Qed.

Lemma version3_dec M m p pre :
  version3 (dec M) (dec m) (dec p) pre = Ok (Semver.MkVersion M m p pre None).
Proof. unfold version3. now rewrite !int_dec. Qed.

Lemma parse_base M m p :
  Semver.parse (base M m p) = Ok (Semver.MkVersion M m p None None).
Proof.
  unfold base. cbn [app].
  rewrite parse_prod_shape; auto using dec_digits, dec_nonempty.
  now rewrite !canon_dec, version3_dec.
Qed.

Lemma parse_ptag M m p ch n :
  channel ch = true ->
  Semver.parse (ptag M m p ch n)
  = Ok (Semver.MkVersion M m p (Some (ch ++ "." ++ dec n)) None).
Proof.
  intros H. apply channel_spec in H as [Hch Hch0].
  unfold ptag, base. rewrite <- !app_assoc. cbn [app].
  rewrite parse_pre_shape; auto using dec_digits, dec_nonempty.
  now rewrite !canon_dec, version3_dec.
Qed.

Lemma to_str_plain M m p : Semver.to_str (Semver.MkVersion M m p None None) = base M m p.
Proof. unfold Semver.to_str, base. simpl. now rewrite !app_nil_r. Qed.

Lemma to_str_pre M m p ch n :
  channel ch = true ->
  Semver.to_str (Semver.MkVersion M m p (Some (ch ++ "." ++ dec n)) None) = ptag M m p ch n.
Proof.
  intros H. apply channel_spec in H as [_ H0].
  unfold Semver.to_str, ptag, base. cbn [Semver.major Semver.minor Semver.patch
    Semver.prerelease Semver.build Semver.opt_truthy Semver.or_empty].
  destruct ch as [|x ch]; [congruence|]. cbn [app str_truthy].
  rewrite app_nil_r. flat. reflexivity.
Qed.

Lemma compile_last_number : compile Semver.LAST_NUMBER = Some LAST_RE.
Proof. reflexivity. Qed.

Lemma star_one_run_some (p : ascii -> bool) (k : kont) (run : str) r :
  forall fuel pos rest c,
    forallb p run = true -> stops p rest ->
    length run <= fuel ->
    k (pos + length run) rest c = Some r ->
    star (one p) fuel pos (run ++ rest) c k = Some r.
Proof.
  induction run as [|y run IH]; intros fuel pos rest c Hrun Hrest Hfuel Hk.
  - simpl in *. rewrite Nat.add_0_r in Hk. destruct fuel as [|fuel]; simpl; [assumption|].
    destruct rest as [|x t]; simpl; [assumption|].
    simpl in Hrest. now rewrite Hrest.
  - simpl in Hrun. apply andb_true_iff in Hrun as [Hy Hrun].
    destruct fuel as [|fuel]; simpl in Hfuel; [lia|].
    simpl. rewrite Hy.
    replace (length (run ++ rest) <? S (length (run ++ rest))) with true
      by (symmetry; apply Nat.ltb_lt; lia).
    rewrite (IH fuel (S pos) rest c); auto; [lia|].
    rewrite <- Hk. f_equal. simpl. lia.
Qed.

Lemma m_star_run_some neg items pos run rest c k r :
  forallb (in_set neg items) run = true ->
  stops (in_set neg items) rest ->
  k (pos + length run) rest c = Some r ->
  m (Star (Cls neg items)) pos (run ++ rest) c k = Some r.
Proof.
  intros. cbn [m]. apply (@star_one_run_some (in_set neg items)); auto.
  rewrite length_app. lia.
Qed.

Lemma p_notdigit_eq x : p_notdigit x = negb (is_digit x).
Proof. unfold p_notdigit, in_set. simpl. now rewrite orb_false_r. Qed.

Lemma search_at_first r pos s c :
  m r pos s [] (whole pos) = Some c -> search_at r pos s = Some c.
Proof. intros H. destruct s; simpl; now rewrite H. Qed.

Lemma last_number_spec (ch d : str) :
  forallb is_lower ch = true -> forallb is_digit d = true -> d <> [] ->
  search_at LAST_RE 0 (ch ++ "."%char :: d)
  = Some [(0, (0, S (length ch) + length d)); (1, (S (length ch), S (length ch) + length d))].
Proof.
  intros Hch Hd Hd0.
  assert (E : m LAST_RE 0 (ch ++ "."%char :: d) [] (whole 0)
              = Some [(0, (0, S (length ch) + length d));
                      (1, (S (length ch), S (length ch) + length d))]).
  { unfold LAST_RE. rewrite m_seq. cbn [m]. fold (m NUMBER_BODY).
    unfold NUMBER_BODY at 1. rewrite m_seq. unfold NOTDIGIT at 1.
    replace (ch ++ "."%char :: d) with ((ch ++ ["."%char]) ++ d) by now rewrite <- app_assoc.
    apply m_star_run_some.
    - fold p_notdigit. rewrite forallb_app. apply andb_true_iff; split; [|reflexivity].
      clear - Hch. induction ch as [|x ch IH]; simpl in *; [reflexivity|].
      apply andb_true_iff in Hch as [Hx Hch]. rewrite p_notdigit_eq, (lower_not_digit x Hx).
      simpl. auto.
    - destruct d as [|y d]; [congruence|]. cbn [stops]. fold p_notdigit.
      simpl in Hd. apply andb_true_iff in Hd as [Hy _]. now rewrite p_notdigit_eq, Hy.
    - rewrite m_seq, m_group, m_seq. unfold DIGIT.
      cbn [m]. rewrite <- (app_nil_r d) at 1 2.
      destruct d as [|y d]; [congruence|]. cbn [app one].
      simpl in Hd. apply andb_true_iff in Hd as [Hy Hd].
      fold p_digit. rewrite p_digit_eq, Hy.
      apply (@star_one_run_some p_digit).
      + rewrite <- Hd. apply forallb_ext_eq, p_digit_eq.
      + exact I.
      + rewrite length_app. simpl. lia.
      + rewrite length_app. simpl. unfold whole. rewrite app_nil_r.
        replace (length ch + 1) with (S (length ch)) by lia.
        replace (S (S (length ch) + length d)) with (S (length ch + S (length d))) by lia.
        reflexivity. }
  now apply search_at_first.
Qed.

Lemma length_str_of_uint u : length (str_of_uint u) = Decimal.nb_digits u.
Proof. induction u; simpl; congruence. Qed.

Lemma nb_digits_succ d : Decimal.nb_digits d <= Decimal.nb_digits (Decimal.Little.succ d).
Proof. induction d; simpl; lia. Qed.

Lemma to_uint_rev n : N.to_uint n = Decimal.rev (DecimalPos.Unsigned.to_lu n).
Proof. destruct n; reflexivity. Qed.

Lemma dec_length_succ n : length (dec n) <= length (dec (n + 1)).
Proof.
  unfold dec. rewrite !length_str_of_uint, !to_uint_rev, !DecimalFacts.nb_digits_rev.
  rewrite N.add_1_r, DecimalPos.Unsigned.to_lu_succ. apply nb_digits_succ.
Qed.

Lemma increment_string_spec ch n :
  forallb is_lower ch = true ->
  Semver.increment_string (ch ++ "." ++ dec n) = Ok (ch ++ "." ++ dec (n + 1)).
Proof.
  intros Hch. unfold Semver.increment_string, search, with_pattern.
  rewrite compile_last_number. cbn [bind app]. unfold search_re.
  rewrite last_number_spec; auto using dec_digits, dec_nonempty.
  cbn [option_map]. unfold group, span. cbn [spans subject span_of Nat.eqb].
  rewrite (@slice_at (ch ++ "."%char :: dec n) (ch ++ ["."%char]) (dec n) []);
    [|now rewrite app_nil_r, <- app_assoc
     |rewrite length_app; simpl; lia|rewrite length_app; simpl; lia].
  rewrite int_dec. cbn [bind]. f_equal.
  pose proof (dec_length_succ n) as L.
  replace (Nat.max (S (length ch) + length (dec n) - length (dec (n + 1))) (S (length ch)))
    with (length (ch ++ ["."%char])) by (rewrite length_app; cbn [length]; lia).
  replace (ch ++ "."%char :: dec n) with ((ch ++ ["."%char]) ++ dec n)
    by now rewrite <- app_assoc.
  rewrite firstn_app, firstn_all, Nat.sub_diag. cbn [firstn].
  rewrite skipn_all2 by (rewrite !length_app; simpl; lia).
  now rewrite !app_nil_r, <- app_assoc.
Qed.

Lemma bump_prerelease_spec M m p ch n b :
  forallb is_lower ch = true ->
  Semver.bump_prerelease (Semver.MkVersion M m p (Some (ch ++ "." ++ dec n)) b)
  = Ok (Semver.MkVersion M m p (Some (ch ++ "." ++ dec (n + 1))) None).
Proof.
  intros Hch. unfold Semver.bump_prerelease. cbn [Semver.prerelease].
  now rewrite increment_string_spec.
Qed.

Lemma compile_all_digits : compile "^[0-9]+$" = Some (chain_re DIGITS09).
Proof. reflexivity. Qed.

Lemma p_09_eq x : p_09 x = is_digit x.
Proof. unfold p_09, in_set. simpl. now rewrite orb_false_r. Qed.

Lemma convert_dec n : Semver.convert (dec n) = Ok (Semver.PInt n).
Proof.
  unfold Semver.convert, match_, with_pattern. rewrite compile_all_digits. cbn [bind].
  rewrite chain_match by reflexivity.
  unfold DIGITS09. cbn [accepts]. fold p_09.
  rewrite <- (app_nil_r (dec n)).
  rewrite take_while_app, drop_while_app;
    try exact I; try (rewrite <- (dec_digits n); apply forallb_ext_eq, p_09_eq).
  pose proof (@dec_nonempty n) as D. rewrite app_nil_r.
  destruct (dec n) eqn:E; [congruence|]. rewrite <- E, int_dec. reflexivity.
Qed.

Lemma convert_word (w : str) :
  match w with
  | [] => True
  | x :: _ => is_digit x = false
  end ->
  Semver.convert w = Ok (Semver.PStr w).
Proof.
  intros H. unfold Semver.convert, match_, with_pattern. rewrite compile_all_digits.
  cbn [bind]. rewrite chain_match by reflexivity.
  unfold DIGITS09. cbn [accepts]. fold p_09.
  destruct w as [|x w]; [reflexivity|]. cbn [take_while]. now rewrite p_09_eq, H.
Qed.

Lemma split_dot_last (a cur : str) :
  nodot a = true -> Semver.split_dot a cur = [rev cur ++ a].
Proof.
  revert cur; induction a as [|x a IH]; intros cur H; simpl.
  - now rewrite app_nil_r.
  - simpl in H. apply andb_true_iff in H as [Hx H]. apply negb_true_iff in Hx.
    rewrite Hx, IH by assumption. simpl. now rewrite <- app_assoc.
Qed.

Lemma split_dot_first (a r cur : str) :
  nodot a = true ->
  Semver.split_dot (a ++ "."%char :: r) cur = (rev cur ++ a) :: Semver.split_dot r [].
Proof.
  revert cur; induction a as [|x a IH]; intros cur H; simpl.
  - now rewrite app_nil_r.
  - simpl in H. apply andb_true_iff in H as [Hx H]. apply negb_true_iff in Hx.
    rewrite Hx, IH by assumption. simpl. now rewrite <- app_assoc.
Qed.

Lemma lower_nodot ch : forallb is_lower ch = true -> nodot ch = true.
Proof.
  induction ch as [|x ch IH]; simpl; [reflexivity|]. intros H.
  apply andb_true_iff in H as [Hx H]. rewrite IH by assumption.
  destruct (Ascii.eqb_spec x "."); [subst; discriminate|reflexivity].
Qed.

Lemma digits_nodot d : forallb is_digit d = true -> nodot d = true.
Proof.
  induction d as [|x d IH]; simpl; [reflexivity|]. intros H.
  apply andb_true_iff in H as [Hx H]. rewrite IH by assumption.
  destruct (Ascii.eqb_spec x "."); [subst; discriminate|reflexivity].
Qed.

Lemma split_key_family ch n :
  channel ch = true ->
  Semver.split_key (ch ++ "." ++ dec n) = Ok [Semver.PStr ch; Semver.PInt n].
Proof.
  intros H. apply channel_spec in H as [Hch Hch0].
  unfold Semver.split_key. cbn [app].
  rewrite split_dot_first by now apply lower_nodot.
  rewrite split_dot_last by apply digits_nodot, dec_digits.
  cbn [rev app mapM]. rewrite convert_word, convert_dec; [reflexivity|].
  destruct ch as [|x ch]; [exact I|]. simpl in Hch.
  apply andb_true_iff in Hch as [Hx _]. now apply lower_not_digit.
Qed.

Lemma cmp_str_refl s : Semver.cmp_str s s = 0%Z.
Proof. induction s as [|x s IH]; simpl; [reflexivity|]. now rewrite Nat.ltb_irrefl. Qed.

Lemma cmp_int_refl n : Semver.cmp_int n n = 0%Z.
Proof. unfold Semver.cmp_int. now rewrite N.compare_refl. Qed.

Lemma cmp_int_zero a b : Semver.cmp_int a b = 0%Z <-> a = b.
Proof.
  unfold Semver.cmp_int. destruct (N.compare_spec a b); split; intros; try lia; try discriminate; auto.
Qed.

Lemma nat_cmp_family ch n n' :
  channel ch = true ->
  Semver.nat_cmp (Some (ch ++ "." ++ dec n)) (Some (ch ++ "." ++ dec n'))
  = Ok (Semver.cmp_int n n').
Proof.
  intros H. unfold Semver.nat_cmp. cbn [Semver.or_empty].
  rewrite !split_key_family by assumption. cbn [bind Semver.cmp_parts Semver.cmp_prerelease_tag].
  rewrite cmp_str_refl. cbn [Z.eqb negb].
  destruct (Z.eqb_spec (Semver.cmp_int n n') 0) as [E|E]; cbn [negb]; [|reflexivity].
  rewrite E. apply cmp_int_zero in E. subst n'.
  unfold Semver.cmp_nat. now rewrite cmp_int_refl.
Qed.

Lemma nat_cmp_none : Semver.nat_cmp None None = Ok 0%Z.
Proof. reflexivity. Qed.

Lemma compare_plain M m p b M' m' p' b' :
  Semver.compare (Semver.MkVersion M m p None b) (Semver.MkVersion M' m' p' None b')
  = Ok (Semver.cmp_triple (M, m, p) (M', m', p')).
Proof.
  unfold Semver.compare. cbn [Semver.major Semver.minor Semver.patch Semver.prerelease].
  destruct (Z.eqb_spec (Semver.cmp_triple (M, m, p) (M', m', p')) 0) as [E|E];
    cbn [negb]; [|reflexivity].
  rewrite nat_cmp_none. cbn [bind Z.eqb]. now rewrite E.
Qed.

Lemma compare_family M m p b M' m' p' b' ch n n' :
  channel ch = true ->
  Semver.compare (Semver.MkVersion M m p (Some (ch ++ "." ++ dec n)) b)
                 (Semver.MkVersion M' m' p' (Some (ch ++ "." ++ dec n')) b')
  = Ok (if negb (Semver.cmp_triple (M, m, p) (M', m', p') =? 0)%Z
        then Semver.cmp_triple (M, m, p) (M', m', p')
        else Semver.cmp_int n n').
Proof.
  intros H.
  unfold Semver.compare. cbn [Semver.major Semver.minor Semver.patch Semver.prerelease].
  destruct (negb (Semver.cmp_triple (M, m, p) (M', m', p') =? 0)%Z); [reflexivity|].
  rewrite nat_cmp_family by assumption. cbn [bind].
  destruct (Z.eqb_spec (Semver.cmp_int n n') 0) as [E|E]; [now rewrite E|].
  apply channel_spec in H as [_ H0].
  destruct ch as [|x ch]; [congruence|]. reflexivity.
Qed.

Lemma compile_production : compile PRODUCTION = Some (chain_re PROD_CHAIN).
Proof. reflexivity. Qed.

Lemma compile_prerelease : compile PRERELEASE = Some (chain_re PRE_CHAIN).
Proof. reflexivity. Qed.

Lemma fullmatch_production s :
  fullmatch PRODUCTION s = Ok (fullmatch_re (chain_re PROD_CHAIN) s).
Proof. unfold fullmatch, with_pattern. now rewrite compile_production. Qed.

Lemma fullmatch_prerelease s :
  fullmatch PRERELEASE s = Ok (fullmatch_re (chain_re PRE_CHAIN) s).
Proof. unfold fullmatch, with_pattern. now rewrite compile_prerelease. Qed.

Lemma truthy_matches (o : option mobj) :
  match o with Some _ => true | None => false end = truthy o.
Proof. now destruct o. Qed.

Lemma matches_production s : matches PRODUCTION s = accepts_all PROD_CHAIN s.
Proof.
  unfold matches. rewrite fullmatch_production, truthy_matches.
  now apply chain_fullmatch.
Qed.

Lemma matches_prerelease s : matches PRERELEASE s = accepts_all PRE_CHAIN s.
Proof.
  unfold matches. rewrite fullmatch_prerelease, truthy_matches.
  now apply chain_fullmatch.
Qed.

(** ** Reading a chain *)

Lemma accepts_char b a l s :
  accepts_ b (SChar a :: l) s = true <-> exists rest, s = a :: rest /\ accepts_ b l rest = true.
Proof.
  assert (E : accepts_ b (SChar a :: l) s
              = match s with x :: t => Ascii.eqb a x && accepts_ b l t | [] => false end)
    by now destruct b.
  rewrite E. destruct s as [|x t]; split.
  - discriminate.
  - intros (rest & H & _). discriminate.
  - intros H. apply andb_true_iff in H as [Hx Ht]. apply Ascii.eqb_eq in Hx. subst. eauto.
  - intros (rest & H & Hr). injection H as -> ->. now rewrite Ascii.eqb_refl.
Qed.

Lemma accepts_run b g neg items l s :
  accepts_ b (SRun g neg items :: l) s = true <->
  exists run rest,
    s = run ++ rest /\ run <> [] /\ forallb (in_set neg items) run = true /\
    stops (in_set neg items) rest /\ accepts_ b l rest = true.
Proof.
  assert (E : accepts_ b (SRun g neg items :: l) s
              = match take_while (in_set neg items) s with
                | [] => false
                | _ => accepts_ b l (drop_while (in_set neg items) s)
                end)
    by now destruct b.
  rewrite E. split.
  - intros H. exists (take_while (in_set neg items) s), (drop_while (in_set neg items) s).
    rewrite take_drop_while.
    destruct (take_while (in_set neg items) s) eqn:T; [discriminate|]. rewrite <- T.
    repeat split; auto using take_while_all, drop_while_stops.
    rewrite T. discriminate.
  - intros (run & rest & -> & Hne & Hrun & Hrest & Hl).
    rewrite take_while_app, drop_while_app by assumption.
    destruct run; [congruence|assumption].
Qed.

Lemma accepts_all_nil s : accepts_ true [] s = true <-> s = [].
Proof. destruct s; simpl; split; congruence. Qed.

Lemma accepts_nil s : accepts_ false [] s = true <-> s = [] \/ s = [newline].
Proof.
  destruct s as [|x [|y t]]; simpl; split; auto; try (intros [H|H]; congruence); try discriminate.
  - intros H. apply Ascii.eqb_eq in H. subst. auto.
  - intros [H|H]; [discriminate|]. injection H as ->. reflexivity.
Qed.

Lemma p_digit_is x : in_set false [CDigit] x = is_digit x.
Proof. apply p_digit_eq. Qed.

Lemma p_lower_is x : in_set false [CRange "a" "z"] x = is_lower x.
Proof. unfold in_set. simpl. now rewrite orb_false_r. Qed.

Lemma forallb_digit_set s : forallb (in_set false [CDigit]) s = forallb is_digit s.
Proof. apply forallb_ext_eq, p_digit_is. Qed.

Lemma forallb_lower_set s : forallb (in_set false [CRange "a" "z"]) s = forallb is_lower s.
Proof. apply forallb_ext_eq, p_lower_is. Qed.

Lemma prod_shape b s :
  accepts_ b PROD_CHAIN s = true <->
  exists x y z e, digits x /\ digits y /\ digits z /\ s = prod_text x y z ++ e
                  /\ accepts_ b [] e = true.
Proof.
  unfold PROD_CHAIN, DIGITS, prod_text, digits. split.
  - intros H.
    apply accepts_run in H as (x & r1 & -> & Hx0 & Hx & _ & H).
    apply accepts_char in H as (r2 & -> & H).
    apply accepts_run in H as (y & r3 & -> & Hy0 & Hy & _ & H).
    apply accepts_char in H as (r4 & -> & H).
    apply accepts_run in H as (z & e & -> & Hz0 & Hz & _ & H).
    rewrite forallb_digit_set in Hx, Hy, Hz.
    exists x, y, z, e. repeat split; auto. flat. reflexivity.
  - intros (x & y & z & e & [Hx Hx0] & [Hy Hy0] & [Hz Hz0] & -> & He).
    assert (Se : stops (in_set false [CDigit]) e).
    { destruct b; [apply accepts_all_nil in He; subst; exact I|].
      apply accepts_nil in He as [->| ->]; [exact I|reflexivity]. }
    flat.
    apply accepts_run. exists x, ("."%char :: y ++ "."%char :: z ++ e).
    rewrite forallb_digit_set. repeat split; auto.
    apply accepts_char. eexists; split; [reflexivity|].
    apply accepts_run. exists y, ("."%char :: z ++ e).
    rewrite forallb_digit_set. repeat split; auto.
    apply accepts_char. eexists; split; [reflexivity|].
    apply accepts_run. exists z, e.
    rewrite forallb_digit_set. repeat split; auto.
Qed.

Lemma pre_shape b s :
  accepts_ b PRE_CHAIN s = true <->
  exists x y z ch n e,
    digits x /\ digits y /\ digits z /\ lowers ch /\ digits n
    /\ s = pre_text x y z ch n ++ e /\ accepts_ b [] e = true.
Proof.
  unfold PRE_CHAIN, DIGITS, LOWERS, pre_text, digits, lowers. split.
  - intros H.
    apply accepts_run in H as (x & r1 & -> & Hx0 & Hx & _ & H).
    apply accepts_char in H as (r2 & -> & H).
    apply accepts_run in H as (y & r3 & -> & Hy0 & Hy & _ & H).
    apply accepts_char in H as (r4 & -> & H).
    apply accepts_run in H as (z & r5 & -> & Hz0 & Hz & _ & H).
    apply accepts_char in H as (r6 & -> & H).
    apply accepts_run in H as (ch & r7 & -> & Hc0 & Hc & _ & H).
    apply accepts_char in H as (r8 & -> & H).
    apply accepts_run in H as (n & e & -> & Hn0 & Hn & _ & H).
    rewrite forallb_digit_set in Hx, Hy, Hz, Hn. rewrite forallb_lower_set in Hc.
    exists x, y, z, ch, n, e. repeat split; auto. flat. reflexivity.
  - intros (x & y & z & ch & n & e & [Hx Hx0] & [Hy Hy0] & [Hz Hz0] & [Hc Hc0]
            & [Hn Hn0] & -> & He).
    assert (Se : stops (in_set false [CDigit]) e).
    { destruct b; [apply accepts_all_nil in He; subst; exact I|].
      apply accepts_nil in He as [->| ->]; [exact I|reflexivity]. }
    flat.
    apply accepts_run. eexists x, _.
    rewrite forallb_digit_set. repeat split; auto.
    apply accepts_char. eexists; split; [reflexivity|].
    apply accepts_run. eexists y, _.
    rewrite forallb_digit_set. repeat split; auto.
    apply accepts_char. eexists; split; [reflexivity|].
    apply accepts_run. eexists z, _.
    rewrite forallb_digit_set. repeat split; auto.
    apply accepts_char. eexists; split; [reflexivity|].
    apply accepts_run. eexists ch, _.
    rewrite forallb_lower_set. repeat split; auto.
    apply accepts_char. eexists; split; [reflexivity|].
    apply accepts_run. exists n, e.
    rewrite forallb_digit_set. repeat split; auto.
Qed.

Lemma digits_dec n : digits (dec n).
Proof. split; [apply dec_digits|apply dec_nonempty]. Qed.

Lemma matches_base M m p : matches PRODUCTION (base M m p) = true.
Proof.
  rewrite matches_production. apply (prod_shape true).
  exists (dec M), (dec m), (dec p), []. rewrite app_nil_r.
  repeat split; auto using dec_digits, dec_nonempty.
Qed.

Lemma ptag_text M m p ch n :
  ptag M m p ch n = pre_text (dec M) (dec m) (dec p) ch (dec n).
Proof. unfold ptag, base, pre_text. flat. reflexivity. Qed.

Lemma matches_ptag M m p ch n :
  channel ch = true -> matches PRERELEASE (ptag M m p ch n) = true.
Proof.
  intros H. apply channel_spec in H.
  rewrite matches_prerelease. apply (pre_shape true).
  exists (dec M), (dec m), (dec p), ch, (dec n), []. rewrite app_nil_r, ptag_text.
  repeat split; auto using dec_digits, dec_nonempty; apply H.
Qed.

Lemma compile_rc_or_patch : compile RC_OR_PATCH = Some RCP_RE.
Proof. reflexivity. Qed.

Lemma lit_fails (p : ascii -> bool) a r k (f : nat -> marks -> marks) :
  p a = false ->
  fails_on p (fun pos t c => m (Seq (Lit a) r) pos t (f pos c) k).
Proof.
  intros Ha pos x t c Hx. rewrite m_seq, m_lit_cons.
  destruct (Ascii.eqb_spec a x); [congruence|reflexivity].
Qed.

Lemma eol_fails (p : ascii -> bool) r k (f : nat -> marks -> marks) :
  p newline = false ->
  fails_on p (fun pos t c => m (Seq Eol r) pos t (f pos c) k).
Proof.
  intros Hn pos x t c Hx. rewrite m_seq. destruct t; [|reflexivity].
  cbn [m]. destruct (Ascii.eqb_spec x newline); [congruence|reflexivity].
Qed.

Lemma m_dg n (x rest : str) r pos c k :
  digits x -> stops is_digit rest ->
  (forall p0, fails_on (in_set false [CDigit])
                (fun p t c' => m r p t ((n, (p0, p)) :: c') k)) ->
  m (Seq (DG n) r) pos (x ++ rest) c k
  = m r (pos + length x) rest ((n, (pos, pos + length x)) :: c) k.
Proof.
  intros [Hx Hx0] Hrest Hk. unfold DG. rewrite m_run_group by assumption.
  rewrite take_while_app, drop_while_app; auto.
  - destruct x; [congruence|reflexivity].
  - now rewrite forallb_digit_set.
  - apply stops_weaken with (p := is_digit); auto. intros y. now rewrite p_digit_is.
  - now rewrite forallb_digit_set.
  - apply stops_weaken with (p := is_digit); auto. intros y. now rewrite p_digit_is.
Qed.

Lemma rcp_spec (x y z w n : str) k :
  digits x -> digits y -> digits z -> digits n ->
  w = "rc" \/ w = "patch" ->
  m RCP_RE 0 (pre_text x y z w n) [] k
  = k (S (S (S (S (length x) + length y) + length z) + length w) + length n) []
      (rcp_marks x y z w n).
Proof.
  intros Hx Hy Hz Hn Hw. unfold RCP_RE, pre_text, rcp_marks.
  rewrite m_seq, m_bol_0.
  rewrite m_dg; auto; [|reflexivity|intros p0; now apply (@lit_fails _ "." _ _ (fun p c' => (_, (p0, p)) :: c'))].
  rewrite m_seq, m_lit_cons. change (Ascii.eqb "." ".") with true. cbv iota beta.
  rewrite m_dg; auto; [|reflexivity|intros p0; now apply (@lit_fails _ "." _ _ (fun p c' => (_, (p0, p)) :: c'))].
  rewrite m_seq, m_lit_cons. change (Ascii.eqb "." ".") with true. cbv iota beta.
  rewrite m_dg; auto; [|reflexivity|intros p0; now apply (@lit_fails _ "-" _ _ (fun p c' => (_, (p0, p)) :: c'))].
  rewrite m_seq, m_lit_cons. change (Ascii.eqb "-" "-") with true. cbv iota beta.
  rewrite m_seq, m_group, m_alt.
  assert (E : forall pos c k',
             orelse (m WORD_RC pos (w ++ "."%char :: n) c k')
                    (m WORD_PATCH pos (w ++ "."%char :: n) c k')
             = k' (pos + length w) ("."%char :: n) c).
  { intros pos c k'. destruct Hw as [-> | ->]; unfold WORD_RC, WORD_PATCH; cbn [app].
    - rewrite !m_seq, !m_lit_cons. cbn [Ascii.eqb Bool.eqb]. cbv iota beta.
      rewrite m_seq, m_lit_cons. cbn [Ascii.eqb Bool.eqb]. cbv iota beta.
      rewrite m_empty. rewrite orelse_none_r. f_equal. simpl. lia.
    - rewrite !m_seq, !m_lit_cons. cbn [Ascii.eqb Bool.eqb orelse]. cbv iota beta.
      rewrite m_seq, m_lit_cons. cbn [Ascii.eqb Bool.eqb]. cbv iota beta.
      rewrite m_seq, m_lit_cons. cbn [Ascii.eqb Bool.eqb]. cbv iota beta.
      rewrite m_seq, m_lit_cons. cbn [Ascii.eqb Bool.eqb]. cbv iota beta.
      rewrite m_seq, m_lit_cons. cbn [Ascii.eqb Bool.eqb]. cbv iota beta.
      rewrite m_empty. f_equal. simpl. lia. }
  rewrite E. cbv beta.
  rewrite m_seq, m_lit_cons. change (Ascii.eqb "." ".") with true. cbv iota beta.
  rewrite <- (app_nil_r n) at 1.
  rewrite m_dg;
    [reflexivity|assumption|exact I
    |intros p0; now apply (@eol_fails _ _ _ (fun p c' => (_, (p0, p)) :: c'))].
Qed.

Lemma channel_rc : channel "rc" = true.
Proof. reflexivity. Qed.

Lemma channel_patch : channel "patch" = true.
Proof. reflexivity. Qed.

Lemma matches_false_fullmatch pattern re s :
  compile pattern = Some re -> matches pattern s = false -> fullmatch pattern s = Ok None.
Proof.
  unfold matches, fullmatch, with_pattern. intros ->.
  now destruct (fullmatch_re re s).
Qed.

Lemma matches_true_fullmatch pattern s :
  matches pattern s = true -> exists mo, fullmatch pattern s = Ok (Some mo).
Proof.
  unfold matches. destruct (fullmatch pattern s) as [[mo|]|]; try discriminate. eauto.
Qed.

Lemma get_init_rc_tag_ptag M m p ch n :
  channel ch = true ->
  get_init_rc_tag (ptag M m p ch n) = Ok (base M m p ++ "-rc.1").
Proof.
  intros H. unfold get_init_rc_tag. cbv zeta.
  destruct (matches_true_fullmatch _ _ (matches_ptag M m p ch n H)) as (mo & E).
  rewrite E.
  cbn [bind truthy negb]. rewrite parse_ptag by assumption. reflexivity.
Qed.

Lemma get_init_rc_tag_reject s :
  matches PRERELEASE s = false -> get_init_rc_tag s = Raise ValueError.
Proof.
  intros H. unfold get_init_rc_tag. cbv zeta.
  rewrite (matches_false_fullmatch PRERELEASE _ s compile_prerelease H). reflexivity.
Qed.

Lemma create_prod_tag_reject r s :
  matches RC_OR_PATCH s = false -> create_prod_tag r s = Raise ValueError.
Proof.
  intros H. unfold create_prod_tag. cbv zeta.
  rewrite (matches_false_fullmatch RC_OR_PATCH _ s compile_rc_or_patch H). reflexivity.
Qed.

Lemma create_prod_tag_ptag r M m p w n :
  w = "rc" \/ w = "patch" ->
  create_prod_tag r (ptag M m p w n)
  = promoted r (ptag M m p w n)
      (if str_eqb w "patch"
       then TVer (Semver.MkVersion M m (p + 1) None None)
       else TStr (base M m p)).
Proof.
  intros Hw.
  assert (Hc : channel w = true) by (destruct Hw as [-> | ->]; reflexivity).
  unfold create_prod_tag, promoted, created, fullmatch, match_, with_pattern. cbv zeta.
  rewrite compile_rc_or_patch. cbn [bind]. unfold fullmatch_re, match_re.
  rewrite ptag_text, !rcp_spec; auto using digits_dec.
  cbn [whole whole_to_end option_map truthy negb].
  unfold group, span, rcp_marks. cbn [spans subject span_of Nat.eqb].
  rewrite (slice_at (pre_text (dec M) (dec m) (dec p) w (dec n))
             (dec M ++ "."%char :: dec m ++ "."%char :: dec p ++ ["-"%char])
             w ("."%char :: dec n)).
  - rewrite <- ptag_text, parse_ptag by assumption. cbn [bind].
    destruct (str_eqb w "patch"); reflexivity.
  - unfold pre_text. flat. reflexivity.
  - rewrite !length_app. cbn [length]. rewrite !length_app. cbn [length].
    rewrite !length_app. cbn [length]. lia.
  - rewrite !length_app. cbn [length]. rewrite !length_app. cbn [length].
    rewrite !length_app. cbn [length]. lia.
Qed.

Lemma increment_rc_patch_other r tag ch :
  matches PRODUCTION tag = true -> ch <> "rc" -> ch <> "patch" ->
  increment_rc_patch r tag ch = Raise UnboundLocalError.
Proof.
  intros Hm Hrc Hpatch. unfold increment_rc_patch.
  destruct (matches_true_fullmatch _ _ Hm) as (mo & E). cbv zeta. rewrite E.
  cbn [bind truthy negb].
  apply str_eqb_neq in Hrc, Hpatch. rewrite Hrc, Hpatch. reflexivity.
Qed.

(** ** [strip] *)

Lemma lstrip_id s :
  match s with [] => True | x :: _ => is_space x = false end -> lstrip s = s.
Proof. destruct s as [|x t]; simpl; [reflexivity|]. now intros ->. Qed.

Lemma digit_not_space x : is_digit x = true -> is_space x = false.
Proof.
  intros H. apply is_digit_code in H. unfold is_space. cbv zeta.
  repeat match goal with
         | |- context [?a <=? ?b] =>
             let E := fresh in destruct (Nat.leb_spec a b) as [E|E]; try lia
         | |- context [?a =? ?b] =>
             let E := fresh in destruct (Nat.eqb_spec a b) as [E|E]; try lia
         end; reflexivity.
Qed.

Lemma strip_edges (a mid b : str) :
  digits a -> digits b -> strip (a ++ mid ++ b) = a ++ mid ++ b.
Proof.
  intros [Ha Ha0] [Hb Hb0]. unfold strip.
  rewrite (lstrip_id (a ++ mid ++ b)).
  - rewrite lstrip_id; [apply rev_involutive|].
    rewrite !rev_app_distr.
    destruct (rev b) as [|y l] eqn:E.
    + apply (f_equal (@rev ascii)) in E. rewrite rev_involutive in E. simpl in E. congruence.
    + simpl. apply digit_not_space.
      assert (I : In y b) by (apply in_rev; rewrite E; now left).
      rewrite forallb_forall in Hb. now apply Hb.
  - destruct a as [|x a]; [congruence|]. simpl in *.
    apply andb_true_iff in Ha as [Hx _]. now apply digit_not_space.
Qed.

Lemma strip_edges_newline (a mid b : str) :
  digits a -> digits b -> strip ((a ++ mid ++ b) ++ [newline]) = a ++ mid ++ b.
Proof.
  intros [Ha Ha0] [Hb Hb0]. unfold strip.
  rewrite (lstrip_id ((a ++ mid ++ b) ++ [newline])).
  - rewrite rev_app_distr. cbn [rev app lstrip].
    change (is_space newline) with true. cbv iota.
    rewrite lstrip_id; [apply rev_involutive|].
    rewrite !rev_app_distr.
    destruct (rev b) as [|y l] eqn:E.
    + apply (f_equal (@rev ascii)) in E. rewrite rev_involutive in E. simpl in E. congruence.
    + simpl. apply digit_not_space.
      assert (I : In y b) by (apply in_rev; rewrite E; now left).
      rewrite forallb_forall in Hb. now apply Hb.
  - destruct a as [|x a]; [congruence|]. simpl in *.
    apply andb_true_iff in Ha as [Hx _]. now apply digit_not_space.
Qed.

Lemma digit_namechar c : is_digit c = true -> namechar c = true.
Proof. intros H. not_special c. Qed.

Lemma lower_namechar c : is_lower c = true -> namechar c = true.
Proof. intros H. not_special c. Qed.

Lemma forallb_impl (p q : ascii -> bool) (s : str) :
  (forall x, p x = true -> q x = true) -> forallb p s = true -> forallb q s = true.
Proof.
  intros E. induction s as [|x s IH]; simpl; [reflexivity|]. intros H.
  apply andb_true_iff in H as [Hx H]. now rewrite (E x Hx), IH.
Qed.

Lemma digits_namechars s : forallb is_digit s = true -> forallb namechar s = true.
Proof. apply forallb_impl, digit_namechar. Qed.

Lemma lowers_namechars s : forallb is_lower s = true -> forallb namechar s = true.
Proof. apply forallb_impl, lower_namechar. Qed.

Lemma prod_text_namechars x y z :
  digits x -> digits y -> digits z -> forallb namechar (prod_text x y z) = true.
Proof.
  intros [Hx _] [Hy _] [Hz _]. unfold prod_text.
  rewrite forallb_app. cbn [forallb]. rewrite forallb_app. cbn [forallb].
  rewrite !digits_namechars by assumption. reflexivity.
Qed.

Lemma pre_text_namechars x y z ch n :
  digits x -> digits y -> digits z -> lowers ch -> digits n ->
  forallb namechar (pre_text x y z ch n) = true.
Proof.
  intros [Hx _] [Hy _] [Hz _] [Hc _] [Hn _]. unfold pre_text.
  rewrite forallb_app. cbn [forallb]. rewrite forallb_app. cbn [forallb].
  rewrite forallb_app. cbn [forallb]. rewrite forallb_app. cbn [forallb].
  rewrite (digits_namechars x), (digits_namechars y), (digits_namechars z),
    (digits_namechars n), (lowers_namechars ch) by assumption. reflexivity.
Qed.

(** ** [find_tag] *)

Lemma any_search_spec pattern re tags :
  compile pattern = Some re ->
  any_search pattern tags = Ok (existsb (fun t => truthy (search_re re (strip t))) tags).
Proof.
  intros C. induction tags as [|t tags IH]; [reflexivity|].
  cbn [any_search existsb]. unfold search, with_pattern. rewrite C. cbn [bind].
  destruct (truthy (search_re re (strip t))); [reflexivity|exact IH].
Qed.

Lemma chain_ok_name name : chain_ok (map seg_of_char name) = true.
Proof.
  induction name as [|c name IH]; [reflexivity|]. cbn [map chain_ok].
  unfold seg_of_char at 1. now destruct (Ascii.eqb c ".").
Qed.

(** [repo.tags] has the tags of the repository, in another order. *)
Lemma insert_name_in x l t : In t (insert_name x l) <-> t = x \/ In t l.
Proof.
  induction l as [|y l IH]; cbn [insert_name].
  - cbn [In]. intuition.
  - destruct (str_leb x y); cbn [In]; [intuition|]. rewrite IH. intuition.
Qed.

Lemma repo_tags_in r t : In t (repo_tags r) <-> In t r.
Proof.
  unfold repo_tags. induction r as [|x r IH]; cbn [fold_right]; [reflexivity|].
  rewrite insert_name_in, IH. cbn [In]. intuition.
Qed.

Lemma existsb_same (f : str -> bool) l l' :
  (forall x, In x l <-> In x l') -> existsb f l = existsb f l'.
Proof.
  intros H. destruct (existsb f l') eqn:E.
  - apply existsb_exists in E as (x & I & F). apply existsb_exists.
    exists x. split; [apply H; exact I|exact F].
  - destruct (existsb f l) eqn:E'; [|reflexivity].
    apply existsb_exists in E' as (x & I & F).
    assert (Q : existsb f l' = true)
      by (apply existsb_exists; exists x; split; [apply H; exact I|exact F]).
    rewrite Q in E. discriminate E.
Qed.

Lemma existsb_repo_tags (f : str -> bool) r : existsb f (repo_tags r) = existsb f r.
Proof. apply existsb_same. intros x. apply repo_tags_in. Qed.

(** What [find_tag] computes: the name, read as a pattern, against every
    stripped tag. *)
Lemma find_tag_spec r name :
  forallb namechar name = true ->
  find_tag r name = Ok (existsb (fun t => accepts (map seg_of_char name) (strip t)) r).
Proof.
  intros H. unfold find_tag. cbv zeta.
  rewrite (any_search_spec _ _ (repo_tags r) (compile_exact name H)). f_equal.
  rewrite existsb_repo_tags.
  induction r as [|t r IH]; [reflexivity|]. cbn [existsb].
  now rewrite chain_search, IH by apply chain_ok_name.
Qed.

Lemma accepts_self name : accepts (map seg_of_char name) name = true.
Proof.
  induction name as [|c name IH]; [reflexivity|]. cbn [map].
  unfold seg_of_char at 1. destruct (Ascii.eqb_spec c ".") as [->|N]; cbn [accepts].
  - exact IH.
  - now rewrite Ascii.eqb_refl.
Qed.

Lemma find_tag_present r name :
  forallb namechar name = true -> strip name = name -> In name r ->
  find_tag r name = Ok true.
Proof.
  intros H S I. rewrite find_tag_spec by assumption. f_equal.
  apply existsb_exists. exists name. split; [assumption|].
  rewrite S. apply accepts_self.
Qed.

Lemma wild_spec name : forall s,
  accepts (map seg_of_char name) s = true -> no_newline s ->
  dots s <= dots name
  /\ (dots s = dots name -> s = name)
  /\ (forall c, c <> "."%char -> In c name -> In c s).
Proof.
  unfold dots, no_newline.
  induction name as [|a name IH]; intros s H N.
  - change (accepts_ false [] s = true) in H. apply accepts_nil in H as [-> | ->].
    + repeat split; auto.
    + exfalso. apply N. now left.
  - cbn [map] in H. unfold seg_of_char at 1 in H.
    destruct (Ascii.eqb_spec a ".") as [->|Na]; cbn [accepts] in H;
      destruct s as [|x t]; try discriminate;
      apply andb_true_iff in H as [Hx Ht];
      assert (Nt : ~ In newline t) by (intros I; apply N; now right);
      destruct (IH t Ht Nt) as (L & E & M).
    + cbn [count_occ]. destruct (ascii_dec "." "."); [|congruence].
      destruct (ascii_dec x ".") as [->|Nx].
      * repeat split; [lia| |].
        -- intros Q. f_equal. apply E. lia.
        -- intros c Nc [Q|I]; [exfalso; apply Nc; symmetry; exact Q|]. right. now apply M.
      * repeat split; [lia| |].
        -- intros Q. lia.
        -- intros c Nc [Q|I]; [exfalso; apply Nc; symmetry; exact Q|]. right. now apply M.
    + apply Ascii.eqb_eq in Hx. subst x. cbn [count_occ].
      destruct (ascii_dec a "."); [congruence|].
      repeat split; [exact L| |].
      * intros Q. f_equal. now apply E.
      * intros c Nc [->|I]; [now left|]. right. now apply M.
Qed.

Lemma dots_app a b : dots (a ++ b) = dots a + dots b.
Proof. apply count_occ_app. Qed.

Lemma dots_digits s : forallb is_digit s = true -> dots s = 0.
Proof.
  intros H. unfold dots. apply count_occ_not_In. intros I.
  rewrite forallb_forall in H. specialize (H _ I). discriminate.
Qed.

Lemma dots_lowers s : forallb is_lower s = true -> dots s = 0.
Proof.
  intros H. unfold dots. apply count_occ_not_In. intros I.
  rewrite forallb_forall in H. specialize (H _ I). discriminate.
Qed.

Lemma dots_prod x y z : digits x -> digits y -> digits z -> dots (prod_text x y z) = 2.
Proof.
  intros [Hx _] [Hy _] [Hz _]. unfold prod_text.
  rewrite dots_app. change ("."%char :: y ++ "."%char :: z) with (["."%char] ++ y ++ ["."%char] ++ z).
  rewrite !dots_app, (dots_digits x), (dots_digits y), (dots_digits z) by assumption.
  reflexivity.
Qed.

Lemma dots_pre x y z ch n :
  digits x -> digits y -> digits z -> lowers ch -> digits n ->
  dots (pre_text x y z ch n) = 3.
Proof.
  intros [Hx _] [Hy _] [Hz _] [Hc _] [Hn _]. unfold pre_text.
  change (x ++ "."%char :: y ++ "."%char :: z ++ "-"%char :: ch ++ "."%char :: n)
    with (x ++ ["."%char] ++ y ++ ["."%char] ++ z ++ ["-"%char] ++ ch ++ ["."%char] ++ n).
  rewrite !dots_app, (dots_digits x), (dots_digits y), (dots_digits z), (dots_digits n),
    (dots_lowers ch) by assumption. reflexivity.
Qed.

Lemma no_newline_chars (p : ascii -> bool) s :
  p newline = false -> forallb p s = true -> no_newline s.
Proof.
  intros Hp H I. rewrite forallb_forall in H. specialize (H _ I). congruence.
Qed.

Lemma tagchar_namechar c : tagchar c = true -> namechar c = true.
Proof.
  unfold tagchar. rewrite !orb_true_iff. intros [[[H|H]|H]|H].
  - now apply digit_namechar.
  - now apply lower_namechar.
  - apply Ascii.eqb_eq in H. now subst.
  - apply Ascii.eqb_eq in H. now subst.
Qed.

Lemma tagchars_no_newline s : forallb tagchar s = true -> no_newline s.
Proof. now apply no_newline_chars. Qed.

Lemma digits_tagchars s : forallb is_digit s = true -> forallb tagchar s = true.
Proof. apply forallb_impl. intros x H. unfold tagchar. now rewrite H. Qed.

Lemma lowers_tagchars s : forallb is_lower s = true -> forallb tagchar s = true.
Proof. apply forallb_impl. intros x H. unfold tagchar. rewrite H. now rewrite orb_true_r. Qed.

(** The two shapes, as texts. *)
Lemma shaped_spec t :
  shaped t = true <->
  (exists x y z, digits x /\ digits y /\ digits z /\ t = prod_text x y z)
  \/ (exists x y z ch n, digits x /\ digits y /\ digits z /\ lowers ch /\ digits n
                         /\ t = pre_text x y z ch n).
Proof.
  unfold shaped. rewrite orb_true_iff, matches_production, matches_prerelease.
  change (accepts_all PROD_CHAIN t) with (accepts_ true PROD_CHAIN t).
  change (accepts_all PRE_CHAIN t) with (accepts_ true PRE_CHAIN t).
  rewrite prod_shape, pre_shape. split.
  - intros [(x & y & z & e & Hx & Hy & Hz & -> & He)
           |(x & y & z & ch & n & e & Hx & Hy & Hz & Hc & Hn & -> & He)];
      apply accepts_all_nil in He; subst e; rewrite app_nil_r; [left|right]; eauto 12.
  - intros [(x & y & z & Hx & Hy & Hz & ->)
           |(x & y & z & ch & n & Hx & Hy & Hz & Hc & Hn & ->)]; [left|right].
    + exists x, y, z, []. rewrite app_nil_r. repeat split; auto; apply Hx || apply Hy || apply Hz.
    + exists x, y, z, ch, n, []. rewrite app_nil_r.
      repeat split; auto; apply Hx || apply Hy || apply Hz || apply Hc || apply Hn.
Qed.

Lemma shaped_strip t : shaped t = true -> strip t = t.
Proof.
  intros H. apply shaped_spec in H
    as [(x & y & z & Hx & Hy & Hz & ->)|(x & y & z & ch & n & Hx & Hy & Hz & Hc & Hn & ->)].
  - unfold prod_text.
    replace (x ++ "."%char :: y ++ "."%char :: z) with (x ++ ("."%char :: y ++ ["."%char]) ++ z)
      by (flat; reflexivity).
    now apply strip_edges.
  - unfold pre_text.
    replace (x ++ "."%char :: y ++ "."%char :: z ++ "-"%char :: ch ++ "."%char :: n)
      with (x ++ ("."%char :: y ++ "."%char :: z ++ "-"%char :: ch ++ ["."%char]) ++ n)
      by (flat; reflexivity).
    now apply strip_edges.
Qed.

Lemma shaped_tagchars t : shaped t = true -> forallb tagchar t = true.
Proof.
  intros H. apply shaped_spec in H
    as [(x & y & z & [Hx _] & [Hy _] & [Hz _] & ->)
       |(x & y & z & ch & n & [Hx _] & [Hy _] & [Hz _] & [Hc _] & [Hn _] & ->)].
  - unfold prod_text.
    rewrite forallb_app. cbn [forallb]. rewrite forallb_app. cbn [forallb].
    rewrite (digits_tagchars x), (digits_tagchars y), (digits_tagchars z) by assumption.
    reflexivity.
  - unfold pre_text.
    rewrite forallb_app. cbn [forallb]. rewrite forallb_app. cbn [forallb].
    rewrite forallb_app. cbn [forallb]. rewrite forallb_app. cbn [forallb].
    rewrite (digits_tagchars x), (digits_tagchars y), (digits_tagchars z),
      (digits_tagchars n), (lowers_tagchars ch) by assumption.
    reflexivity.
Qed.

Lemma shaped_namechars t : shaped t = true -> forallb namechar t = true.
Proof.
  intros H. apply forallb_impl with (p := tagchar); [apply tagchar_namechar|].
  now apply shaped_tagchars.
Qed.

Lemma shaped_dots t :
  shaped t = true ->
  (dots t = 2 /\ ~ In "-"%char t) \/ (dots t = 3 /\ In "-"%char t).
Proof.
  intros H. apply shaped_spec in H
    as [(x & y & z & Hx & Hy & Hz & ->)|(x & y & z & ch & n & Hx & Hy & Hz & Hc & Hn & ->)].
  - left. split; [now apply dots_prod|].
    intros I.
    destruct Hx as [Hx _], Hy as [Hy _], Hz as [Hz _]. unfold prod_text in I.
    rewrite in_app_iff in I. cbn [In] in I. rewrite in_app_iff in I. cbn [In] in I.
    rewrite forallb_forall in Hx, Hy, Hz.
    destruct I as [I|[I|[I|[I|I]]]]; try discriminate;
      [apply Hx in I|apply Hy in I|apply Hz in I]; discriminate.
  - right. split; [now apply dots_pre|].
    unfold pre_text. rewrite in_app_iff. right. right.
    rewrite in_app_iff. right. right. rewrite in_app_iff. right. now left.
Qed.

(** Among names of the lifecycle, a name read as a pattern matches
    itself only. *)
Lemma wild_exact name t :
  shaped name = true -> shaped t = true ->
  accepts (map seg_of_char name) t = true -> t = name.
Proof.
  intros Hn Ht A.
  destruct (wild_spec name t A (tagchars_no_newline t (shaped_tagchars t Ht))) as (L & E & M).
  destruct (shaped_dots name Hn) as [[Dn In]|[Dn In]],
           (shaped_dots t Ht) as [[Dt It]|[Dt It]].
  - apply E. lia.
  - lia.
  - exfalso. apply It. apply M; [discriminate|assumption].
  - apply E. lia.
Qed.

Lemma find_tag_exact r name :
  lifecycle r = true -> shaped name = true ->
  find_tag r name = Ok (has_tag r name).
Proof.
  intros Hr Hn. rewrite find_tag_spec by now apply shaped_namechars.
  f_equal. unfold has_tag, lifecycle in *.
  induction r as [|t r IH]; [reflexivity|].
  cbn [forallb] in Hr. apply andb_true_iff in Hr as [Ht Hr].
  cbn [existsb]. rewrite IH by assumption. f_equal.
  rewrite (shaped_strip t Ht).
  destruct (str_eqb name t) eqn:Q.
  - apply str_eqb_eq in Q. subst t. apply accepts_self.
  - apply str_eqb_neq in Q.
    destruct (accepts (map seg_of_char name) t) eqn:A; [|reflexivity].
    exfalso. apply Q. symmetry. now apply wild_exact.
Qed.

Lemma bind_ok {A B} (x : result A) (f : A -> result B) (b : B) :
  bind x f = Ok b -> exists a, x = Ok a /\ f a = Ok b.
Proof. destruct x as [a|e]; simpl; [eauto|discriminate]. Qed.

Lemma shaped_base M m p : shaped (base M m p) = true.
Proof. unfold shaped. now rewrite matches_base. Qed.

Lemma shaped_ptag M m p ch n : channel ch = true -> shaped (ptag M m p ch n) = true.
Proof. intros H. unfold shaped. rewrite (matches_ptag M m p ch n H). apply orb_true_r. Qed.

Lemma rc_name M m p : base M m p ++ "-rc.1" = ptag M m p "rc" 1.
Proof. reflexivity. Qed.

Lemma ptag_cons M m p ch n : exists x t, ptag M m p ch n = x :: t.
Proof.
  unfold ptag, base. destruct (dec M) as [|x t] eqn:E.
  - now apply dec_nonempty in E.
  - cbn [app]. eauto.
Qed.

Lemma shaped_present r name :
  shaped name = true -> In name r -> find_tag r name = Ok true.
Proof.
  intros H I. apply find_tag_present; auto using shaped_namechars, shaped_strip.
Qed.

(** [increment_prerelease_tag] on a tag without leading zeros. *)
Lemma advance_ptag r M m p ch n chan major_bump :
  channel ch = true ->
  increment_prerelease_tag r (Some (ptag M m p ch n)) chan major_bump
  = found <- find_tag r (base M m p ++ "-rc.1") ;;
    created r
      (if found
       then TStr ((if major_bump then base (M + 1) 0 0 else base M (m + 1) 0)
                  ++ "-" ++ chan ++ ".1")
       else TVer (Semver.MkVersion M m p (Some (ch ++ "." ++ dec (n + 1))) None)).
Proof.
  intros H. unfold increment_prerelease_tag. cbv zeta.
  destruct (ptag_cons M m p ch n) as (x & t & E). rewrite E. rewrite <- E.
  destruct (matches_true_fullmatch _ _ (matches_ptag M m p ch n H)) as (mo & F).
  rewrite F. cbn [bind truthy negb].
  rewrite (get_init_rc_tag_ptag M m p ch n H). cbn [bind].
  destruct (find_tag r (base M m p ++ "-rc.1")) as [[|]|e]; cbn [bind]; [| |reflexivity].
  - rewrite (parse_ptag M m p ch n H). destruct major_bump; cbn [bind].
    + unfold Semver.bump_major. cbn [Semver.major]. now rewrite to_str_plain.
    + unfold Semver.bump_minor. cbn [Semver.major Semver.minor]. now rewrite to_str_plain.
  - rewrite (parse_ptag M m p ch n H). cbn [bind].
    apply channel_spec in H as [Hch _].
    now rewrite (bump_prerelease_spec M m p ch n None Hch).
Qed.

Lemma increment_rc_blocked r tag :
  matches PRODUCTION tag = true -> In tag r ->
  increment_rc_patch r tag "rc" = Raise (InvalidTagCreation RC_EXISTS).
Proof.
  intros Hm I. unfold increment_rc_patch. cbv zeta.
  destruct (matches_true_fullmatch _ _ Hm) as (mo & F). rewrite F.
  cbn [bind truthy negb]. change (str_eqb "rc" "rc") with true. cbv iota.
  rewrite shaped_present; [reflexivity| |assumption].
  unfold shaped. now rewrite Hm.
Qed.

Lemma create_tag_ok r name r' :
  create_tag r name = Ok r' -> r' = r ++ [name].
Proof.
  unfold create_tag.
  destruct (valid_tag_name name && negb (has_tag r name) && negb (clashes r name));
    congruence.
Qed.

(** What [create_prod_tag] hands back is the text of a base version, and
    it is a tag from then on. *)
Lemma create_prod_tag_ok r tag v r' :
  create_prod_tag r tag = Ok (v, r') ->
  (exists M m p, name_of v = base M m p) /\ r' = r ++ [name_of v].
Proof.
  unfold create_prod_tag. cbv zeta. intros H.
  apply bind_ok in H as (mo & _ & H).
  destruct (negb (truthy mo)); [discriminate|].
  apply bind_ok in H as (mo' & _ & H).
  destruct mo' as [mo'|]; [|discriminate].
  apply bind_ok in H as (w & Hw & H).
  apply bind_ok in H as (u & _ & H).
  apply bind_ok in H as (r1 & Hr & H).
  injection H as <- <-. split; [|now apply create_tag_ok].
  destruct (match group mo' 4 with Some g => str_eqb g "patch" | None => false end).
  - apply bind_ok in Hw as (t & _ & Hw). injection Hw as <-.
    exists (Semver.major t), (Semver.minor t), (Semver.patch t + 1)%N.
    apply to_str_plain.
  - apply bind_ok in Hw as (t & _ & Hw). injection Hw as <-.
    exists (Semver.major t), (Semver.minor t), (Semver.patch t). reflexivity.
Qed.

Lemma one_keeps n q k : keeps n k -> keeps n (fun p t c => one q p t c k).
Proof.
  intros Hk p t c c' H. destruct t as [|x t]; simpl in H; [discriminate|].
  destruct (q x); [|discriminate]. now apply Hk in H.
Qed.

Lemma star_keeps n (step : nat -> str -> marks -> kont -> option marks) :
  (forall k, keeps n k -> keeps n (fun p t c => step p t c k)) ->
  forall fuel k, keeps n k -> keeps n (fun p t c => star step fuel p t c k).
Proof.
  intros Hstep. induction fuel as [|fuel IH]; intros k Hk p t c c' H.
  - now apply Hk in H.
  - rewrite star_S in H.
    destruct (step p t c _) as [c1|] eqn:E; cbn [orelse] in H.
    + injection H as <-.
      refine (Hstep _ _ p t c c1 E).
      intros p1 t1 c2 c3 H1.
      destruct (length t1 <? length t); [|discriminate].
      now apply (IH k Hk) in H1.
    + now apply Hk in H.
Qed.

Lemma m_keeps n r :
  no_group n r = true -> forall k, keeps n k -> keeps n (fun p t c => m r p t c k).
Proof.
  induction r as [| a | | neg items | | | a IHa b IHb | a IHa b IHb
                 | a IHa | a IHa | a IHa | j a IHa]; intros Hr k Hk.
  - exact Hk.
  - now apply one_keeps.
  - now apply one_keeps.
  - now apply one_keeps.
  - intros p t c c' H. cbn [m] in H. destruct (p =? 0); [|discriminate]. now apply Hk in H.
  - intros p t c c' H. cbn [m] in H. destruct t as [|x [|y t]]; try discriminate.
    + now apply Hk in H.
    + destruct (Ascii.eqb x newline); [|discriminate]. now apply Hk in H.
  - cbn [no_group] in Hr. apply andb_true_iff in Hr as [Ha Hb].
    intros p t c c' H. rewrite m_seq in H.
    exact (IHa Ha _ (IHb Hb k Hk) p t c c' H).
  - cbn [no_group] in Hr. apply andb_true_iff in Hr as [Ha Hb].
    intros p t c c' H. rewrite m_alt in H.
    destruct (m a p t c k) as [c1|] eqn:E; cbn [orelse] in H.
    + injection H as <-. exact (IHa Ha k Hk p t c c1 E).
    + exact (IHb Hb k Hk p t c c' H).
  - cbn [no_group] in Hr. intros p t c c' H. rewrite m_star in H.
    exact (star_keeps n (m a) (IHa Hr) (length t) k Hk p t c c' H).
  - cbn [no_group] in Hr. intros p t c c' H. cbn [m] in H.
    refine (IHa Hr _ _ p t c c' H).
    intros p1 t1 c1 c2 H1.
    exact (star_keeps n (m a) (IHa Hr) (length t1) k Hk p1 t1 c1 c2 H1).
  - cbn [no_group] in Hr. intros p t c c' H. rewrite m_opt in H.
    destruct (m a p t c k) as [c1|] eqn:E; cbn [orelse] in H.
    + injection H as <-. exact (IHa Hr k Hk p t c c1 E).
    + now apply Hk in H.
  - cbn [no_group] in Hr. apply andb_true_iff in Hr as [Hj Ha].
    apply negb_true_iff in Hj.
    intros p t c c' H. rewrite m_group in H.
    refine (IHa Ha _ _ p t c c' H).
    intros p1 t1 c1 c2 H1. apply Hk in H1. rewrite H1. cbn [span_of]. now rewrite Hj.
Qed.

Lemma whole_keeps n st : n <> 0 -> keeps n (whole st).
Proof.
  intros Hn p t c c' H. unfold whole in H. injection H as <-.
  cbn [span_of]. destruct (Nat.eqb_spec 0 n); [congruence|reflexivity].
Qed.

(** The three numbers of a version, whatever follows them. *)
Lemma parse_head (a b c tail : str) w :
  digits a -> digits b -> digits c -> stops is_digit tail ->
  Semver.parse (a ++ "."%char :: b ++ "."%char :: c ++ tail) = Ok w ->
  int_ a = Ok (Semver.major w) /\ int_ b = Ok (Semver.minor w) /\ int_ c = Ok (Semver.patch w).
Proof.
  intros [Ha Ha0] [Hb Hb0] [Hc Hc0] Htail.
  unfold Semver.parse, match_, with_pattern. rewrite compile_semver.
  cbn [bind]. unfold match_re.
  rewrite semver_head by assumption.
  destruct (canon a && canon b && canon c); [|discriminate].
  set (c3 := [(3, (S (S (length a) + length b), S (S (length a) + length b) + length c));
              (2, (S (length a), S (length a) + length b)); (1, (0, length a))]).
  destruct (m TAIL _ tail c3 (whole 0)) as [c'|] eqn:E; [|discriminate].
  cbn [option_map]. unfold group, span. cbn [spans subject].
  assert (K : forall n, n <> 0 -> no_group n TAIL = true -> span_of n c' = span_of n c3).
  { intros n Hn Hg. exact (m_keeps n TAIL Hg (whole 0) (whole_keeps n 0 Hn) _ _ _ _ E). }
  rewrite (K 1), (K 2), (K 3) by (discriminate || reflexivity).
  unfold c3. cbn [span_of Nat.eqb].
  set (s := a ++ "."%char :: b ++ "."%char :: c ++ tail).
  rewrite (slice_at s [] a ("."%char :: b ++ "."%char :: c ++ tail));
    [|reflexivity|reflexivity|simpl; lia].
  rewrite (slice_at s (a ++ ["."%char]) b ("."%char :: c ++ tail));
    [|unfold s; flat; reflexivity
     |rewrite length_app; simpl; lia|rewrite length_app; simpl; lia].
  rewrite (slice_at s (a ++ "."%char :: b ++ ["."%char]) c tail);
    [|unfold s; flat; reflexivity
     |rewrite !length_app; simpl; rewrite length_app; simpl; lia
     |rewrite !length_app; simpl; rewrite length_app; simpl; lia].
  intros H.
  apply bind_ok in H as (ma & Ema & H).
  apply bind_ok in H as (mi & Emi & H).
  apply bind_ok in H as (pa & Epa & H).
  injection H as <-. cbn [Semver.major Semver.minor Semver.patch]. auto.
Qed.

Lemma parse_seed M m p tail w :
  stops is_digit tail ->
  Semver.parse (base M m p ++ tail) = Ok w ->
  Semver.major w = M /\ Semver.minor w = m /\ Semver.patch w = p.
Proof.
  intros Htail H. unfold base in H.
  replace ((dec M ++ "." ++ dec m ++ "." ++ dec p) ++ tail)
    with (dec M ++ "."%char :: dec m ++ "."%char :: dec p ++ tail) in H
    by (flat; reflexivity).
  apply parse_head in H as (A & B & C); auto using digits_dec.
  rewrite int_dec in A, B, C. repeat split; congruence.
Qed.

(** A tag of the prerelease grammar that [semver] parses has no leading
    zeros. *)
Lemma parsed_prerelease tag t :
  matches PRERELEASE tag = true -> Semver.parse tag = Ok t ->
  exists M m p ch n, channel ch = true /\ tag = ptag M m p ch n.
Proof.
  intros Hm Hp. rewrite matches_prerelease in Hm.
  change (accepts_ true PRE_CHAIN tag = true) in Hm.
  apply pre_shape in Hm
    as (x & y & z & ch & n & e & Hx & Hy & Hz & Hc & Hn & -> & He).
  apply accepts_all_nil in He. subst e. rewrite app_nil_r in *.
  unfold pre_text in Hp.
  rewrite parse_pre_shape in Hp
    by (apply Hx || apply Hy || apply Hz || apply Hc || apply Hn).
  destruct (canon x) eqn:Cx; [|discriminate].
  destruct (canon y) eqn:Cy; [|discriminate].
  destruct (canon z) eqn:Cz; [|discriminate].
  destruct (canon n) eqn:Cn; [|discriminate].
  destruct (canon_is_dec x Cx) as (M & -> & _).
  destruct (canon_is_dec y Cy) as (m & -> & _).
  destruct (canon_is_dec z Cz) as (p & -> & _).
  destruct (canon_is_dec n Cn) as (k & -> & _).
  exists M, m, p, ch, k. split.
  - apply channel_spec. destruct Hc. auto.
  - now rewrite ptag_text.
Qed.

Lemma cmp_int_succ n : Semver.cmp_int (n + 1) n = 1%Z.
Proof.
  unfold Semver.cmp_int. destruct (N.compare_spec (n + 1) n); lia.
Qed.

Lemma below_asym a : forall b, lex_lt a b = true -> lex_lt b a = false.
Proof.
  unfold lex_lt. induction a as [|x a IH]; intros [|y b]; simpl; auto; try discriminate.
  rewrite (N.compare_antisym x y).
  destruct (N.compare_spec x y); simpl; auto; discriminate.
Qed.

Lemma below_ntrans a : forall b c,
  lex_lt a b = false -> lex_lt b c = false -> lex_lt a c = false.
Proof.
  unfold lex_lt. induction a as [|x a IH]; intros [|y b] [|z c]; simpl; auto; try discriminate.
  destruct (N.compare_spec x y), (N.compare_spec y z), (N.compare_spec x z);
    simpl; auto; try discriminate; try lia; try (intros; now apply (IH b c)).
Qed.

Lemma below_irrefl a : lex_lt a a = false.
Proof.
  unfold lex_lt. induction a as [|x a IH]; simpl; [reflexivity|].
  now rewrite N.compare_refl.
Qed.

Lemma select_spec pattern re tags :
  compile pattern = Some re ->
  select pattern tags = Ok (map strip (filter (fun t => truthy (search_re re t)) tags)).
Proof.
  intros C. induction tags as [|t tags IH]; [reflexivity|].
  cbn [select filter]. unfold search, with_pattern. rewrite C. cbn [bind].
  rewrite IH. cbn [bind].
  now destruct (truthy (search_re re t)).
Qed.

Lemma mapM_ok {A B} (f : A -> result B) l keys :
  mapM f l = Ok keys ->
  length keys = length l /\ forall k t, In (k, t) (combine keys l) -> f t = Ok k.
Proof.
  revert keys; induction l as [|a l IH]; intros keys H; simpl in H.
  - injection H as <-. split; [reflexivity|]. intros k t [].
  - apply bind_ok in H as (b & Hb & H). apply bind_ok in H as (bs & Hbs & H).
    injection H as <-. destruct (IH bs Hbs) as (L & I). split; [simpl; congruence|].
    intros k t [Q|Q]; [congruence|auto].
Qed.

Lemma mapM_total {A B} (f : A -> result B) l :
  (forall t, In t l -> exists k, f t = Ok k) -> exists keys, mapM f l = Ok keys.
Proof.
  induction l as [|a l IH]; intros H; [now exists []|].
  destruct (H a (or_introl eq_refl)) as (k & Hk).
  destruct IH as (keys & Hkeys); [intros t I; apply H; now right|].
  exists (k :: keys). simpl. now rewrite Hk, Hkeys.
Qed.

Lemma combine_in_r {A B} (keys : list A) (l : list B) t :
  length keys = length l -> In t l -> exists k, In (k, t) (combine keys l).
Proof.
  revert keys; induction l as [|a l IH]; intros [|k keys] L I; simpl in *; try tauto; try lia.
  destruct I as [->|I].
  - exists k. now left.
  - destruct (IH keys) as (k' & Hk'); auto. exists k'. now right.
Qed.

Lemma insert_in x l l' :
  insert x l = Ok l' -> forall y, In y l' <-> y = x \/ In y l.
Proof.
  revert l'; induction l as [|z l IH]; intros l' H y; simpl in H.
  - injection H as <-. simpl. intuition.
  - apply bind_ok in H as (b & _ & H). destruct b.
    + apply bind_ok in H as (l1 & H1 & H). injection H as <-.
      simpl. rewrite (IH l1 H1 y). intuition.
    + injection H as <-. simpl. intuition.
Qed.

Lemma sort_asc_in l : forall l',
  sort_asc l = Ok l' -> forall y, In y l' <-> In y l.
Proof.
  induction l as [|x l IH]; intros l' H y; simpl in H.
  - injection H as <-. reflexivity.
  - apply bind_ok in H as (l1 & H1 & H).
    rewrite (insert_in x l1 l' H y), (IH l1 H1 y). simpl. intuition.
Qed.

(** Whatever [find_tag_with_pattern] hands back is a tag that matches, and
    it parses. *)
Lemma highest_is_candidate r pattern re d :
  compile pattern = Some re ->
  find_tag_with_pattern r pattern = Ok (Some d) ->
  (exists t, In t r /\ truthy (search_re re t) = true /\ d = strip t)
  /\ exists v, Semver.parse d = Ok v.
Proof.
  intros C H. unfold find_tag_with_pattern in H.
  rewrite (select_spec pattern re (repo_tags r) C) in H. cbn [bind] in H.
  apply bind_ok in H as (out & Hs & H).
  destruct out as [|d' out]; [discriminate|]. injection H as ->.
  unfold sorted_reverse in Hs.
  apply bind_ok in Hs as (keys & Hk & Hs).
  apply bind_ok in Hs as (l & Hl & Hs). injection Hs as Hs.
  destruct (mapM_ok _ _ _ Hk) as (L & F).
  assert (I : In d (map snd (rev l))) by (rewrite Hs; now left).
  apply in_map_iff in I as ([v d''] & Q & I). simpl in Q. subst d''.
  apply in_rev in I. apply (sort_asc_in _ _ Hl) in I. apply in_rev in I.
  split.
  - apply in_combine_r in I. apply in_map_iff in I as (t & <- & I).
    apply filter_In in I as [I T]. apply (proj1 (repo_tags_in r t)) in I.
    exists t. split; [exact I|]. split; [exact T|reflexivity].
  - exists v. now apply F.
Qed.

Section Ranked.
Variable P : Semver.Version -> Prop.
Variable key : Semver.Version -> list N.
Hypothesis lt_key :
  forall a b, P a -> P b -> Semver.lt a b = Ok (lex_lt (key a) (key b)).

Lemma insert_ranked x l :
  P (fst x) -> ranked P l -> ascending key l ->
  exists l', insert x l = Ok l' /\ ranked P l' /\ ascending key l'.
Proof.
  intros Px. induction l as [|z l IH]; intros R A.
  - exists [x]. repeat split; auto. now constructor.
  - inversion R as [|? ? Pz R']; subst. destruct A as [Az A'].
    cbn [insert]. rewrite (lt_key _ _ Pz Px). cbn [bind].
    destruct (lex_lt (key (fst z)) (key (fst x))) eqn:B.
    + destruct (IH R' A') as (l1 & H1 & R1 & A1). rewrite H1. cbn [bind].
      exists (z :: l1). repeat split; auto.
      * now constructor.
      * apply Forall_forall. intros y I. apply (insert_in _ _ _ H1) in I as [->|I].
        -- now apply below_asym.
        -- rewrite Forall_forall in Az. now apply Az.
    + exists (x :: z :: l). repeat split; auto.
      * now constructor.
      * constructor; [exact B|].
        apply Forall_forall. intros y I. rewrite Forall_forall in Az.
        apply below_ntrans with (b := key (fst z)); auto.
Qed.

Lemma sort_asc_ranked l :
  ranked P l -> exists l', sort_asc l = Ok l' /\ ranked P l' /\ ascending key l'.
Proof.
  induction l as [|x l IH]; intros R.
  - exists []. repeat split; constructor.
  - inversion R as [|? ? Px R']; subst.
    destruct (IH R') as (l1 & H1 & R1 & A1).
    destruct (insert_ranked x l1 Px R1 A1) as (l2 & H2 & R2 & A2).
    exists l2. cbn [sort_asc]. rewrite H1. cbn [bind]. auto.
Qed.

Lemma ascending_last l z :
  ascending key (l ++ [z]) ->
  forall y, In y (l ++ [z]) -> lex_lt (key (fst z)) (key (fst y)) = false.
Proof.
  induction l as [|x l IH]; intros A y I.
  - destruct I as [<-|[]]. apply below_irrefl.
  - destruct A as [Ax A']. destruct I as [<-|I]; [|now apply IH].
    rewrite Forall_forall in Ax. apply Ax. apply in_or_app. right. now left.
Qed.

(** [sorted(..., reverse=True)] on tags whose versions are ranked by
    [key]: it returns, and its first element is a highest one. *)
Lemma sorted_reverse_ranked tags :
  (forall t, In t tags -> exists v, Semver.parse t = Ok v /\ P v) ->
  exists out,
    sorted_reverse tags = Ok out
    /\ (forall d, In d out <-> In d tags)
    /\ match out with
       | [] => tags = []
       | d :: _ =>
           exists v, Semver.parse d = Ok v
                     /\ forall u w, In u tags -> Semver.parse u = Ok w ->
                                    lex_lt (key v) (key w) = false
       end.
Proof.
  intros H.
  destruct (mapM_total Semver.parse tags) as (keys & Hk).
  { intros t I. destruct (H t I) as (v & Hv & _). eauto. }
  destruct (mapM_ok _ _ _ Hk) as (L & F).
  assert (R : ranked P (rev (combine keys tags))).
  { apply Forall_forall. intros [v t] I. apply in_rev in I. simpl.
    pose proof (F v t I) as Q. apply in_combine_r in I.
    destruct (H t I) as (v' & Hv' & Pv'). congruence. }
  destruct (sort_asc_ranked _ R) as (l & Hl & Rl & Al).
  exists (map snd (rev l)). unfold sorted_reverse. rewrite Hk. cbn [bind].
  rewrite Hl. cbn [bind]. split; [reflexivity|].
  assert (M : forall v t, In (v, t) l <-> In (v, t) (combine keys tags)).
  { intros v t. rewrite (sort_asc_in _ _ Hl). symmetry. apply in_rev. }
  split.
  - intros d. rewrite in_map_iff. split.
    + intros ([v t] & <- & I). apply in_rev in I. apply M in I. now apply in_combine_r in I.
    + intros I. destruct (combine_in_r keys tags d L I) as (k & Ik).
      exists (k, d). split; [reflexivity|]. apply in_rev. rewrite rev_involutive. now apply M.
  - destruct (rev l) as [|[v d] rest] eqn:E.
    + simpl. apply (f_equal (@rev keyed)) in E. rewrite rev_involutive in E. simpl in E.
      subst l. destruct tags as [|t tags]; [reflexivity|]. exfalso.
      destruct (combine_in_r keys (t :: tags) t L (or_introl eq_refl)) as (k & Ik).
      now apply M in Ik.
    + simpl. apply (f_equal (@rev keyed)) in E. rewrite rev_involutive in E. simpl in E.
      subst l. exists v. split.
      * apply F. apply M. apply in_or_app. right. now left.
      * intros u w Iu Hw.
        destruct (combine_in_r keys tags u L Iu) as (k & Ik).
        assert (k = w) by (apply F in Ik; congruence). subst k.
        apply M in Ik.
        exact (ascending_last (rev rest) (v, d) Al (w, u) Ik).
Qed.

End Ranked.

Lemma has_tag_In r name : has_tag r name = true <-> In name r.
Proof.
  unfold has_tag. rewrite existsb_exists. split.
  - intros (x & I & E). apply str_eqb_eq in E. now subst.
  - intros I. exists name. split; [assumption|apply str_eqb_refl].
Qed.

Lemma has_tag_absent r name : ~ In name r -> has_tag r name = false.
Proof.
  intros H. destruct (has_tag r name) eqn:E; [|reflexivity].
  apply has_tag_In in E. contradiction.
Qed.

Lemma created_ok r t v r' : created r t = Ok (v, r') -> v = t /\ r' = r ++ [name_of t].
Proof.
  unfold created. intros H. apply bind_ok in H as (r1 & H1 & H).
  apply create_tag_ok in H1. injection H as <- <-. auto.
Qed.

Lemma nonempty_pre tag : matches PRERELEASE tag = true -> exists x tl, tag = x :: tl.
Proof.
  destruct tag as [|x tl]; [|eauto]. intros Hm. vm_compute in Hm. discriminate Hm.
Qed.

(** A successful [increment_prerelease_tag] has parsed its tag. *)
Lemma advance_parses r tag chan major_bump out :
  matches PRERELEASE tag = true ->
  increment_prerelease_tag r (Some tag) chan major_bump = Ok out ->
  exists t, Semver.parse tag = Ok t.
Proof.
  intros Hm H. destruct (Semver.parse tag) as [t|e] eqn:P; [eauto|]. exfalso.
  destruct (nonempty_pre tag Hm) as (x & tl & E).
  destruct (matches_true_fullmatch _ _ Hm) as (mo & F).
  revert H. unfold increment_prerelease_tag. cbv zeta.
  rewrite E. rewrite <- E. rewrite F. cbn [bind truthy negb].
  unfold get_init_rc_tag. cbv zeta. rewrite F. cbn [bind truthy negb]. rewrite P.
  cbn [bind]. discriminate.
Qed.

Lemma cmp_triple_major (M a b m p : N) :
  Semver.cmp_triple ((M + 1)%N, a, b) (M, m, p) = 1%Z.
Proof. unfold Semver.cmp_triple. rewrite cmp_int_succ. reflexivity. Qed.

Lemma cmp_triple_minor (M m b p : N) :
  Semver.cmp_triple (M, (m + 1)%N, b) (M, m, p) = 1%Z.
Proof. unfold Semver.cmp_triple. rewrite cmp_int_refl, cmp_int_succ. reflexivity. Qed.

Lemma cmp_triple_refl (M m p : N) : Semver.cmp_triple (M, m, p) (M, m, p) = 0%Z.
Proof. unfold Semver.cmp_triple. rewrite !cmp_int_refl. reflexivity. Qed.

Lemma seed_ptag M m p chan : base M m p ++ "-" ++ chan ++ ".1" = ptag M m p chan 1.
Proof. reflexivity. Qed.

Lemma as_version_str s : as_version (TStr s) = Semver.parse s.
Proof. reflexivity. Qed.

Lemma as_version_ver v : as_version (TVer v) = Ok v.
Proof. reflexivity. Qed.

(** A seed of a higher base version compares higher. *)
Lemma seed_higher M m p M' m' p' chan pre w :
  Semver.parse (base M' m' p' ++ "-" ++ chan ++ ".1") = Ok w ->
  Semver.cmp_triple (M', m', p') (M, m, p) = 1%Z ->
  Semver.compare w (Semver.MkVersion M m p pre None) = Ok 1%Z.
Proof.
  intros W T. apply parse_seed in W as (W1 & W2 & W3); [|reflexivity].
  unfold Semver.compare. cbv zeta. cbn [Semver.major Semver.minor Semver.patch].
  rewrite W1, W2, W3, T. reflexivity.
Qed.

Lemma bumped_higher M m p ch n :
  channel ch = true ->
  Semver.compare (Semver.MkVersion M m p (Some (ch ++ "." ++ dec (n + 1))) None)
                 (Semver.MkVersion M m p (Some (ch ++ "." ++ dec n)) None)
  = Ok 1%Z.
Proof.
  intros C. rewrite (compare_family M m p None M m p None ch (n + 1) n C).
  rewrite cmp_triple_refl, cmp_int_succ. reflexivity.
Qed.

(** What a successful [increment_prerelease_tag] on a tag of the grammar
    has done. *)
Lemma advance_cases r tag chan major_bump v r' :
  matches PRERELEASE tag = true ->
  increment_prerelease_tag r (Some tag) chan major_bump = Ok (v, r') ->
  exists M m p ch n,
    channel ch = true
    /\ tag = ptag M m p ch n
    /\ (v = TStr ((if major_bump then base (M + 1) 0 0 else base M (m + 1) 0)
                  ++ "-" ++ chan ++ ".1")
        \/ v = TVer (Semver.MkVersion M m p (Some (ch ++ "." ++ dec (n + 1))) None)).
Proof.
  intros Hm H.
  destruct (advance_parses r tag chan major_bump _ Hm H) as (t & P).
  destruct (parsed_prerelease tag t Hm P) as (M & m & p & ch & n & C & E).
  exists M, m, p, ch, n. split; [exact C|]. split; [exact E|].
  revert H. rewrite E. rewrite (advance_ptag r M m p ch n chan major_bump C).
  destruct (find_tag r (base M m p ++ "-rc.1")) as [[|]|e]; cbn [bind]; intros H.
  - left. apply created_ok in H. exact (proj1 H).
  - right. apply created_ok in H. exact (proj1 H).
  - discriminate H.
Qed.

(** ** The names of the lifecycle are reference names *)

Lemma in_firstn (c : ascii) n : forall s, In c (firstn n s) -> In c s.
Proof.
  induction n as [|n IH]; intros [|x s] I; cbn [firstn] in I; try contradiction.
  destruct I as [I|I]; [left; exact I|right; exact (IH s I)].
Qed.

Lemma has_infix_missing needle s c :
  In c needle -> ~ In c s -> has_infix needle s = false.
Proof.
  intros I N. induction s as [|x s IH]; cbn [has_infix].
  - apply str_eqb_neq. intros E. subst needle. destruct I.
  - rewrite IH by (intros J; apply N; right; exact J). rewrite orb_false_r.
    apply str_eqb_neq. intros E. apply N. rewrite <- E in I.
    exact (in_firstn c _ _ I).
Qed.

Lemma dotdot_skip c s : nd c = true -> has_infix ".." (c :: s) = has_infix ".." s.
Proof.
  intros H. cbn [has_infix].
  replace (str_eqb (firstn (length "..") (c :: s)) "..") with false; [reflexivity|].
  symmetry. apply str_eqb_neq. cbn [length firstn]. intros E. injection E as E _.
  subst c. discriminate H.
Qed.

Lemma dotdot_run ds rest :
  forallb nd ds = true -> has_infix ".." (ds ++ rest) = has_infix ".." rest.
Proof.
  induction ds as [|c ds IH]; intros H; [reflexivity|].
  cbn [forallb] in H. apply andb_true_iff in H as [Hc H].
  cbn [app]. rewrite (dotdot_skip c _ Hc). exact (IH H).
Qed.

Lemma dotdot_seg ds rest :
  forallb nd ds = true -> ds <> [] ->
  has_infix ".." ("."%char :: ds ++ rest) = has_infix ".." rest.
Proof.
  intros H N. destruct ds as [|c ds]; [congruence|].
  rewrite <- (dotdot_run (c :: ds) rest H).
  cbn [has_infix app].
  replace (str_eqb (firstn (length "..") ("."%char :: c :: ds ++ rest)) "..") with false;
    [reflexivity|].
  symmetry. apply str_eqb_neq. cbn [length firstn]. intros E. injection E as E.
  cbn [forallb] in H. apply andb_true_iff in H as [Hc _]. subst c. discriminate Hc.
Qed.

Lemma digits_nd s : forallb is_digit s = true -> forallb nd s = true.
Proof.
  apply forallb_impl. intros c H. unfold nd.
  destruct (Ascii.eqb_spec c "."); [subst; discriminate H|reflexivity].
Qed.

Lemma lowers_nd s : forallb is_lower s = true -> forallb nd s = true.
Proof.
  apply forallb_impl. intros c H. unfold nd.
  destruct (Ascii.eqb_spec c "."); [subst; discriminate H|reflexivity].
Qed.

Lemma tagchar_good c : tagchar c = true -> bad_ref_char c = false.
Proof.
  destruct c as [[] [] [] [] [] [] [] []]; vm_compute; intros H;
    try reflexivity; discriminate H.
Qed.

Lemma tagchars_good s : forallb tagchar s = true -> existsb bad_ref_char s = false.
Proof.
  induction s as [|c s IH]; intros H; [reflexivity|].
  cbn [forallb] in H. apply andb_true_iff in H as [Hc H].
  cbn [existsb]. rewrite (tagchar_good c Hc), (IH H). reflexivity.
Qed.

Lemma tagchars_without s c : tagchar c = false -> forallb tagchar s = true -> ~ In c s.
Proof.
  intros Hc H I. rewrite forallb_forall in H. rewrite (H c I) in Hc. discriminate Hc.
Qed.

Lemma digit_head_neq c u (s : str) x :
  is_digit c = true -> is_digit x = false -> str_eqb (firstn 1 (c :: u)) [x] = false.
Proof.
  intros Hc Hx. apply str_eqb_neq. cbn [firstn]. intros E. injection E as E. subst x.
  rewrite Hc in Hx. discriminate Hx.
Qed.

(** A text of the characters of tags that begins and ends with a digit and
    has no two dots in a row is a well-formed name. *)
Lemma valid_name t c u w d :
  t = c :: u -> t = w ++ [d] ->
  is_digit c = true -> is_digit d = true ->
  forallb tagchar t = true -> has_infix ".." t = false ->
  valid_tag_name t = true.
Proof.
  intros Ec Ed Hc Hd Ht Hdd. unfold valid_tag_name.
  rewrite (tagchars_good t Ht), Hdd.
  rewrite (has_infix_missing "@{" t "@") by
    (try (left; reflexivity); apply (tagchars_without t "@" eq_refl Ht)).
  rewrite (has_infix_missing "//" t "/") by
    (try (left; reflexivity); apply (tagchars_without t "/" eq_refl Ht)).
  rewrite (has_infix_missing "/." t "/") by
    (try (left; reflexivity); apply (tagchars_without t "/" eq_refl Ht)).
  rewrite (has_infix_missing ".lock/" t "/") by
    (try (do 5 right; left; reflexivity); apply (tagchars_without t "/" eq_refl Ht)).
  assert (R : rev t = d :: rev w) by (rewrite Ed, rev_app_distr; reflexivity).
  rewrite R. rewrite Ec.
  rewrite (digit_head_neq c u t "." Hc eq_refl), (digit_head_neq c u t "-" Hc eq_refl),
    (digit_head_neq c u t "/" Hc eq_refl).
  rewrite (digit_head_neq d (rev w) t "/" Hd eq_refl),
    (digit_head_neq d (rev w) t "." Hd eq_refl).
  replace (str_eqb (firstn 5 (d :: rev w)) "kcol.") with false.
  2:{ symmetry. apply str_eqb_neq. cbn [firstn]. intros E. injection E as E _.
      subst d. discriminate Hd. }
  replace (str_eqb (c :: u) "@") with false.
  2:{ symmetry. apply str_eqb_neq. intros E. injection E as E _. subst c. discriminate Hc. }
  reflexivity.
Qed.

Lemma digits_head x : digits x -> exists c u, x = c :: u /\ is_digit c = true.
Proof.
  intros [H N]. destruct x as [|c u]; [congruence|].
  cbn [forallb] in H. apply andb_true_iff in H as [Hc _]. eauto.
Qed.

Lemma digits_last x : digits x -> exists w d, x = w ++ [d] /\ is_digit d = true.
Proof.
  intros [H N]. destruct (exists_last N) as (w & d & E). exists w, d. split; [exact E|].
  rewrite E in H. rewrite forallb_app in H. apply andb_true_iff in H as [_ H].
  cbn [forallb] in H. apply andb_true_iff in H as [H _]. exact H.
Qed.

Lemma valid_shaped t : shaped t = true -> valid_tag_name t = true.
Proof.
  intros H. pose proof (shaped_tagchars t H) as Ht.
  apply shaped_spec in H
    as [(x & y & z & Hx & Hy & Hz & E)|(x & y & z & ch & n & Hx & Hy & Hz & Hc & Hn & E)].
  - destruct (digits_head x Hx) as (c & u & Ex & Dc).
    destruct (digits_last z Hz) as (w & d & Ez & Dd).
    apply (valid_name t c (u ++ "."%char :: y ++ "."%char :: z)
             (x ++ "."%char :: y ++ "."%char :: w) d); auto.
    + rewrite E. unfold prod_text. rewrite Ex. reflexivity.
    + rewrite E. unfold prod_text. rewrite Ez. flat. reflexivity.
    + rewrite E. unfold prod_text.
      destruct Hx as [Hx _], Hy as [Hy Ny], Hz as [Hz Nz].
      rewrite (dotdot_run x _ (digits_nd x Hx)).
      rewrite (dotdot_seg y _ (digits_nd y Hy) Ny).
      rewrite <- (app_nil_r z).
      rewrite (dotdot_seg z _ (digits_nd z Hz) Nz). reflexivity.
  - destruct (digits_head x Hx) as (c & u & Ex & Dc).
    destruct (digits_last n Hn) as (w & d & En & Dd).
    apply (valid_name t c (u ++ "."%char :: y ++ "."%char :: z ++ "-"%char :: ch ++ "."%char :: n)
             (x ++ "."%char :: y ++ "."%char :: z ++ "-"%char :: ch ++ "."%char :: w) d); auto.
    + rewrite E. unfold pre_text. rewrite Ex. reflexivity.
    + rewrite E. unfold pre_text. rewrite En. flat. reflexivity.
    + rewrite E. unfold pre_text.
      destruct Hx as [Hx _], Hy as [Hy Ny], Hz as [Hz Nz], Hc as [Hc Nc], Hn as [Hn Nn].
      rewrite (dotdot_run x _ (digits_nd x Hx)).
      rewrite (dotdot_seg y _ (digits_nd y Hy) Ny).
      replace (z ++ "-"%char :: ch ++ "."%char :: n)
        with ((z ++ "-"%char :: ch) ++ "."%char :: n) by (flat; reflexivity).
      rewrite (dotdot_seg (z ++ "-"%char :: ch)).
      * rewrite <- (app_nil_r n).
        rewrite (dotdot_seg n _ (digits_nd n Hn) Nn). reflexivity.
      * rewrite forallb_app. rewrite (digits_nd z Hz). cbn [forallb andb].
        rewrite (lowers_nd ch Hc). reflexivity.
      * intros Q. apply app_eq_nil in Q as [_ Q]. discriminate Q.
Qed.

(** ** Names that cannot clash *)

Lemma is_prefix_in (a : str) : forall b c, is_prefix a b = true -> In c a -> In c b.
Proof.
  induction a as [|x a IH]; intros [|y b] c H I; cbn [is_prefix] in H;
    try discriminate H; try contradiction.
  apply andb_true_iff in H as [E H]. apply Ascii.eqb_eq in E. subst y.
  destruct I as [I|I]; [left; exact I|right; exact (IH b c H I)].
Qed.

Lemma no_clash r name :
  (forall t, In t r -> ~ In "/"%char t) -> ~ In "/"%char name -> clashes r name = false.
Proof.
  intros Hr Hn. unfold clashes.
  destruct (existsb (fun t => is_prefix (name ++ "/") t || is_prefix (t ++ "/") name) r)
    eqn:E; [|reflexivity].
  exfalso. apply existsb_exists in E as (t & I & H). apply orb_true_iff in H as [H|H].
  - apply (Hr t I). apply (is_prefix_in _ _ "/"%char H).
    apply in_or_app. right. left. reflexivity.
  - apply Hn. apply (is_prefix_in _ _ "/"%char H).
    apply in_or_app. right. left. reflexivity.
Qed.

Lemma shaped_no_slash t : shaped t = true -> ~ In "/"%char t.
Proof. intros H. exact (tagchars_without t "/" eq_refl (shaped_tagchars t H)). Qed.

Lemma clashes_lifecycle r name :
  lifecycle r = true -> shaped name = true -> clashes r name = false.
Proof.
  intros L H. apply no_clash; [|exact (shaped_no_slash name H)].
  intros t I. apply shaped_no_slash. unfold lifecycle in L.
  rewrite forallb_forall in L. exact (L t I).
Qed.

Lemma create_tag_shaped r name :
  shaped name = true -> ~ In name r -> clashes r name = false ->
  create_tag r name = Ok (r ++ [name]).
Proof.
  intros H N K. unfold create_tag.
  rewrite (valid_shaped name H), (has_tag_absent r name N), K. reflexivity.
Qed.

Lemma created_shaped r t :
  shaped (name_of t) = true -> ~ In (name_of t) r -> clashes r (name_of t) = false ->
  created r t = Ok (t, r ++ [name_of t]).
Proof.
  intros H N K. unfold created. rewrite (create_tag_shaped r _ H N K). reflexivity.
Qed.

Lemma commit_present r name : In name r -> commit r name = Ok tt.
Proof.
  intros I. unfold commit. apply has_tag_In in I. rewrite I. reflexivity.
Qed.

Lemma parsed_production tag t :
  matches PRODUCTION tag = true -> Semver.parse tag = Ok t ->
  exists M m p, tag = base M m p.
Proof.
  intros Hm Hp. rewrite matches_production in Hm.
  change (accepts_ true PROD_CHAIN tag = true) in Hm.
  apply prod_shape in Hm as (x & y & z & e & Hx & Hy & Hz & -> & He).
  apply accepts_all_nil in He. subst e. rewrite app_nil_r in *.
  unfold prod_text in Hp.
  rewrite parse_prod_shape in Hp by (apply Hx || apply Hy || apply Hz).
  destruct (canon x) eqn:Cx; [|discriminate].
  destruct (canon y) eqn:Cy; [|discriminate].
  destruct (canon z) eqn:Cz; [|discriminate].
  destruct (canon_is_dec x Cx) as (M & -> & _).
  destruct (canon_is_dec y Cy) as (m & -> & _).
  destruct (canon_is_dec z Cz) as (p & -> & _).
  exists M, m, p. unfold base, prod_text. flat. reflexivity.
Qed.

Lemma canonical_spec t :
  canonical t = true <->
  (exists M m p, t = base M m p)
  \/ (exists M m p ch n, channel ch = true /\ t = ptag M m p ch n).
Proof.
  unfold canonical, versioned, shaped. split.
  - intros H. apply andb_true_iff in H as [S V].
    destruct (Semver.parse t) as [v|e] eqn:P; [|discriminate V].
    apply orb_true_iff in S as [S|S].
    + left. exact (parsed_production t v S P).
    + right. exact (parsed_prerelease t v S P).
  - intros [(M & m & p & ->)|(M & m & p & ch & n & C & ->)].
    + rewrite matches_base, parse_base. reflexivity.
    + rewrite (matches_ptag M m p ch n C), (parse_ptag M m p ch n C).
      rewrite orb_true_r. reflexivity.
Qed.

Lemma canonical_shaped t : canonical t = true -> shaped t = true.
Proof. unfold canonical. intros H. apply andb_true_iff in H. apply H. Qed.

Lemma wellformed_in r t : wellformed r = true -> In t r -> canonical t = true.
Proof. unfold wellformed. rewrite forallb_forall. auto. Qed.

Lemma wellformed_lifecycle r : wellformed r = true -> lifecycle r = true.
Proof.
  unfold wellformed, lifecycle. rewrite !forallb_forall.
  intros H t I. apply canonical_shaped. exact (H t I).
Qed.

Lemma ordinal_family M m p ch n b :
  channel ch = true ->
  ordinal (Semver.MkVersion M m p (Some (ch ++ "." ++ dec n)) b) = n.
Proof.
  intros C. apply channel_spec in C as [C _].
  unfold ordinal. cbn [Semver.prerelease].
  change (ch ++ "." ++ dec n) with (ch ++ "."%char :: dec n).
  rewrite (split_dot_first ch (dec n) [] (lower_nodot ch C)).
  rewrite (split_dot_last (dec n) [] (digits_nodot _ (dec_digits n))).
  cbn [rev app last]. rewrite int_dec. reflexivity.
Qed.

Lemma sign_lex M m p n M' m' p' n' :
  ((if negb (Semver.cmp_triple (M, m, p) (M', m', p') =? 0)%Z
    then Semver.cmp_triple (M, m, p) (M', m', p')
    else Semver.cmp_int n n') <? 0)%Z
  = lex_lt [M; m; p; n] [M'; m'; p'; n'].
Proof.
  unfold Semver.cmp_triple, Semver.cmp_int, lex_lt. cbn [lexc].
  destruct (N.compare M M'), (N.compare m m'), (N.compare p p'), (N.compare n n');
    reflexivity.
Qed.

Lemma sign_lex_plain M m p M' m' p' :
  (Semver.cmp_triple (M, m, p) (M', m', p') <? 0)%Z
  = lex_lt [M; m; p; 0%N] [M'; m'; p'; 0%N].
Proof.
  unfold Semver.cmp_triple, Semver.cmp_int, lex_lt. cbn [lexc].
  destruct (N.compare M M'), (N.compare m m'), (N.compare p p'); reflexivity.
Qed.

Lemma lt_plain a b :
  plain_version a -> plain_version b ->
  Semver.lt a b = Ok (lex_lt (rank a) (rank b)).
Proof.
  intros (M & m & p & ->) (M' & m' & p' & ->). unfold Semver.lt.
  rewrite compare_plain. cbn [bind]. rewrite sign_lex_plain. reflexivity.
Qed.

Lemma lt_channel ch a b :
  channel ch = true -> channel_version ch a -> channel_version ch b ->
  Semver.lt a b = Ok (lex_lt (rank a) (rank b)).
Proof.
  intros C (M & m & p & n & ->) (M' & m' & p' & n' & ->). unfold Semver.lt.
  rewrite (compare_family M m p None M' m' p' None ch n n' C). cbn [bind].
  rewrite sign_lex. unfold rank. cbn [Semver.major Semver.minor Semver.patch].
  rewrite !(ordinal_family _ _ _ ch _ None C). reflexivity.
Qed.

Lemma lex_lt_last M m p n n' :
  lex_lt [M; m; p; n] [M; m; p; n'] = false -> (n' <= n)%N.
Proof.
  unfold lex_lt. cbn [lexc]. rewrite !N.compare_refl.
  destruct (N.compare_spec n n'); try discriminate; lia.
Qed.

(** ** The highest tag of a class of tags *)

Section Highest.
Variable P : Semver.Version -> Prop.
Variable C : str -> Prop.
Variable pattern : str.
Variable l : list seg.
Hypothesis lt_key :
  forall a b, P a -> P b -> Semver.lt a b = Ok (lex_lt (rank a) (rank b)).
Hypothesis compiled : compile pattern = Some (chain_re l).
Hypothesis ok : chain_ok l = true.
Hypothesis sel : forall t, canonical t = true -> (accepts l t = true <-> C t).
Hypothesis ver : forall t, C t -> exists v, Semver.parse t = Ok v /\ P v.

Lemma candidates_spec r d :
  wellformed r = true ->
  In d (map strip (filter (fun t => truthy (search_re (chain_re l) t)) (repo_tags r)))
  <-> In d r /\ C d.
Proof.
  intros W. rewrite in_map_iff. split.
  - intros (t & S & I). apply filter_In in I as [I A].
    apply (proj1 (repo_tags_in r t)) in I.
    pose proof (wellformed_in r t W I) as Ct.
    rewrite (shaped_strip t (canonical_shaped t Ct)) in S. subst d.
    rewrite (chain_search l t ok) in A. split; [exact I|]. apply (sel t Ct). exact A.
  - intros [I Cd]. pose proof (wellformed_in r d W I) as Ct.
    exists d. split; [exact (shaped_strip d (canonical_shaped d Ct))|].
    apply filter_In. split; [apply repo_tags_in; exact I|].
    rewrite (chain_search l d ok). apply (sel d Ct). exact Cd.
Qed.

Lemma highest_in_class r :
  wellformed r = true ->
  exists out,
    find_tag_with_pattern r pattern = Ok out
    /\ match out with
       | None => forall t, In t r -> ~ C t
       | Some d =>
           In d r /\ C d
           /\ exists v, Semver.parse d = Ok v
                        /\ forall u w, In u r -> C u -> Semver.parse u = Ok w ->
                                       Semver.lt v w = Ok false
                                       /\ lex_lt (rank v) (rank w) = false
       end.
Proof.
  intros W. unfold find_tag_with_pattern.
  rewrite (select_spec pattern _ (repo_tags r) compiled). cbn [bind].
  pose proof (fun d => candidates_spec r d W) as Hc.
  destruct (sorted_reverse_ranked P rank lt_key
              (map strip (filter (fun t => truthy (search_re (chain_re l) t)) (repo_tags r))))
    as (out & Hs & Hin & Hh).
  { intros t I. apply Hc in I as [_ Ct]. exact (ver t Ct). }
  rewrite Hs. cbn [bind]. eexists. split; [reflexivity|].
  destruct out as [|d rest].
  - intros t I Ct. assert (J : In t (map strip (filter (fun t => truthy (search_re (chain_re l) t)) (repo_tags r))))
      by (apply Hc; auto).
    rewrite Hh in J. destruct J.
  - destruct Hh as (v & Pv & Hmax).
    assert (J : In d (map strip (filter (fun t => truthy (search_re (chain_re l) t)) (repo_tags r))))
      by (apply Hin; left; reflexivity).
    apply Hc in J as [Ir Cd]. split; [exact Ir|]. split; [exact Cd|].
    exists v. split; [exact Pv|]. intros u w Iu Cu Pu.
    assert (L : lex_lt (rank v) (rank w) = false)
      by (apply (Hmax u w); [apply Hc; auto|exact Pu]).
    split; [|exact L].
    destruct (ver d Cd) as (v' & Pv' & Qv). destruct (ver u Cu) as (w' & Pw' & Qw).
    assert (v' = v) by congruence. assert (w' = w) by congruence. subst v' w'.
    rewrite (lt_key v w Qv Qw), L. reflexivity.
Qed.

End Highest.

(** ** Reading the chains of the three kinds of lookups *)

Lemma lower_seg c : is_lower c = true -> seg_of_char c = SChar c.
Proof.
  intros H. unfold seg_of_char.
  destruct (Ascii.eqb_spec c "."); [subst; discriminate H|reflexivity].
Qed.

Lemma accepts_lits b ch rest s :
  forallb is_lower ch = true ->
  (accepts_ b (map seg_of_char ch ++ rest) s = true
   <-> exists s', s = ch ++ s' /\ accepts_ b rest s' = true).
Proof.
  revert s. induction ch as [|c ch IH]; intros s H.
  - cbn [map app]. split; [eauto|]. intros (s' & -> & A). exact A.
  - cbn [forallb] in H. apply andb_true_iff in H as [Hc H].
    cbn [map app]. rewrite (lower_seg c Hc). rewrite accepts_char. split.
    + intros (t & -> & A). apply (IH t H) in A as (s' & -> & A). eauto.
    + intros (s' & -> & A). exists (ch ++ s'). split; [reflexivity|].
      apply (IH _ H). eauto.
Qed.

Lemma accepts_split name rest : forall s,
  accepts (map seg_of_char name ++ rest) s = true ->
  exists s1 s2, s = s1 ++ s2 /\ accepts (map seg_of_char name) s1 = true
                /\ accepts rest s2 = true.
Proof.
  induction name as [|a name IH]; intros s H.
  - exists [], s. auto.
  - cbn [map app] in H. cbn [map]. unfold seg_of_char at 1 in H. unfold seg_of_char at 1.
    destruct (Ascii.eqb a "."); cbn [accepts] in H; destruct s as [|x t];
      try discriminate H; apply andb_true_iff in H as [Hx Ht];
      destruct (IH t Ht) as (s1 & s2 & -> & A1 & A2);
      exists (x :: s1), s2; cbn [accepts]; rewrite Hx, A1; auto.
Qed.

Lemma accepts_self_app name rest s2 :
  accepts (map seg_of_char name ++ rest) (name ++ s2) = accepts rest s2.
Proof.
  induction name as [|c name IH]; [reflexivity|]. cbn [map app].
  unfold seg_of_char at 1. destruct (Ascii.eqb_spec c ".") as [->|N]; cbn [accepts].
  - exact IH.
  - rewrite Ascii.eqb_refl. exact IH.
Qed.

Lemma chain_ok_after_name name rest :
  chain_ok (map seg_of_char name ++ rest) = chain_ok rest.
Proof.
  induction name as [|c name IH]; [reflexivity|]. cbn [map app chain_ok].
  unfold seg_of_char at 1. destruct (Ascii.eqb c "."); exact IH.
Qed.

(** The end of a chain: a dot and a last run of digits. *)
Lemma accepts_ordinal g s :
  no_newline s ->
  (accepts [SChar "."; DIGITS g] s = true <-> exists ds, digits ds /\ s = "."%char :: ds).
Proof.
  intros N. change (accepts [SChar "."; DIGITS g] s) with (accepts_ false [SChar "."; DIGITS g] s).
  rewrite accepts_char. unfold DIGITS. split.
  - intros (rest & -> & A).
    apply accepts_run in A as (run & e & -> & R0 & R & _ & A).
    rewrite forallb_digit_set in R.
    apply accepts_nil in A as [->| ->].
    + exists run. rewrite app_nil_r. repeat split; auto.
    + exfalso. apply N. right. apply in_or_app. right. left. reflexivity.
  - intros (ds & [D D0] & ->). exists ds. split; [reflexivity|].
    apply accepts_run. exists ds, []. rewrite app_nil_r, forallb_digit_set.
    repeat split; auto.
Qed.

Lemma canonical_no_newline t : canonical t = true -> no_newline t.
Proof.
  intros H. apply tagchars_no_newline, shaped_tagchars, canonical_shaped, H.
Qed.

Lemma no_newline_app_r a b : no_newline (a ++ b) -> no_newline b.
Proof. intros N I. apply N. apply in_or_app. right. exact I. Qed.

Lemma no_newline_app_l a b : no_newline (a ++ b) -> no_newline a.
Proof. intros N I. apply N. apply in_or_app. left. exact I. Qed.

Lemma no_newline_tail c b : no_newline (c :: b) -> no_newline b.
Proof. intros N I. apply N. right. exact I. Qed.

(** A text of the prerelease shape that is a version has no leading
    zeros. *)
Lemma pre_text_canonical x y z ch n v :
  digits x -> digits y -> digits z -> lowers ch -> digits n ->
  Semver.parse (pre_text x y z ch n) = Ok v ->
  exists M m p k, pre_text x y z ch n = ptag M m p ch k.
Proof.
  intros Hx Hy Hz Hc Hn Hp. unfold pre_text in Hp.
  rewrite parse_pre_shape in Hp
    by (apply Hx || apply Hy || apply Hz || apply Hc || apply Hn).
  destruct (canon x) eqn:Cx; [|discriminate].
  destruct (canon y) eqn:Cy; [|discriminate].
  destruct (canon z) eqn:Cz; [|discriminate].
  destruct (canon n) eqn:Cn; [|discriminate].
  destruct (canon_is_dec x Cx) as (M & -> & _).
  destruct (canon_is_dec y Cy) as (m & -> & _).
  destruct (canon_is_dec z Cz) as (p & -> & _).
  destruct (canon_is_dec n Cn) as (k & -> & _).
  exists M, m, p, k. rewrite ptag_text. reflexivity.
Qed.

Lemma canonical_parses t : canonical t = true -> exists v, Semver.parse t = Ok v.
Proof.
  unfold canonical, versioned. intros H. apply andb_true_iff in H as [_ H].
  destruct (Semver.parse t) as [v|e]; [eauto|discriminate H].
Qed.

Lemma sel_production t :
  canonical t = true -> (accepts PROD_CHAIN t = true <-> production_tag t).
Proof.
  intros Ct. split.
  - intros A. change (accepts_ false PROD_CHAIN t = true) in A.
    apply prod_shape in A as (x & y & z & e & Hx & Hy & Hz & E & He).
    apply accepts_nil in He as [->| ->].
    + rewrite app_nil_r in E.
      destruct (canonical_parses t Ct) as (v & Pv).
      apply (parsed_production t v); [|exact Pv].
      rewrite matches_production. change (accepts_ true PROD_CHAIN t = true).
      apply prod_shape. exists x, y, z, []. rewrite app_nil_r.
      repeat (split; [assumption|]). reflexivity.
    + exfalso. apply (canonical_no_newline t Ct). rewrite E.
      apply in_or_app. right. left. reflexivity.
  - intros (M & m & p & ->). change (accepts_ false PROD_CHAIN (base M m p) = true).
    apply prod_shape. exists (dec M), (dec m), (dec p), [].
    repeat (split; [apply digits_dec|]). split; [|reflexivity].
    rewrite app_nil_r. unfold base, prod_text. flat. reflexivity.
Qed.

Lemma ver_production t :
  production_tag t -> exists v, Semver.parse t = Ok v /\ plain_version v.
Proof.
  intros (M & m & p & ->). exists (Semver.MkVersion M m p None None).
  split; [apply parse_base|]. exists M, m, p. reflexivity.
Qed.

Lemma chain_ok_channel ch : chain_ok (CHANNEL_CHAIN ch) = true.
Proof.
  unfold CHANNEL_CHAIN, DIGITS. cbn [app].
  change (chain_ok (map seg_of_char ch ++ [SChar "."; SRun (Some 4) false [CDigit]]) = true).
  rewrite chain_ok_after_name. reflexivity.
Qed.

Lemma channel_shape b ch s :
  lowers ch ->
  (accepts_ b (CHANNEL_CHAIN ch) s = true <->
   exists x y z n e,
     digits x /\ digits y /\ digits z /\ digits n
     /\ s = pre_text x y z ch n ++ e /\ accepts_ b [] e = true).
Proof.
  intros [Hc Hc0]. unfold CHANNEL_CHAIN, DIGITS, pre_text, digits. cbn [app]. split.
  - intros H.
    apply accepts_run in H as (x & r1 & -> & Hx0 & Hx & _ & H).
    apply accepts_char in H as (r2 & -> & H).
    apply accepts_run in H as (y & r3 & -> & Hy0 & Hy & _ & H).
    apply accepts_char in H as (r4 & -> & H).
    apply accepts_run in H as (z & r5 & -> & Hz0 & Hz & _ & H).
    apply accepts_char in H as (r6 & -> & H).
    apply (accepts_lits b ch _ r6 Hc) in H as (r7 & -> & H).
    apply accepts_char in H as (r8 & -> & H).
    apply accepts_run in H as (n & e & -> & Hn0 & Hn & _ & H).
    rewrite forallb_digit_set in Hx, Hy, Hz, Hn.
    exists x, y, z, n, e. repeat split; auto. flat. reflexivity.
  - intros (x & y & z & n & e & [Hx Hx0] & [Hy Hy0] & [Hz Hz0] & [Hn Hn0] & -> & He).
    assert (Se : stops (in_set false [CDigit]) e).
    { destruct b; [apply accepts_all_nil in He; subst; exact I|].
      apply accepts_nil in He as [->| ->]; [exact I|reflexivity]. }
    flat.
    apply accepts_run. eexists x, _.
    rewrite forallb_digit_set. repeat split; auto.
    apply accepts_char. eexists; split; [reflexivity|].
    apply accepts_run. eexists y, _.
    rewrite forallb_digit_set. repeat split; auto.
    apply accepts_char. eexists; split; [reflexivity|].
    apply accepts_run. eexists z, _.
    rewrite forallb_digit_set. repeat split; auto.
    apply accepts_char. eexists; split; [reflexivity|].
    apply (accepts_lits b ch _ _ Hc). eexists; split; [reflexivity|].
    apply accepts_char. eexists; split; [reflexivity|].
    apply accepts_run. exists n, e.
    rewrite forallb_digit_set. repeat split; auto.
Qed.

Lemma sel_channel ch t :
  channel ch = true ->
  canonical t = true -> (accepts (CHANNEL_CHAIN ch) t = true <-> channel_tag ch t).
Proof.
  intros Cc Ct. apply channel_spec in Cc. split.
  - intros A. change (accepts_ false (CHANNEL_CHAIN ch) t = true) in A.
    apply (channel_shape false ch t Cc) in A
      as (x & y & z & n & e & Hx & Hy & Hz & Hn & E & He).
    apply accepts_nil in He as [->| ->].
    + rewrite app_nil_r in E.
      destruct (canonical_parses t Ct) as (v & Pv). rewrite E in Pv.
      destruct (pre_text_canonical x y z ch n v Hx Hy Hz Cc Hn Pv) as (M & m & p & k & Q).
      exists M, m, p, k. rewrite E. exact Q.
    + exfalso. apply (canonical_no_newline t Ct). rewrite E.
      apply in_or_app. right. left. reflexivity.
  - intros (M & m & p & n & ->).
    change (accepts_ false (CHANNEL_CHAIN ch) (ptag M m p ch n) = true).
    apply (channel_shape false ch _ Cc). exists (dec M), (dec m), (dec p), (dec n), [].
    repeat (split; [apply digits_dec|]). split; [|reflexivity].
    rewrite app_nil_r. apply ptag_text.
Qed.

Lemma ver_channel ch t :
  channel ch = true ->
  channel_tag ch t -> exists v, Semver.parse t = Ok v /\ channel_version ch v.
Proof.
  intros Cc (M & m & p & n & ->).
  exists (Semver.MkVersion M m p (Some (ch ++ "." ++ dec n)) None).
  split; [apply (parse_ptag M m p ch n Cc)|]. exists M, m, p, n. reflexivity.
Qed.

Lemma chain_ok_family name : chain_ok (FAMILY_CHAIN name) = true.
Proof. unfold FAMILY_CHAIN. rewrite chain_ok_after_name. reflexivity. Qed.

Lemma family_name_dots M m p ch :
  channel ch = true -> dots (base M m p ++ "-" ++ ch) = 2.
Proof.
  intros Cc. apply channel_spec in Cc as [Hc _].
  replace (base M m p) with (prod_text (dec M) (dec m) (dec p))
    by (unfold base, prod_text; flat; reflexivity).
  rewrite dots_app, (dots_prod _ _ _ (digits_dec M) (digits_dec m) (digits_dec p)).
  change ("-" ++ ch) with (["-"%char] ++ ch).
  rewrite dots_app, (dots_lowers ch Hc). reflexivity.
Qed.

Lemma sel_family M m p ch t :
  channel ch = true ->
  canonical t = true ->
  (accepts (FAMILY_CHAIN (base M m p ++ "-" ++ ch)) t = true <-> family_tag M m p ch t).
Proof.
  intros Cc Ct. split.
  - intros A. unfold FAMILY_CHAIN in A.
    apply accepts_split in A as (s1 & s2 & E & A1 & A2).
    pose proof (canonical_no_newline t Ct) as N. rewrite E in N.
    apply (accepts_ordinal 1 s2 (no_newline_app_r _ _ N)) in A2 as (ds & Hd & ->).
    destruct (wild_spec _ s1 A1 (no_newline_app_l _ _ N)) as (L & Q & I).
    assert (J : In "-"%char t).
    { rewrite E. apply in_or_app. left. apply I; [discriminate|].
      apply in_or_app. right. left. reflexivity. }
    destruct (shaped_dots t (canonical_shaped t Ct)) as [[_ K]|[D _]]; [contradiction|].
    rewrite E in D. rewrite dots_app in D.
    change ("."%char :: ds) with (["."%char] ++ ds) in D. rewrite dots_app in D.
    rewrite (dots_digits ds (proj1 Hd)) in D.
    change (dots ["."%char]) with 1 in D.
    rewrite (family_name_dots M m p ch Cc) in L, Q.
    assert (S1 : s1 = base M m p ++ "-" ++ ch) by (apply Q; lia).
    subst s1.
    assert (T : t = pre_text (dec M) (dec m) (dec p) ch ds)
      by (rewrite E; unfold base, pre_text; flat; reflexivity).
    destruct (canonical_parses t Ct) as (v & Pv). rewrite T in Pv.
    apply channel_spec in Cc.
    unfold pre_text in Pv.
    rewrite parse_pre_shape in Pv
      by (apply digits_dec || apply Cc || apply Hd).
    destruct (canon (dec M) && canon (dec m) && canon (dec p)); [|discriminate Pv].
    cbn [andb] in Pv.
    destruct (canon ds) eqn:Cd; [|discriminate Pv].
    destruct (canon_is_dec ds Cd) as (k & -> & _).
    exists k. rewrite T. symmetry. apply ptag_text.
  - intros (n & ->). unfold FAMILY_CHAIN.
    replace (ptag M m p ch n) with ((base M m p ++ "-" ++ ch) ++ "."%char :: dec n)
      by (unfold ptag; flat; reflexivity).
    rewrite accepts_self_app.
    apply accepts_ordinal.
    + apply tagchars_no_newline. cbn [forallb].
      rewrite (digits_tagchars _ (dec_digits n)). reflexivity.
    + exists (dec n). split; [apply digits_dec|reflexivity].
Qed.

Lemma ver_family M m p ch t :
  channel ch = true ->
  family_tag M m p ch t -> exists v, Semver.parse t = Ok v /\ channel_version ch v.
Proof.
  intros Cc (n & ->). apply (ver_channel ch _ Cc). exists M, m, p, n. reflexivity.
Qed.

Lemma highest_production r :
  wellformed r = true ->
  exists out, find_tag_with_pattern r PRODUCTION = Ok out /\ highest_of production_tag r out.
Proof.
  exact (highest_in_class plain_version production_tag PRODUCTION PROD_CHAIN
           lt_plain compile_production eq_refl sel_production ver_production r).
Qed.

Lemma channel_pattern ch :
  channel ch = true ->
  compile ("^(\d+)\.(\d+)\.(\d+)-" ++ ch ++ "\.(\d+)$") = Some (chain_re (CHANNEL_CHAIN ch)).
Proof.
  intros C. apply channel_spec in C as [C _].
  exact (compile_channel ch (lowers_namechars ch C)).
Qed.

Lemma highest_channel r ch :
  channel ch = true -> wellformed r = true ->
  exists out,
    find_tag_with_pattern r ("^(\d+)\.(\d+)\.(\d+)-" ++ ch ++ "\.(\d+)$") = Ok out
    /\ highest_of (channel_tag ch) r out.
Proof.
  intros C.
  exact (highest_in_class (channel_version ch) (channel_tag ch) _ (CHANNEL_CHAIN ch)
           (fun a b => lt_channel ch a b C) (channel_pattern ch C) (chain_ok_channel ch)
           (fun t => sel_channel ch t C) (fun t => ver_channel ch t C) r).
Qed.

Lemma family_namechars M m p ch :
  channel ch = true -> forallb namechar (base M m p ++ "-" ++ ch) = true.
Proof.
  intros C. apply channel_spec in C as [C _].
  replace (base M m p) with (prod_text (dec M) (dec m) (dec p))
    by (unfold base, prod_text; flat; reflexivity).
  rewrite forallb_app.
  rewrite (prod_text_namechars _ _ _ (digits_dec M) (digits_dec m) (digits_dec p)).
  cbn [app forallb andb]. rewrite (lowers_namechars ch C). reflexivity.
Qed.

Lemma family_pattern M m p ch :
  channel ch = true ->
  compile ("^" ++ base M m p ++ "-" ++ ch ++ "\.(\d+)$")
  = Some (chain_re (FAMILY_CHAIN (base M m p ++ "-" ++ ch))).
Proof.
  intros C.
  replace ("^" ++ base M m p ++ "-" ++ ch ++ "\.(\d+)$")
    with ("^" ++ (base M m p ++ "-" ++ ch) ++ "\.(\d+)$") by (flat; reflexivity).
  exact (compile_family _ (family_namechars M m p ch C)).
Qed.

(** [get_current_rc_patch] on a base version without leading zeros. *)
Lemma highest_family r M m p ch :
  channel ch = true -> wellformed r = true ->
  exists out,
    get_current_rc_patch r (base M m p) ch = Ok out
    /\ highest_of (family_tag M m p ch) r out.
Proof.
  intros C W. unfold get_current_rc_patch. cbv zeta.
  destruct (matches_true_fullmatch _ _ (matches_base M m p)) as (mo & F). rewrite F.
  cbn [bind truthy negb].
  exact (highest_in_class (channel_version ch) (family_tag M m p ch) _
           (FAMILY_CHAIN (base M m p ++ "-" ++ ch))
           (fun a b => lt_channel ch a b C) (family_pattern M m p ch C)
           (chain_ok_family _)
           (fun t => sel_family M m p ch t C) (fun t => ver_family M m p ch t C) r W).
Qed.

Lemma patch_not_rc : str_eqb "patch" "rc" = false.
Proof. reflexivity. Qed.

Lemma patch_is_patch : str_eqb "patch" "patch" = true.
Proof. reflexivity. Qed.

(** [increment_rc_patch] in the channel [patch], up to the lookup. *)
Lemma increment_patch_steps r M m p :
  lifecycle r = true ->
  increment_rc_patch r (base M m p) "patch"
  = if negb (has_tag r (base M m p)) then Raise (InvalidTagCreation NO_PRODUCTION)
    else if has_tag r (base M m (p + 1)) then Raise (InvalidTagCreation PATCH_SHIPPED)
    else
      c <- get_current_rc_patch r (base M m p) "patch" ;;
      match c with
      | Some ((_ :: _) as current_rc) =>
          v <- Semver.parse current_rc ;;
          new_rc_tag <- Semver.bump_prerelease v ;;
          r' <- create_tag r (Semver.to_str new_rc_tag) ;;
          Ok (Some (TVer new_rc_tag), r')
      | _ => Ok (None, r)
      end.
Proof.
  intros L. unfold increment_rc_patch. cbv zeta.
  destruct (matches_true_fullmatch _ _ (matches_base M m p)) as (mo & F). rewrite F.
  cbn [bind truthy negb].
  rewrite patch_not_rc, patch_is_patch. cbn [bind].
  rewrite (find_tag_exact r (base M m p) L (shaped_base M m p)). cbn [bind].
  destruct (has_tag r (base M m p)); cbn [negb]; [|reflexivity].
  rewrite parse_base. cbn [bind].
  replace (Semver.to_str (Semver.bump_patch (Semver.MkVersion M m p None None)))
    with (base M m (p + 1)) by (symmetry; apply to_str_plain).
  rewrite (find_tag_exact r (base M m (p + 1)) L (shaped_base M m (p + 1))). cbn [bind].
  destruct (has_tag r (base M m (p + 1))); [reflexivity|].
  destruct (get_current_rc_patch r (base M m p) "patch") as [[[|x t]|]|e];
    cbn [bind]; reflexivity.
Qed.

(** What a successful [init_new_rc] has done. *)
Lemma init_new_rc_ok r chan rc r1 :
  init_new_rc r chan = Ok (Some rc, r1) ->
  exists d t,
    get_current_tag r chan false = Ok (Some d)
    /\ Semver.parse d = Ok t
    /\ In d r
    /\ rc = base_of t ++ "-rc.1"
    /\ r1 = r ++ [rc].
Proof.
  unfold init_new_rc.
  destruct (get_current_tag r chan false) as [[[|x tl]|]|e]; cbn [bind].
  - intros H. discriminate H.
  - destruct (Semver.parse (x :: tl)) as [t|e] eqn:P; cbn [bind];
      [|intros H; discriminate H].
    unfold commit. destruct (has_tag r (x :: tl)) eqn:I; cbn [bind];
      [|intros H; discriminate H].
    destruct (create_tag r (base_of t ++ "-rc.1")) as [r'|e] eqn:T; cbn [bind];
      [|intros H; discriminate H].
    intros H. injection H as <- <-. apply create_tag_ok in T.
    exists (x :: tl), t. repeat split; auto. apply has_tag_In. exact I.
  - intros H. discriminate H.
  - intros H. discriminate H.
Qed.

Lemma base_of_base t :
  base_of t = base (Semver.major t) (Semver.minor t) (Semver.patch t).
Proof. reflexivity. Qed.

Lemma base_not_rc M m p : base M m p <> base M m p ++ "-rc.1".
Proof.
  intros E. apply (f_equal (@length ascii)) in E. rewrite length_app in E.
  cbn [length] in E. lia.
Qed.

Lemma rc_not_patch : str_eqb "rc" "patch" = false.
Proof. reflexivity. Qed.

(** [create_prod_tag] on the first release candidate of a base version. *)
Lemma promote_first_rc r M m p :
  In (base M m p ++ "-rc.1") r ->
  create_prod_tag r (base M m p ++ "-rc.1") = created r (TStr (base M m p)).
Proof.
  intros I. rewrite (rc_name M m p) in I |- *.
  rewrite (create_prod_tag_ptag r M m p "rc" 1 (or_introl eq_refl)).
  rewrite rc_not_patch.
  unfold promoted. rewrite (commit_present r _ I). reflexivity.
Qed.


(** The patch prereleases of a base version: the highest one is the one
    with the highest ordinal. *)
Lemma highest_family_ordinal r M m p ch d :
  channel ch = true ->
  highest_of (family_tag M m p ch) r (Some d) ->
  exists n, d = ptag M m p ch n /\ In (ptag M m p ch n) r
            /\ forall n', In (ptag M m p ch n') r -> (n' <= n)%N.
Proof.
  intros C (I & (n & ->) & v & Pv & Hmax). exists n. split; [reflexivity|].
  split; [exact I|]. intros n' I'.
  assert (Ev : v = Semver.MkVersion M m p (Some (ch ++ "." ++ dec n)) None)
    by (pose proof (parse_ptag M m p ch n C) as Q; congruence).
  destruct (Hmax (ptag M m p ch n') _ I' (ex_intro _ n' eq_refl) (parse_ptag M m p ch n' C))
    as [_ L].
  rewrite Ev in L. unfold rank in L.
  rewrite (ordinal_family M m p ch n None C), (ordinal_family M m p ch n' None C) in L.
  exact (lex_lt_last M m p n n' L).
Qed.

Lemma increment_patch_missing r M m p :
  lifecycle r = true -> ~ In (base M m p) r ->
  increment_rc_patch r (base M m p) "patch" = Raise (InvalidTagCreation NO_PRODUCTION).
Proof.
  intros L N. rewrite (increment_patch_steps r M m p L).
  rewrite (has_tag_absent r _ N). reflexivity.
Qed.

Lemma increment_patch_shipped r M m p :
  lifecycle r = true -> In (base M m p) r -> In (base M m (p + 1)) r ->
  increment_rc_patch r (base M m p) "patch" = Raise (InvalidTagCreation PATCH_SHIPPED).
Proof.
  intros L I J. rewrite (increment_patch_steps r M m p L).
  apply has_tag_In in I, J. rewrite I, J. reflexivity.
Qed.

Lemma increment_patch_none r M m p :
  lifecycle r = true -> In (base M m p) r -> ~ In (base M m (p + 1)) r ->
  get_current_rc_patch r (base M m p) "patch" = Ok None ->
  increment_rc_patch r (base M m p) "patch" = Ok (None, r).
Proof.
  intros L I J G. rewrite (increment_patch_steps r M m p L).
  apply has_tag_In in I. rewrite I, (has_tag_absent r _ J), G. reflexivity.
Qed.

Lemma increment_patch_found r M m p n :
  lifecycle r = true -> In (base M m p) r -> ~ In (base M m (p + 1)) r ->
  get_current_rc_patch r (base M m p) "patch" = Ok (Some (ptag M m p "patch" n)) ->
  ~ In (ptag M m p "patch" (n + 1)) r ->
  increment_rc_patch r (base M m p) "patch"
  = Ok (Some (TVer (Semver.MkVersion M m p (Some ("patch" ++ "." ++ dec (n + 1))) None)),
        r ++ [ptag M m p "patch" (n + 1)]).
Proof.
  intros L I J G K. rewrite (increment_patch_steps r M m p L).
  apply has_tag_In in I. rewrite I, (has_tag_absent r _ J), G. cbn [negb bind].
  destruct (ptag_cons M m p "patch" n) as (x & t & E). rewrite E. rewrite <- E.
  rewrite (parse_ptag M m p "patch" n channel_patch). cbn [bind].
  rewrite (bump_prerelease_spec M m p "patch" n None eq_refl). cbn [bind].
  rewrite (to_str_pre M m p "patch" (n + 1) channel_patch).
  rewrite (create_tag_shaped r _ (shaped_ptag M m p "patch" (n + 1) channel_patch) K
             (clashes_lifecycle r _ L (shaped_ptag M m p "patch" (n + 1) channel_patch))).
  reflexivity.
Qed.

(** ** What the backend answers *)

Lemma create_tag_outcome r name :
  shaped name = true ->
  create_tag r name
  = if has_tag r name || clashes r name then Raise GitCommandError else Ok (r ++ [name]).
Proof.
  intros H. unfold create_tag. rewrite (valid_shaped name H).
  destruct (has_tag r name), (clashes r name); reflexivity.
Qed.

Lemma created_outcome r t :
  shaped (name_of t) = true ->
  created r t
  = if has_tag r (name_of t) || clashes r (name_of t) then Raise GitCommandError
    else Ok (t, r ++ [name_of t]).
Proof.
  intros H. unfold created. rewrite (create_tag_outcome r _ H).
  destruct (has_tag r (name_of t) || clashes r (name_of t)); reflexivity.
Qed.

(** In a repository of lifecycle tags only a taken name is refused. *)
Lemma create_tag_lifecycle r name :
  lifecycle r = true -> shaped name = true ->
  create_tag r name = if has_tag r name then Raise GitCommandError else Ok (r ++ [name]).
Proof.
  intros L H. rewrite (create_tag_outcome r name H), (clashes_lifecycle r name L H).
  rewrite orb_false_r. reflexivity.
Qed.

Lemma create_tag_fresh r name r' :
  create_tag r name = Ok r' -> r' = r ++ [name] /\ ~ In name r.
Proof.
  unfold create_tag. destruct (valid_tag_name name); cbn [andb];
    [|intros H; discriminate H].
  destruct (has_tag r name) eqn:T; cbn [negb andb]; [intros H; discriminate H|].
  destruct (clashes r name); cbn [negb]; intros H; [discriminate H|].
  injection H as <-. split; [reflexivity|].
  intros I. apply has_tag_In in I. rewrite I in T. discriminate T.
Qed.

Lemma created_fresh r t v r' :
  created r t = Ok (v, r') -> v = t /\ r' = r ++ [name_of t] /\ ~ In (name_of t) r.
Proof.
  unfold created. destruct (create_tag r (name_of t)) as [r1|e] eqn:T; cbn [bind];
    intros H; [|discriminate H].
  injection H as <- <-. destruct (create_tag_fresh r _ _ T) as [-> N]. auto.
Qed.

Lemma first_seed ch : "0.1.0-" ++ ch ++ ".1" = ptag 0 1 0 ch 1.
Proof. reflexivity. Qed.

(** ** [increment_prerelease_tag] *)

Lemma advance_none r tag ch major_bump :
  tag = None \/ tag = Some [] ->
  increment_prerelease_tag r tag ch major_bump = created r (TStr ("0.1.0-" ++ ch ++ ".1")).
Proof. intros [->| ->]; reflexivity. Qed.

Lemma advance_reject r tag ch major_bump :
  tag <> [] -> matches PRERELEASE tag = false ->
  increment_prerelease_tag r (Some tag) ch major_bump = Raise ValueError.
Proof.
  intros N H. destruct tag as [|x tl]; [congruence|].
  unfold increment_prerelease_tag. cbv zeta.
  rewrite (matches_false_fullmatch PRERELEASE _ (x :: tl) compile_prerelease H).
  reflexivity.
Qed.

Lemma base_not_prerelease M m p : matches PRERELEASE (base M m p) = false.
Proof.
  destruct (matches PRERELEASE (base M m p)) eqn:H; [|reflexivity]. exfalso.
  destruct (parsed_prerelease _ _ H (parse_base M m p))
    as (M' & m' & p' & ch & n & C & E).
  pose proof (parse_base M m p) as P. rewrite E in P.
  rewrite (parse_ptag M' m' p' ch n C) in P. discriminate P.
Qed.

Lemma base_cons M m p : exists x t, base M m p = x :: t.
Proof.
  unfold base. destruct (dec M) as [|x t] eqn:E.
  - apply dec_nonempty in E. destruct E.
  - cbn [app]. eauto.
Qed.

(** ** What a lookup with the production grammar hands back *)

Lemma prod_text_strip x y z : digits x -> digits y -> digits z ->
  strip (prod_text x y z) = prod_text x y z
  /\ strip (prod_text x y z ++ [newline]) = prod_text x y z.
Proof.
  intros Hx Hy Hz. unfold prod_text.
  replace (x ++ "."%char :: y ++ "."%char :: z)
    with (x ++ ("."%char :: y ++ ["."%char]) ++ z) by (flat; reflexivity).
  split; [apply (strip_edges x _ z Hx Hz)|apply (strip_edges_newline x _ z Hx Hz)].
Qed.

Lemma production_candidate r d :
  find_tag_with_pattern r PRODUCTION = Ok (Some d) ->
  (exists M m p, d = base M m p) /\ (In d r \/ In (d ++ [newline]) r).
Proof.
  intros H.
  destruct (highest_is_candidate r PRODUCTION _ d compile_production H)
    as ((t & I & A & S) & v & P).
  rewrite (chain_search PROD_CHAIN t eq_refl) in A.
  change (accepts_ false PROD_CHAIN t = true) in A.
  apply prod_shape in A as (x & y & z & e & Hx & Hy & Hz & E & He).
  destruct (prod_text_strip x y z Hx Hy Hz) as [S1 S2].
  assert (D : d = prod_text x y z).
  { apply accepts_nil in He as [->| ->]; rewrite S, E.
    - rewrite app_nil_r. exact S1.
    - exact S2. }
  split.
  - rewrite D in P. unfold prod_text in P.
    rewrite parse_prod_shape in P by (apply Hx || apply Hy || apply Hz).
    destruct (canon x) eqn:Cx; [|discriminate P].
    destruct (canon y) eqn:Cy; [|discriminate P].
    destruct (canon z) eqn:Cz; [|discriminate P].
    destruct (canon_is_dec x Cx) as (M & Ex & _).
    destruct (canon_is_dec y Cy) as (m & Ey & _).
    destruct (canon_is_dec z Cz) as (p & Ez & _).
    exists M, m, p. rewrite D, Ex, Ey, Ez. unfold base, prod_text. flat. reflexivity.
  - apply accepts_nil in He as [->| ->].
    + left. rewrite D. rewrite app_nil_r in E. rewrite <- E. exact I.
    + right. rewrite D. rewrite <- E. exact I.
Qed.

(** ** What a successful [init_new_patch] has done *)

Lemma init_new_patch_ok r out r1 :
  init_new_patch r = Ok (out, r1) ->
  (get_current_tag r "dev" true = Ok None /\ out = None /\ r1 = r)
  \/ (exists M m p,
         get_current_tag r "dev" true = Ok (Some (base M m p))
         /\ In (base M m p) r
         /\ out = Some (base M m p ++ "-patch.1")
         /\ r1 = r ++ [base M m p ++ "-patch.1"]
         /\ ~ In (base M m p ++ "-patch.1") r).
Proof.
  unfold init_new_patch.
  destruct (get_current_tag r "dev" true) as [[d|]|e] eqn:G; cbn [bind].
  - destruct (production_candidate r d G) as ((M & m & p & ->) & _).
    destruct (base_cons M m p) as (x & t & E). rewrite E. rewrite <- E.
    unfold commit. destruct (has_tag r (base M m p)) eqn:I; cbn [bind];
      [|intros H; discriminate H].
    destruct (create_tag r (base M m p ++ "-patch.1")) as [r'|e] eqn:T; cbn [bind];
      intros H; [|discriminate H].
    injection H as <- <-. destruct (create_tag_fresh r _ _ T) as [-> N].
    right. exists M, m, p. apply has_tag_In in I. auto.
  - intros H. injection H as <- <-. left. auto.
  - intros H. discriminate H.
Qed.

(** ** What a successful [increment_rc_patch] has done *)

Lemma increment_rc_patch_ok r tag ch out r' :
  increment_rc_patch r tag ch = Ok (out, r') ->
  (ch = "rc" \/ ch = "patch")
  /\ ((exists c, get_current_rc_patch r tag ch = Ok c
                 /\ (c = None \/ c = Some []) /\ out = None /\ r' = r)
      \/ (exists d w v,
             get_current_rc_patch r tag ch = Ok (Some d)
             /\ Semver.parse d = Ok w
             /\ Semver.bump_prerelease w = Ok v
             /\ out = Some (TVer v)
             /\ r' = r ++ [Semver.to_str v]
             /\ ~ In (Semver.to_str v) r)).
Proof.
  assert (Tail : forall c,
    get_current_rc_patch r tag ch = Ok c ->
    match c with
    | Some ((_ :: _) as current_rc) =>
        v <- Semver.parse current_rc ;;
        new_rc_tag <- Semver.bump_prerelease v ;;
        r' <- create_tag r (Semver.to_str new_rc_tag) ;;
        Ok (Some (TVer new_rc_tag), r')
    | _ => Ok (None, r)
    end = Ok (out, r') ->
    (exists c, get_current_rc_patch r tag ch = Ok c
               /\ (c = None \/ c = Some []) /\ out = None /\ r' = r)
    \/ (exists d w v,
           get_current_rc_patch r tag ch = Ok (Some d)
           /\ Semver.parse d = Ok w
           /\ Semver.bump_prerelease w = Ok v
           /\ out = Some (TVer v)
           /\ r' = r ++ [Semver.to_str v]
           /\ ~ In (Semver.to_str v) r)).
  { intros [[|x t]|] G.
    - intros H. injection H as <- <-. left. exists (Some []). auto.
    - destruct (Semver.parse (x :: t)) as [w|e] eqn:P; cbn [bind];
        [|intros H; discriminate H].
      destruct (Semver.bump_prerelease w) as [v|e] eqn:B; cbn [bind];
        [|intros H; discriminate H].
      destruct (create_tag r (Semver.to_str v)) as [r1|e] eqn:T; cbn [bind];
        intros H; [|discriminate H].
      injection H as <- <-. destruct (create_tag_fresh r _ _ T) as [-> N].
      right. exists (x :: t), w, v. repeat (split; [assumption || reflexivity|]). exact N.
    - intros H. injection H as <- <-. left. exists None. auto. }
  unfold increment_rc_patch. cbv zeta.
  destruct (fullmatch PRODUCTION tag) as [mo|e]; cbn [bind]; [|intros H; discriminate H].
  destruct (negb (truthy mo)); [intros H; discriminate H|].
  destruct (str_eqb ch "rc") eqn:Erc.
  - apply str_eqb_eq in Erc. subst ch. rewrite rc_not_patch.
    destruct (find_tag r tag) as [[|]|e]; cbn [bind].
    + intros H. discriminate H.
    + destruct (get_current_rc_patch r tag "rc") as [c|e] eqn:G; cbn [bind].
      * intros H. split; [left; reflexivity|]. exact (Tail c eq_refl H).
      * intros H. discriminate H.
    + intros H. discriminate H.
  - cbn [bind]. destruct (str_eqb ch "patch") eqn:Ep.
    + apply str_eqb_eq in Ep. subst ch.
      destruct (find_tag r tag) as [[|]|e]; cbn [bind negb].
      * destruct (Semver.parse tag) as [w|e]; cbn [bind]; [|intros H; discriminate H].
        destruct (find_tag r (Semver.to_str (Semver.bump_patch w))) as [[|]|e];
          cbn [bind].
        -- intros H. discriminate H.
        -- destruct (get_current_rc_patch r tag "patch") as [c|e] eqn:G; cbn [bind].
           ++ intros H. split; [right; reflexivity|]. exact (Tail c eq_refl H).
           ++ intros H. discriminate H.
        -- intros H. discriminate H.
      * intros H. discriminate H.
      * intros H. discriminate H.
    + cbn [bind]. intros H. discriminate H.
Qed.

(** ** The names of the lifecycle determine their numbers *)

Lemma first_dot_split (a : str) : forall b x y,
  nodot a = true -> nodot b = true ->
  a ++ "."%char :: x = b ++ "."%char :: y -> a = b /\ x = y.
Proof.
  induction a as [|c a IH]; intros [|d b] x y Ha Hb E; cbn [app] in E.
  - injection E as E. auto.
  - injection E as E _. subst d. cbn [nodot forallb] in Hb.
    apply andb_true_iff in Hb as [Hb _]. discriminate Hb.
  - injection E as E _. subst c. cbn [nodot forallb] in Ha.
    apply andb_true_iff in Ha as [Ha _]. discriminate Ha.
  - injection E as -> E. cbn [nodot forallb] in Ha, Hb.
    apply andb_true_iff in Ha as [_ Ha]. apply andb_true_iff in Hb as [_ Hb].
    destruct (IH b x y Ha Hb E) as [-> ->]. auto.
Qed.

Lemma ptag_inj M m p ch n M' m' p' ch' n' :
  channel ch = true -> channel ch' = true ->
  ptag M m p ch n = ptag M' m' p' ch' n' ->
  M = M' /\ m = m' /\ p = p' /\ ch = ch' /\ n = n'.
Proof.
  intros C C' E. pose proof (parse_ptag M m p ch n C) as P.
  rewrite E, (parse_ptag M' m' p' ch' n' C') in P.
  injection P as -> -> -> Q.
  apply channel_spec in C as [C _]. apply channel_spec in C' as [C' _].
  apply (first_dot_split ch' ch (dec n') (dec n)
           (lower_nodot _ C') (lower_nodot _ C)) in Q as [-> Q].
  apply dec_inj in Q. subst n'. auto.
Qed.

Lemma base_inj M m p M' m' p' :
  base M m p = base M' m' p' -> M = M' /\ m = m' /\ p = p'.
Proof.
  intros E. pose proof (parse_base M m p) as P. rewrite E, parse_base in P.
  injection P as -> -> ->. auto.
Qed.

Lemma base_not_ptag M m p M' m' p' ch n :
  channel ch = true -> base M m p <> ptag M' m' p' ch n.
Proof.
  intros C E. pose proof (parse_base M m p) as P.
  rewrite E, (parse_ptag M' m' p' ch n C) in P. discriminate P.
Qed.

(** ** The order of the keys *)

Lemma lexc_eq a : forall b, lexc a b = Eq -> a = b.
Proof.
  induction a as [|x a IH]; intros [|y b] H; cbn [lexc] in H; try discriminate H.
  - reflexivity.
  - destruct (N.compare_spec x y) as [->| |]; try discriminate H.
    rewrite (IH b H). reflexivity.
Qed.

Lemma lexc_swap a : forall b, lexc b a = CompOpp (lexc a b).
Proof.
  induction a as [|x a IH]; intros [|y b]; cbn [lexc]; try reflexivity.
  rewrite (N.compare_antisym x y).
  destruct (N.compare x y); cbn [CompOpp]; [apply IH|reflexivity|reflexivity].
Qed.

Lemma lex_lt_antisym a b : lex_lt a b = false -> lex_lt b a = false -> a = b.
Proof.
  unfold lex_lt. rewrite (lexc_swap a b). intros H K. apply lexc_eq.
  destruct (lexc a b); [reflexivity|discriminate H|discriminate K].
Qed.

Lemma lex_lt_bump M m p n : lex_lt [M; m; p; n] [M; m; p; (n + 1)%N] = true.
Proof.
  unfold lex_lt. cbn [lexc]. rewrite !N.compare_refl.
  destruct (N.compare_spec n (n + 1)); [lia|reflexivity|lia].
Qed.

Lemma lex_lt_minor M m p n a b : lex_lt [M; m; p; n] [M; (m + 1)%N; a; b] = true.
Proof.
  unfold lex_lt. cbn [lexc]. rewrite !N.compare_refl.
  destruct (N.compare_spec m (m + 1)); [lia|reflexivity|lia].
Qed.

Lemma lex_lt_major M m p n a b c : lex_lt [M; m; p; n] [(M + 1)%N; a; b; c] = true.
Proof.
  unfold lex_lt. cbn [lexc].
  destruct (N.compare_spec M (M + 1)); [lia|reflexivity|lia].
Qed.

Lemma rank_ptag M m p ch n :
  channel ch = true ->
  rank (Semver.MkVersion M m p (Some (ch ++ "." ++ dec n)) None) = [M; m; p; n].
Proof.
  intros C. unfold rank. rewrite (ordinal_family M m p ch n None C). reflexivity.
Qed.

(** ** Repositories of canonical tags *)

Lemma canonical_base M m p : canonical (base M m p) = true.
Proof. apply canonical_spec. left. exists M, m, p. reflexivity. Qed.

Lemma canonical_ptag M m p ch n : channel ch = true -> canonical (ptag M m p ch n) = true.
Proof. intros C. apply canonical_spec. right. exists M, m, p, ch, n. auto. Qed.

Lemma wellformed_app r x :
  wellformed r = true -> canonical x = true -> wellformed (r ++ [x]) = true.
Proof.
  intros W C. unfold wellformed. rewrite forallb_app. cbn [forallb].
  unfold wellformed in W. rewrite W, C. reflexivity.
Qed.

Lemma base_no_dash M m p : ~ In "-"%char (base M m p).
Proof.
  destruct (shaped_dots _ (shaped_base M m p)) as [[_ N]|[D _]]; [exact N|].
  exfalso.
  assert (E : base M m p = prod_text (dec M) (dec m) (dec p))
    by (unfold base, prod_text; flat; reflexivity).
  rewrite E, (dots_prod _ _ _ (digits_dec M) (digits_dec m) (digits_dec p)) in D.
  discriminate D.
Qed.

(** What [get_current_rc_patch] hands back in a repository of canonical
    tags is a prerelease tag of the repository. *)
Lemma current_rc_patch_candidate r tag ch d :
  wellformed r = true -> channel ch = true ->
  get_current_rc_patch r tag ch = Ok (Some d) ->
  In d r /\ exists M m p c n, channel c = true /\ d = ptag M m p c n.
Proof.
  intros W C. unfold get_current_rc_patch. cbv zeta.
  destruct (matches PRODUCTION tag) eqn:Hm.
  - destruct (matches_true_fullmatch _ _ Hm) as (mo & F). rewrite F.
    cbn [bind truthy negb]. intros H.
    rewrite matches_production in Hm. change (accepts_ true PROD_CHAIN tag = true) in Hm.
    apply prod_shape in Hm as (x & y & z & e & Hx & Hy & Hz & E & He).
    apply accepts_all_nil in He. subst e. rewrite app_nil_r in E.
    assert (Nc : forallb namechar (tag ++ "-" ++ ch) = true).
    { rewrite E, forallb_app, (prod_text_namechars x y z Hx Hy Hz).
      apply channel_spec in C as [C _].
      cbn [app forallb andb]. rewrite (lowers_namechars ch C). reflexivity. }
    assert (Cp : compile ("^" ++ tag ++ "-" ++ ch ++ "\.(\d+)$")
                 = Some (chain_re (FAMILY_CHAIN (tag ++ "-" ++ ch)))).
    { replace ("^" ++ tag ++ "-" ++ ch ++ "\.(\d+)$")
        with ("^" ++ (tag ++ "-" ++ ch) ++ "\.(\d+)$") by (flat; reflexivity).
      exact (compile_family _ Nc). }
    destruct (highest_is_candidate r _ _ d Cp H) as ((t & I & A & S) & _).
    pose proof (wellformed_in r t W I) as Ct.
    rewrite (shaped_strip t (canonical_shaped t Ct)) in S. subst d.
    split; [exact I|].
    rewrite (chain_search _ t (chain_ok_family _)) in A. unfold FAMILY_CHAIN in A.
    apply accepts_split in A as (s1 & s2 & Et & A1 & _).
    pose proof (canonical_no_newline t Ct) as N. rewrite Et in N.
    destruct (wild_spec _ s1 A1 (no_newline_app_l _ _ N)) as (_ & _ & K).
    assert (J : In "-"%char t).
    { rewrite Et. apply in_or_app. left. apply K; [discriminate|].
      apply in_or_app. right. left. reflexivity. }
    apply canonical_spec in Ct as [(M & m & p & Eb)|(M & m & p & c & n & Cc & Ep)].
    + exfalso. rewrite Eb in J. exact (base_no_dash M m p J).
    + exists M, m, p, c, n. auto.
  - rewrite (matches_false_fullmatch PRODUCTION _ tag compile_production Hm).
    cbn [bind truthy negb]. intros H. discriminate H.
Qed.

(** [increment_rc_patch] in the channel [rc], up to the lookup. *)
Lemma increment_rc_steps r M m p :
  lifecycle r = true ->
  increment_rc_patch r (base M m p) "rc"
  = if has_tag r (base M m p) then Raise (InvalidTagCreation RC_EXISTS)
    else
      c <- get_current_rc_patch r (base M m p) "rc" ;;
      match c with
      | Some ((_ :: _) as current_rc) =>
          v <- Semver.parse current_rc ;;
          new_rc_tag <- Semver.bump_prerelease v ;;
          r' <- create_tag r (Semver.to_str new_rc_tag) ;;
          Ok (Some (TVer new_rc_tag), r')
      | _ => Ok (None, r)
      end.
Proof.
  intros L. unfold increment_rc_patch. cbv zeta.
  destruct (matches_true_fullmatch _ _ (matches_base M m p)) as (mo & F). rewrite F.
  cbn [bind truthy negb].
  rewrite (str_eqb_refl "rc"), rc_not_patch. cbn [bind].
  rewrite (find_tag_exact r (base M m p) L (shaped_base M m p)). cbn [bind].
  destruct (has_tag r (base M m p)); [reflexivity|].
  destruct (get_current_rc_patch r (base M m p) "rc") as [[[|x t]|]|e];
    cbn [bind]; reflexivity.
Qed.

(** The bump of the highest tag of a family. *)
Lemma bump_family r M m p ch n :
  lifecycle r = true -> channel ch = true ->
  (forall n', In (ptag M m p ch n') r -> (n' <= n)%N) ->
  (v <- Semver.parse (ptag M m p ch n) ;;
   new_rc_tag <- Semver.bump_prerelease v ;;
   r' <- create_tag r (Semver.to_str new_rc_tag) ;;
   Ok (Some (TVer new_rc_tag), r'))
  = Ok (Some (TVer (Semver.MkVersion M m p (Some (ch ++ "." ++ dec (n + 1))) None)),
        r ++ [ptag M m p ch (n + 1)]).
Proof.
  intros L C Hmax. rewrite (parse_ptag M m p ch n C). cbn [bind].
  pose proof C as C'. apply channel_spec in C' as [Cl _].
  rewrite (bump_prerelease_spec M m p ch n None Cl). cbn [bind].
  rewrite (to_str_pre M m p ch (n + 1) C).
  rewrite (create_tag_shaped r _ (shaped_ptag M m p ch (n + 1) C));
    [reflexivity| |apply (clashes_lifecycle r _ L (shaped_ptag M m p ch (n + 1) C))].
  intros K. apply Hmax in K. lia.
Qed.

Lemma init_new_rc_inv r ch out r1 :
  init_new_rc r ch = Ok (out, r1) ->
  ((get_current_tag r ch false = Ok None \/ get_current_tag r ch false = Ok (Some []))
   /\ out = None /\ r1 = r)
  \/ (exists d t,
         get_current_tag r ch false = Ok (Some d)
         /\ Semver.parse d = Ok t
         /\ In d r
         /\ out = Some (base_of t ++ "-rc.1")
         /\ r1 = r ++ [base_of t ++ "-rc.1"]
         /\ ~ In (base_of t ++ "-rc.1") r).
Proof.
  unfold init_new_rc.
  destruct (get_current_tag r ch false) as [[[|x tl]|]|e]; cbn [bind].
  - intros H. injection H as <- <-. left. auto.
  - destruct (Semver.parse (x :: tl)) as [t|e] eqn:P; cbn [bind];
      [|intros H; discriminate H].
    unfold commit. destruct (has_tag r (x :: tl)) eqn:I; cbn [bind];
      [|intros H; discriminate H].
    destruct (create_tag r (base_of t ++ "-rc.1")) as [r'|e] eqn:T; cbn [bind];
      intros H; [|discriminate H].
    injection H as <- <-. destruct (create_tag_fresh r _ _ T) as [-> N].
    right. exists (x :: tl), t. apply has_tag_In in I.
    repeat (split; [assumption || reflexivity|]). exact N.
  - intros H. injection H as <- <-. left. auto.
  - intros H. discriminate H.
Qed.

Lemma create_prod_tag_inv r tag v r' :
  create_prod_tag r tag = Ok (v, r') ->
  In tag r /\ r' = r ++ [name_of v] /\ ~ In (name_of v) r
  /\ exists M m p, name_of v = base M m p.
Proof.
  intros H. destruct (create_prod_tag_ok r tag v r' H) as (B & R).
  revert H. unfold create_prod_tag. cbv zeta.
  destruct (fullmatch RC_OR_PATCH tag) as [mo|e]; cbn [bind]; [|intros H; discriminate H].
  destruct (negb (truthy mo)); [intros H; discriminate H|].
  destruct (match_ RC_OR_PATCH tag) as [[mo'|]|e]; cbn [bind];
    [|intros H; discriminate H|intros H; discriminate H].
  destruct (if match group mo' 4 with
               | Some g => str_eqb g "patch"
               | None => false
               end
            then v0 <- Semver.parse tag ;; Ok (TVer (Semver.bump_patch v0))
            else t <- Semver.parse tag ;; Ok (TStr (base_of t))) as [nt|e];
    cbn [bind]; [|intros H; discriminate H].
  unfold commit. destruct (has_tag r tag) eqn:I; cbn [bind]; [|intros H; discriminate H].
  destruct (create_tag r (name_of nt)) as [r1|e] eqn:T; cbn [bind];
    intros H; [|discriminate H].
  injection H as <- <-. destruct (create_tag_fresh r _ _ T) as [_ N].
  apply has_tag_In in I. auto.
Qed.

Lemma advance_inv r tag ch major_bump v r' :
  increment_prerelease_tag r tag ch major_bump = Ok (v, r') ->
  r' = r ++ [name_of v] /\ ~ In (name_of v) r.
Proof.
  unfold increment_prerelease_tag. cbv zeta. intros H.
  apply bind_ok in H as (nt & _ & H).
  apply created_fresh in H as (-> & -> & N). auto.
Qed.

(** ** [find_tag_with_pattern] without a result *)

Lemma insert_nonempty x l l' : insert x l = Ok l' -> l' <> [].
Proof.
  intros H E. subst l'. pose proof (insert_in x l [] H x) as Q.
  destruct (proj2 Q (or_introl eq_refl)).
Qed.

Lemma sort_asc_empty l : sort_asc l = Ok [] -> l = [].
Proof.
  destruct l as [|x l]; [reflexivity|]. cbn [sort_asc].
  destruct (sort_asc l) as [l1|e]; cbn [bind]; intros H; [|discriminate H].
  exfalso. exact (insert_nonempty x l1 [] H eq_refl).
Qed.

Lemma sorted_reverse_empty tags : sorted_reverse tags = Ok [] -> tags = [].
Proof.
  unfold sorted_reverse.
  destruct (mapM Semver.parse tags) as [keys|e] eqn:K; cbn [bind];
    [|intros H; discriminate H].
  destruct (sort_asc (rev (combine keys tags))) as [l|e] eqn:S; cbn [bind];
    intros H; [|discriminate H].
  injection H as H. apply map_eq_nil in H.
  assert (L : l = []) by (rewrite <- (rev_involutive l), H; reflexivity).
  subst l. apply sort_asc_empty in S.
  assert (Cn : combine keys tags = [])
    by (rewrite <- (rev_involutive (combine keys tags)), S; reflexivity).
  destruct (mapM_ok _ _ _ K) as (Len & _).
  destruct tags as [|t tags]; [reflexivity|].
  destruct keys as [|k keys]; [discriminate Len|discriminate Cn].
Qed.

Lemma highest_none r pattern re :
  compile pattern = Some re ->
  find_tag_with_pattern r pattern = Ok None ->
  forall t, In t r -> search_re re t = None.
Proof.
  intros C. unfold find_tag_with_pattern.
  rewrite (select_spec pattern re (repo_tags r) C). cbn [bind].
  destruct (sorted_reverse
              (map strip (filter (fun t => truthy (search_re re t)) (repo_tags r))))
    as [[|d out]|e] eqn:S; cbn [bind]; intros H; [|discriminate H|discriminate H].
  apply sorted_reverse_empty in S. apply map_eq_nil in S.
  intros t I. destruct (search_re re t) as [mo|] eqn:Q; [|reflexivity].
  exfalso.
  assert (J : In t (filter (fun t => truthy (search_re re t)) (repo_tags r)))
    by (apply filter_In; split; [apply repo_tags_in; exact I|rewrite Q; reflexivity]).
  rewrite S in J. destruct J.
Qed.

(** The name of the tag that a successful [increment_prerelease_tag] has
    created. *)
Lemma advance_name r tag ch major_bump v r' :
  channel ch = true ->
  increment_prerelease_tag r tag ch major_bump = Ok (v, r') ->
  exists M m p c n, channel c = true /\ name_of v = ptag M m p c n.
Proof.
  intros C H.
  assert (First : tag = None \/ tag = Some [] ->
                  exists M m p c n, channel c = true /\ name_of v = ptag M m p c n).
  { intros T. rewrite (advance_none r tag ch major_bump T) in H.
    apply created_fresh in H as (-> & _ & _).
    exists 0%N, 1%N, 0%N, ch, 1%N. split; [exact C|]. cbn [name_of]. apply first_seed. }
  destruct tag as [[|x tl]|]; [apply First; right; reflexivity| |apply First; left; reflexivity].
  destruct (matches PRERELEASE (x :: tl)) eqn:Hm.
  - destruct (advance_cases r _ ch major_bump v r' Hm H)
      as (M & m & p & c & n & Cc & _ & [V|V]); rewrite V; cbn [name_of].
    + destruct major_bump.
      * exists (M + 1)%N, 0%N, 0%N, ch, 1%N. split; [exact C|]. apply seed_ptag.
      * exists M, (m + 1)%N, 0%N, ch, 1%N. split; [exact C|]. apply seed_ptag.
    + exists M, m, p, c, (n + 1)%N. split; [exact Cc|]. apply (to_str_pre M m p c (n + 1) Cc).
  - assert (R : increment_prerelease_tag r (Some (x :: tl)) ch major_bump = Raise ValueError)
      by (apply advance_reject; [discriminate|exact Hm]).
    pose proof (eq_trans (eq_sym R) H) as Q. discriminate Q.
Qed.

(** The highest tag of a channel, by its numbers. *)
Lemma highest_channel_key r ch d :
  channel ch = true ->
  highest_of (channel_tag ch) r (Some d) ->
  exists M m p n,
    d = ptag M m p ch n /\ In d r
    /\ forall M' m' p' n',
         In (ptag M' m' p' ch n') r -> lex_lt [M; m; p; n] [M'; m'; p'; n'] = false.
Proof.
  intros C (I & (M & m & p & n & ->) & v & Pv & Hmax). exists M, m, p, n.
  split; [reflexivity|]. split; [exact I|]. intros M' m' p' n' I'.
  assert (Ev : v = Semver.MkVersion M m p (Some (ch ++ "." ++ dec n)) None)
    by (pose proof (parse_ptag M m p ch n C) as Q; congruence).
  destruct (Hmax (ptag M' m' p' ch n') _ I'
              (ex_intro _ M' (ex_intro _ m' (ex_intro _ p' (ex_intro _ n' eq_refl))))
              (parse_ptag M' m' p' ch n' C)) as [_ L].
  rewrite Ev, (rank_ptag M m p ch n C), (rank_ptag M' m' p' ch n' C) in L. exact L.
Qed.

Lemma current_tag_channel r ch :
  get_current_tag r ch false
  = find_tag_with_pattern r ("^(\d+)\.(\d+)\.(\d+)-" ++ ch ++ "\.(\d+)$").
Proof. reflexivity. Qed.

(** A tag above the highest tag of its channel, once added, is the highest
    one. *)
Lemma current_after_add r ch M m p n M1 m1 p1 n1 :
  channel ch = true -> wellformed r = true ->
  get_current_tag r ch false = Ok (Some (ptag M m p ch n)) ->
  lex_lt [M; m; p; n] [M1; m1; p1; n1] = true ->
  get_current_tag (r ++ [ptag M1 m1 p1 ch n1]) ch false = Ok (Some (ptag M1 m1 p1 ch n1)).
Proof.
  intros C W G Lt.
  destruct (highest_channel r ch C W) as (out & G' & H).
  rewrite current_tag_channel in G. rewrite G in G'. injection G' as <-.
  destruct (highest_channel_key r ch _ C H) as (M0 & m0 & p0 & n0 & E & _ & Hmax).
  apply (ptag_inj M m p ch n M0 m0 p0 ch n0 C C) in E as (<- & <- & <- & _ & <-).
  assert (W' : wellformed (r ++ [ptag M1 m1 p1 ch n1]) = true)
    by (apply wellformed_app; [exact W|apply canonical_ptag; exact C]).
  destruct (highest_channel _ ch C W') as ([d|] & G2 & H2).
  - rewrite current_tag_channel, G2. f_equal. f_equal.
    destruct (highest_channel_key _ ch d C H2) as (M' & m' & p' & n' & -> & I' & Hmax').
    apply in_app_or in I' as [I'|[I'|[]]]; [|symmetry; exact I']. exfalso.
    pose proof (Hmax M' m' p' n' I') as A.
    assert (B : lex_lt [M'; m'; p'; n'] [M1; m1; p1; n1] = false).
    { apply Hmax'. apply in_or_app. right. left. reflexivity. }
    rewrite (below_ntrans _ _ _ A B) in Lt. discriminate Lt.
  - exfalso. apply (H2 (ptag M1 m1 p1 ch n1)).
    + apply in_or_app. right. left. reflexivity.
    + exists M1, m1, p1, n1. reflexivity.
Qed.

Lemma selects_spec pattern re t :
  compile pattern = Some re -> selects pattern t = truthy (search_re re t).
Proof.
  intros C. unfold selects, search, with_pattern. rewrite C.
  destruct (search_re re t); reflexivity.
Qed.

Lemma mapM_each {A B} (f : A -> result B) l keys t :
  mapM f l = Ok keys -> In t l -> exists k, f t = Ok k.
Proof.
  intros H I. destruct (mapM_ok f l keys H) as (L & F).
  destruct (combine_in_r keys l t L I) as (k & Ik). exists k. exact (F k t Ik).
Qed.

(** ** The highest of the tags that a pattern selects *)

Section Selected.
Variable P : Semver.Version -> Prop.
Variable pattern : str.
Variable l : list seg.
Hypothesis lt_key :
  forall a b, P a -> P b -> Semver.lt a b = Ok (lex_lt (rank a) (rank b)).
Hypothesis compiled : compile pattern = Some (chain_re l).
Hypothesis ok : chain_ok l = true.
Hypothesis cand :
  forall t v, accepts l t = true -> Semver.parse (strip t) = Ok v -> P v.

Lemma selects_accepts t : selects pattern t = accepts l t.
Proof. rewrite (selects_spec pattern _ t compiled). apply (chain_search l t ok). Qed.

Lemma selected_in r d :
  In d (map strip (filter (fun t => truthy (search_re (chain_re l) t)) (repo_tags r)))
  <-> exists t, In t r /\ selects pattern t = true /\ d = strip t.
Proof.
  rewrite in_map_iff. split.
  - intros (t & S & I). apply filter_In in I as [I A].
    apply (proj1 (repo_tags_in r t)) in I. exists t.
    rewrite (selects_spec pattern _ t compiled). auto.
  - intros (t & I & A & ->). exists t. split; [reflexivity|].
    apply filter_In. split; [apply repo_tags_in; exact I|].
    rewrite <- (selects_spec pattern _ t compiled). exact A.
Qed.

(** A lookup that returns has read every selected tag as a version; what
    it returns is above or beside each of them. *)
Lemma highest_of_selected r out :
  find_tag_with_pattern r pattern = Ok out ->
  match out with
  | None => forall t, In t r -> selects pattern t = false
  | Some d =>
      (exists t, In t r /\ selects pattern t = true /\ d = strip t)
      /\ exists v, Semver.parse d = Ok v
                   /\ forall u, In u r -> selects pattern u = true ->
                                exists w, Semver.parse (strip u) = Ok w
                                          /\ Semver.lt v w = Ok false
  end.
Proof.
  unfold find_tag_with_pattern.
  rewrite (select_spec pattern _ (repo_tags r) compiled). cbn [bind].
  destruct (sorted_reverse
              (map strip (filter (fun t => truthy (search_re (chain_re l) t)) (repo_tags r))))
    as [outl|e] eqn:S; cbn [bind]; intros H; [|discriminate H].
  injection H as <-.
  assert (Parsed : forall c,
    In c (map strip (filter (fun t => truthy (search_re (chain_re l) t)) (repo_tags r))) ->
    exists v, Semver.parse c = Ok v /\ P v).
  { intros c I. pose proof S as S'. unfold sorted_reverse in S'.
    destruct (mapM Semver.parse
                (map strip (filter (fun t => truthy (search_re (chain_re l) t)) (repo_tags r))))
      as [keys|e] eqn:K; [|discriminate S'].
    destruct (mapM_each _ _ _ c K I) as (v & Pv). exists v. split; [exact Pv|].
    apply selected_in in I as (t & _ & A & E). rewrite selects_accepts in A.
    rewrite E in Pv. exact (cand t v A Pv). }
  destruct (sorted_reverse_ranked P rank lt_key _ Parsed) as (out2 & S2 & Hin & Hh).
  rewrite S in S2. injection S2 as <-.
  destruct outl as [|d rest].
  - intros t I. destruct (selects pattern t) eqn:A; [|reflexivity]. exfalso.
    assert (J : In (strip t)
                  (map strip (filter (fun t => truthy (search_re (chain_re l) t))
                                (repo_tags r))))
      by (apply selected_in; exists t; auto).
    rewrite Hh in J. destruct J.
  - destruct Hh as (v & Pv & Hmax). split.
    + apply selected_in. apply Hin. left. reflexivity.
    + exists v. split; [exact Pv|]. intros u I A.
      assert (J : In (strip u)
                    (map strip (filter (fun t => truthy (search_re (chain_re l) t))
                                  (repo_tags r))))
        by (apply selected_in; exists u; auto).
      destruct (Parsed _ J) as (w & Pw & Qw). exists w. split; [exact Pw|].
      assert (Jd : In d (map strip (filter (fun t => truthy (search_re (chain_re l) t))
                                      (repo_tags r))))
        by (apply Hin; left; reflexivity).
      destruct (Parsed _ Jd) as (v' & Pv' & Qv).
      assert (v' = v) by congruence. subst v'.
      rewrite (lt_key v w Qv Qw), (Hmax (strip u) w J Pw). reflexivity.
Qed.

(** A lookup returns as soon as every selected tag is a version. *)
Lemma selected_total r :
  (forall t, In t r -> selects pattern t = true -> exists v, Semver.parse (strip t) = Ok v) ->
  exists out, find_tag_with_pattern r pattern = Ok out.
Proof.
  intros H. unfold find_tag_with_pattern.
  rewrite (select_spec pattern _ (repo_tags r) compiled). cbn [bind].
  destruct (sorted_reverse_ranked P rank lt_key
              (map strip (filter (fun t => truthy (search_re (chain_re l) t)) (repo_tags r))))
    as (out & S & _ & _).
  { intros c I. apply selected_in in I as (t & I & A & ->).
    destruct (H t I A) as (v & Pv). exists v. split; [exact Pv|].
    rewrite selects_accepts in A. exact (cand t v A Pv). }
  rewrite S. cbn [bind]. eexists. reflexivity.
Qed.

End Selected.

(** ** The tags that the production grammar selects *)

Lemma production_selected t v :
  accepts PROD_CHAIN t = true -> Semver.parse (strip t) = Ok v ->
  plain_version v /\ exists M m p, strip t = base M m p.
Proof.
  intros A P. change (accepts_ false PROD_CHAIN t = true) in A.
  apply prod_shape in A as (x & y & z & e & Hx & Hy & Hz & E & He).
  destruct (prod_text_strip x y z Hx Hy Hz) as [S1 S2].
  assert (D : strip t = prod_text x y z).
  { apply accepts_nil in He as [->| ->]; rewrite E.
    - rewrite app_nil_r. exact S1.
    - exact S2. }
  rewrite D in P. rewrite D. unfold prod_text in P.
  rewrite parse_prod_shape in P by (apply Hx || apply Hy || apply Hz).
  destruct (canon x) eqn:Cx; [|discriminate P].
  destruct (canon y) eqn:Cy; [|discriminate P].
  destruct (canon z) eqn:Cz; [|discriminate P].
  destruct (canon_is_dec x Cx) as (M & Ex & _).
  destruct (canon_is_dec y Cy) as (m & Ey & _).
  destruct (canon_is_dec z Cz) as (p & Ez & _).
  cbn [andb] in P. rewrite Ex, Ey, Ez, version3_dec in P. injection P as <-.
  split; [exists M, m, p; reflexivity|].
  exists M, m, p. rewrite Ex, Ey, Ez. unfold base, prod_text. flat. reflexivity.
Qed.

Lemma selects_production t : selects PRODUCTION t = accepts PROD_CHAIN t.
Proof. exact (selects_accepts PRODUCTION PROD_CHAIN compile_production eq_refl t). Qed.

(** ** The tags that the grammar of a channel selects *)

Lemma pre_text_strip x y z ch n : digits x -> digits n ->
  strip (pre_text x y z ch n) = pre_text x y z ch n
  /\ strip (pre_text x y z ch n ++ [newline]) = pre_text x y z ch n.
Proof.
  intros Hx Hn. unfold pre_text.
  replace (x ++ "."%char :: y ++ "."%char :: z ++ "-"%char :: ch ++ "."%char :: n)
    with (x ++ ("."%char :: y ++ "."%char :: z ++ "-"%char :: ch ++ ["."%char]) ++ n)
    by (flat; reflexivity).
  split; [apply (strip_edges x _ n Hx Hn)|apply (strip_edges_newline x _ n Hx Hn)].
Qed.

Lemma channel_selected ch t v :
  channel ch = true ->
  accepts (CHANNEL_CHAIN ch) t = true -> Semver.parse (strip t) = Ok v ->
  exists M m p n,
    strip t = ptag M m p ch n
    /\ v = Semver.MkVersion M m p (Some (ch ++ "." ++ dec n)) None.
Proof.
  intros C A P. pose proof C as Cl. apply channel_spec in Cl.
  change (accepts_ false (CHANNEL_CHAIN ch) t = true) in A.
  apply (channel_shape false ch t Cl) in A
    as (x & y & z & n & e & Hx & Hy & Hz & Hn & E & He).
  destruct (pre_text_strip x y z ch n Hx Hn) as [S1 S2].
  assert (D : strip t = pre_text x y z ch n).
  { apply accepts_nil in He as [->| ->]; rewrite E.
    - rewrite app_nil_r. exact S1.
    - exact S2. }
  rewrite D in P. rewrite D.
  destruct (pre_text_canonical x y z ch n v Hx Hy Hz Cl Hn P) as (M & m & p & k & Q).
  exists M, m, p, k. split; [exact Q|].
  rewrite Q, (parse_ptag M m p ch k C) in P. injection P as <-. reflexivity.
Qed.

Lemma selects_channel ch t :
  channel ch = true -> selects (CHANNEL_PATTERN ch) t = accepts (CHANNEL_CHAIN ch) t.
Proof.
  intros C.
  exact (selects_accepts (CHANNEL_PATTERN ch) (CHANNEL_CHAIN ch)
           (channel_pattern ch C) (chain_ok_channel ch) t).
Qed.

Lemma channel_cand ch :
  channel ch = true ->
  forall t v, accepts (CHANNEL_CHAIN ch) t = true -> Semver.parse (strip t) = Ok v ->
              channel_version ch v.
Proof.
  intros C t v A P.
  destruct (channel_selected ch t v C A P) as (M & m & p & n & _ & ->).
  exists M, m, p, n. reflexivity.
Qed.

Lemma production_cand :
  forall t v, accepts PROD_CHAIN t = true -> Semver.parse (strip t) = Ok v ->
              plain_version v.
Proof. intros t v A P. exact (proj1 (production_selected t v A P)). Qed.



(** What [get_current_tag] has handed back for a channel, when it is a
    tag of the repository: a tag of the channel that is lower than no tag
    that the grammar of the channel selects. *)
Lemma current_of_channel r ch d :
  channel ch = true ->
  get_current_tag r ch false = Ok (Some d) ->
  exists M m p n,
    d = ptag M m p ch n
    /\ forall u, In u r -> selects (CHANNEL_PATTERN ch) u = true ->
                 exists w, Semver.parse (strip u) = Ok w
                           /\ Semver.lt (Semver.MkVersion M m p (Some (ch ++ "." ++ dec n)) None) w
                              = Ok false.
Proof.
  intros C G. rewrite current_tag_channel in G.
  pose proof (highest_of_selected (channel_version ch) (CHANNEL_PATTERN ch) (CHANNEL_CHAIN ch)
                (fun a b => lt_channel ch a b C) (channel_pattern ch C) (chain_ok_channel ch)
                (channel_cand ch C) r (Some d) G) as H.
  destruct H as ((t & I & A & E) & v & Pv & Hmax).
  rewrite (selects_channel ch t C) in A. rewrite E in Pv.
  destruct (channel_selected ch t v C A Pv) as (M & m & p & n & S & ->).
  exists M, m, p, n. split; [rewrite E; exact S|exact Hmax].
Qed.

(** ** The backend after one more lifecycle tag *)

Lemma has_tag_app (r : repo) (x name : str) :
  x <> name -> has_tag (r ++ [x]) name = has_tag r name.
Proof.
  intros N. unfold has_tag. rewrite existsb_app. cbn [existsb].
  assert (E : str_eqb name x = false).
  { apply str_eqb_neq. intros K. apply N. symmetry. exact K. }
  rewrite E. rewrite !orb_false_r. reflexivity.
Qed.

Lemma clashes_app (r : repo) (x name : str) :
  ~ In "/"%char x -> ~ In "/"%char name -> clashes (r ++ [x]) name = clashes r name.
Proof.
  intros Hx Hn. unfold clashes. rewrite existsb_app. cbn [existsb].
  assert (E1 : is_prefix (name ++ "/") x = false).
  { destruct (is_prefix (name ++ "/") x) eqn:E; [|reflexivity]. exfalso. apply Hx.
    apply (is_prefix_in _ _ "/"%char E). apply in_or_app. right. left. reflexivity. }
  assert (E2 : is_prefix (x ++ "/") name = false).
  { destruct (is_prefix (x ++ "/") name) eqn:E; [|reflexivity]. exfalso. apply Hn.
    apply (is_prefix_in _ _ "/"%char E). apply in_or_app. right. left. reflexivity. }
  rewrite E1, E2. rewrite !orb_false_r. reflexivity.
Qed.

(** ** [init_new_rc] and [create_prod_tag], one after the other *)

(** The tag of a channel that is in the repository and that no selected
    tag is above is the one that [get_current_tag] returns. *)
Lemma current_highest r ch M m p n :
  channel ch = true ->
  In (ptag M m p ch n) r ->
  (forall u, In u r -> selects (CHANNEL_PATTERN ch) u = true ->
             exists w, Semver.parse (strip u) = Ok w
                       /\ Semver.lt (Semver.MkVersion M m p (Some (ch ++ "." ++ dec n)) None) w
                          = Ok false) ->
  get_current_tag r ch false = Ok (Some (ptag M m p ch n)).
Proof.
  intros C I Hmax. rewrite current_tag_channel.
  assert (Sd : selects (CHANNEL_PATTERN ch) (ptag M m p ch n) = true).
  { rewrite (selects_channel ch _ C).
    apply (proj2 (sel_channel ch _ C (canonical_ptag M m p ch n C))).
    exists M, m, p, n. reflexivity. }
  destruct (selected_total (channel_version ch) (CHANNEL_PATTERN ch) (CHANNEL_CHAIN ch)
              (fun a b => lt_channel ch a b C) (channel_pattern ch C) (chain_ok_channel ch)
              (channel_cand ch C) r) as (out & G).
  { intros t It A. destruct (Hmax t It A) as (w & Pw & _). eauto. }
  pose proof (highest_of_selected (channel_version ch) (CHANNEL_PATTERN ch) (CHANNEL_CHAIN ch)
                (fun a b => lt_channel ch a b C) (channel_pattern ch C) (chain_ok_channel ch)
                (channel_cand ch C) r out G) as H.
  refine (eq_trans G _). destruct out as [d|].
  - destruct H as ((t & It & A & E) & v & Pv & Hd).
    destruct (Hd _ I Sd) as (w & Pw & L1).
    rewrite (shaped_strip _ (shaped_ptag M m p ch n C)), (parse_ptag M m p ch n C) in Pw.
    injection Pw as <-.
    destruct (Hmax t It A) as (w & Pw & L2). rewrite <- E in Pw.
    assert (w = v) by congruence. subst w.
    pose proof A as A'. rewrite (selects_channel ch t C) in A'. rewrite E in Pv.
    destruct (channel_selected ch t v C A' Pv) as (M' & m' & p' & n' & S & V).
    assert (Cv : channel_version ch v) by (exists M', m', p', n'; exact V).
    assert (Cd : channel_version ch (Semver.MkVersion M m p (Some (ch ++ "." ++ dec n)) None))
      by (exists M, m, p, n; reflexivity).
    pose proof (eq_trans (eq_sym (lt_channel ch _ _ C Cv Cd)) L1) as K1.
    pose proof (eq_trans (eq_sym (lt_channel ch _ _ C Cd Cv)) L2) as K2.
    clear L1 L2. injection K1 as L1. injection K2 as L2.
    pose proof (lex_lt_antisym _ _ L1 L2) as R.
    pose proof (eq_trans (eq_sym (rank_ptag M' m' p' ch n' C))
                  (eq_trans (f_equal rank (eq_sym V))
                     (eq_trans R (rank_ptag M m p ch n C)))) as Q.
    injection Q as -> -> -> ->. rewrite E, S. reflexivity.
  - exfalso. pose proof (H _ I) as K. rewrite Sd in K. discriminate K.
Qed.

Lemma init_new_rc_current r ch M m p n :
  channel ch = true ->
  get_current_tag r ch false = Ok (Some (ptag M m p ch n)) ->
  In (ptag M m p ch n) r ->
  init_new_rc r ch
  = if has_tag r (base M m p ++ "-rc.1") || clashes r (base M m p ++ "-rc.1")
    then Raise GitCommandError
    else Ok (Some (base M m p ++ "-rc.1"), r ++ [base M m p ++ "-rc.1"]).
Proof.
  intros C G I. unfold init_new_rc.
  replace (get_current_tag r ch false)
    with (Ok (Some (ptag M m p ch n)) : result (option str)) by (symmetry; exact G).
  cbn [bind]. destruct (ptag_cons M m p ch n) as (x & t & E). rewrite E. rewrite <- E.
  rewrite (parse_ptag M m p ch n C). cbn [bind].
  rewrite (commit_present r _ I). cbn [bind].
  rewrite base_of_base. cbn [Semver.major Semver.minor Semver.patch].
  rewrite (create_tag_outcome r (base M m p ++ "-rc.1")
             (shaped_ptag M m p "rc" 1 channel_rc)).
  destruct (has_tag r (base M m p ++ "-rc.1") || clashes r (base M m p ++ "-rc.1"));
    reflexivity.
Qed.

Lemma created_after (r : repo) (x : str) (t : tagval) :
  shaped x = true -> shaped (name_of t) = true -> x <> name_of t ->
  created (r ++ [x]) t
  = if has_tag r (name_of t) || clashes r (name_of t)
    then Raise GitCommandError
    else Ok (t, (r ++ [x]) ++ [name_of t]).
Proof.
  intros Hx Ht N. rewrite (created_outcome (r ++ [x]) t Ht).
  rewrite (has_tag_app r x (name_of t) N).
  rewrite (clashes_app r x (name_of t) (shaped_no_slash x Hx) (shaped_no_slash _ Ht)).
  reflexivity.
Qed.

Lemma promote_after_init r M m p :
  create_prod_tag (r ++ [base M m p ++ "-rc.1"]) (base M m p ++ "-rc.1")
  = if has_tag r (base M m p) || clashes r (base M m p)
    then Raise GitCommandError
    else Ok (TStr (base M m p), (r ++ [base M m p ++ "-rc.1"]) ++ [base M m p]).
Proof.
  refine (eq_trans (promote_first_rc (r ++ [base M m p ++ "-rc.1"]) M m p _) _).
  - apply in_or_app. right. left. reflexivity.
  - apply (created_after r (base M m p ++ "-rc.1") (TStr (base M m p))).
    + apply (shaped_ptag M m p "rc" 1 channel_rc).
    + apply shaped_base.
    + intros K. symmetry in K. exact (base_not_rc M m p K).
Qed.

Lemma promote_after_patch r M m p :
  create_prod_tag (r ++ [base M m p ++ "-patch.1"]) (base M m p ++ "-patch.1")
  = if has_tag r (base M m (p + 1)) || clashes r (base M m (p + 1))
    then Raise GitCommandError
    else Ok (TVer (Semver.MkVersion M m (p + 1) None None),
             (r ++ [base M m p ++ "-patch.1"]) ++ [base M m (p + 1)]).
Proof.
  refine (eq_trans (create_prod_tag_ptag _ M m p "patch" 1 (or_intror eq_refl)) _).
  rewrite patch_is_patch. unfold promoted.
  rewrite commit_present by (apply in_or_app; right; left; reflexivity).
  cbn [bind].
  pose proof (created_after r (base M m p ++ "-patch.1")
                (TVer (Semver.MkVersion M m (p + 1) None None))) as Q.
  cbn [name_of] in Q. rewrite to_str_plain in Q. apply Q.
  - apply (shaped_ptag M m p "patch" 1 channel_patch).
  - apply shaped_base.
  - intros K. symmetry in K.
    exact (base_not_ptag M m (p + 1) M m p "patch" 1 channel_patch K).
Qed.

(** What [get_current_tag] has handed back as the production tag: a tag
    [X.Y.Z] that is lower than no tag that the production grammar
    selects. *)
Lemma current_of_production r d :
  get_current_tag r "dev" true = Ok (Some d) ->
  exists M m p,
    d = base M m p
    /\ forall u, In u r -> selects PRODUCTION u = true ->
                 exists w, Semver.parse (strip u) = Ok w
                           /\ Semver.lt (Semver.MkVersion M m p None None) w = Ok false.
Proof.
  intros G. change (find_tag_with_pattern r PRODUCTION = Ok (Some d)) in G.
  pose proof (highest_of_selected plain_version PRODUCTION PROD_CHAIN lt_plain
                compile_production eq_refl production_cand r (Some d) G) as H.
  destruct H as ((t & I & A & E) & v & Pv & Hmax).
  rewrite selects_production in A. rewrite E in Pv.
  destruct (production_selected t v A Pv) as (_ & M & m & p & S).
  exists M, m, p. split; [rewrite E; exact S|].
  assert (Ev : v = Semver.MkVersion M m p None None)
    by (rewrite S in Pv; pose proof (parse_base M m p) as Q; congruence).
  rewrite <- Ev. exact Hmax.
Qed.

(** The enumeration of the tags after a creation. *)
Lemma tags_after (r : repo) (x : str) t :
  In t (repo_tags (r ++ [x])) <-> In t (repo_tags r) \/ t = x.
Proof.
  rewrite !repo_tags_in, in_app_iff. cbn [In]. split.
  - intros [H|[H|[]]]; [left; exact H|right; symmetry; exact H].
  - intros [H|H]; [left; exact H|right; left; symmetry; exact H].
Qed.

(* ================================================================== *)
(** * The properties of the lifecycle *)

(** C1, as the specification states it, fails: a tag of the grammar
    [^\d+\.\d+\.\d+-[a-z]+\.\d+$] with a leading zero is refused with the
    format error; neither the seed nor the bumped tag comes back. *)
Lemma advance_leading_zero :
  matches PRERELEASE "01.0.0-dev.5" = true
  /\ increment_prerelease_tag [] (Some "01.0.0-dev.5") "dev" false = Raise ValueError
  /\ increment_prerelease_tag ["01.0.0-rc.1"] (Some "01.0.0-dev.5") "dev" true
     = Raise ValueError.
Proof. repeat split; vm_compute; reflexivity. Qed.

(** C1 (amended): for every tag ["X.Y.Z-channel.N"] of the prerelease
    grammar whose numbers are written without leading zeros,
    [increment_prerelease_tag] looks for the tag ["X.Y.Z-rc.1"]. When the
    repository has it, the seed ["{newBase}-{prerelease_tag}.1"] is created
    and handed back, [newBase] being ["(X+1).0.0"] under [major_bump] and
    ["X.(Y+1).0"] otherwise. When a repository of lifecycle tags does not
    have it, the tag with its ordinal bumped, ["X.Y.Z-channel.(N+1)"], is
    created and handed back. In particular ["1.0.0-dev.5"] with
    [major_bump] in a repository that has ["1.0.0-rc.1"] gives
    ["2.0.0-dev.1"]. *)
Theorem advance_canonical :
  (forall r M m p ch n chan major_bump,
      channel ch = true -> In (base M m p ++ "-rc.1") r ->
      increment_prerelease_tag r (Some (ptag M m p ch n)) chan major_bump
      = created r (TStr ((if major_bump then base (M + 1) 0 0 else base M (m + 1) 0)
                         ++ "-" ++ chan ++ ".1")))
  /\ (forall r M m p ch n chan major_bump,
      channel ch = true -> lifecycle r = true -> ~ In (base M m p ++ "-rc.1") r ->
      increment_prerelease_tag r (Some (ptag M m p ch n)) chan major_bump
      = created r (TVer (Semver.MkVersion M m p (Some (ch ++ "." ++ dec (n + 1))) None))
      /\ name_of (TVer (Semver.MkVersion M m p (Some (ch ++ "." ++ dec (n + 1))) None))
         = ptag M m p ch (n + 1))
  /\ increment_prerelease_tag ["1.0.0-dev.5"; "1.0.0-rc.1"] (Some "1.0.0-dev.5") "dev" true
     = Ok (TStr "2.0.0-dev.1", ["1.0.0-dev.5"; "1.0.0-rc.1"; "2.0.0-dev.1"]).
Proof.
  split; [|split].
  - intros r M m p ch n chan major_bump H I.
    rewrite (advance_ptag r M m p ch n chan major_bump H).
    rewrite (rc_name M m p) in I |- *.
    rewrite (shaped_present r _ (shaped_ptag M m p "rc" 1 channel_rc) I).
    reflexivity.
  - intros r M m p ch n chan major_bump H L I. split.
    + rewrite (advance_ptag r M m p ch n chan major_bump H).
      rewrite (rc_name M m p) in I |- *.
      rewrite (find_tag_exact r _ L (shaped_ptag M m p "rc" 1 channel_rc)).
      rewrite (has_tag_absent r _ I). reflexivity.
    + apply (to_str_pre M m p ch (n + 1) H).
  - vm_compute. reflexivity.
Qed.

Lemma advance_canonical_witness :
  increment_prerelease_tag ["3.1.4-rc.1"] (Some (ptag 3 1 4 "dev" 9)) "dev" false
  = created ["3.1.4-rc.1"] (TStr (base 3 (1 + 1) 0 ++ "-" ++ "dev" ++ ".1"))
  /\ increment_prerelease_tag ["3.1.4-dev.9"] (Some (ptag 3 1 4 "dev" 9)) "dev" false
     = created ["3.1.4-dev.9"]
         (TVer (Semver.MkVersion 3 1 4 (Some ("dev" ++ "." ++ dec (9 + 1))) None)).
Proof.
  split.
  - apply (proj1 advance_canonical ["3.1.4-rc.1"] 3 1 4 "dev" 9 "dev" false)%N.
    + reflexivity.
    + left. reflexivity.
  - apply (proj1 (proj2 advance_canonical) ["3.1.4-dev.9"] 3 1 4 "dev" 9 "dev" false)%N.
    + reflexivity.
    + vm_compute. reflexivity.
    + intros [E|[]]. discriminate E.
Defined.

(** C2, as the specification states it, fails: a tag of the grammar
    [^\d+\.\d+\.\d+-(rc|patch)\.\d+$] with a leading zero is refused with
    the format error instead of being promoted. *)
Lemma promote_leading_zero :
  matches RC_OR_PATCH "01.0.0-rc.1" = true
  /\ create_prod_tag ["01.0.0-rc.1"] "01.0.0-rc.1" = Raise ValueError.
Proof. split; vm_compute; reflexivity. Qed.

(** C2 (amended): for every tag of the grammar
    [^\d+\.\d+\.\d+-(rc|patch)\.\d+$] whose numbers are written without
    leading zeros, [create_prod_tag] resolves the tag, creates and hands
    back the production version: [bump_patch] of the base when the channel
    is [patch] (its text is ["X.Y.(Z+1)"]), the base ["X.Y.Z"] itself when
    the channel is [rc]. Every text outside the grammar is a format error.
    In particular ["1.0.0-patch.1"] is promoted to ["1.0.1"]. *)
Theorem promote_canonical :
  (forall r M m p n,
      create_prod_tag r (ptag M m p "patch" n)
      = promoted r (ptag M m p "patch" n) (TVer (Semver.MkVersion M m (p + 1) None None))
      /\ name_of (TVer (Semver.MkVersion M m (p + 1) None None)) = base M m (p + 1)
      /\ create_prod_tag r (ptag M m p "rc" n)
         = promoted r (ptag M m p "rc" n) (TStr (base M m p)))
  /\ (forall r tag, matches RC_OR_PATCH tag = false -> create_prod_tag r tag = Raise ValueError)
  /\ create_prod_tag ["1.0.0"; "1.0.0-patch.1"] "1.0.0-patch.1"
     = Ok (TVer (Semver.MkVersion 1 0 1 None None), ["1.0.0"; "1.0.0-patch.1"; "1.0.1"]).
Proof.
  split; [|split].
  - intros r M m p n. split; [|split].
    + apply (create_prod_tag_ptag r M m p "patch" n). now right.
    + apply to_str_plain.
    + apply (create_prod_tag_ptag r M m p "rc" n). now left.
  - intros r tag. apply create_prod_tag_reject.
  - vm_compute. reflexivity.
Qed.

Lemma promote_canonical_witness :
  create_prod_tag ["2.3.4-rc.7"] (ptag 2 3 4 "rc" 7)
  = promoted ["2.3.4-rc.7"] (ptag 2 3 4 "rc" 7) (TStr (base 2 3 4))
  /\ create_prod_tag [] "1.0.0-dev.1" = Raise ValueError.
Proof.
  split.
  - apply (proj1 promote_canonical).
  - apply (proj1 (proj2 promote_canonical)). vm_compute. reflexivity.
Defined.

(** C3: for every base of the grammar [X.Y.Z] that names a tag of the
    repository, [increment_rc_patch] with the channel ["rc"] raises
    [InvalidTagCreation] and so creates nothing; hence once
    [create_prod_tag] has created the production tag [P], every later
    repository, which still has [P], refuses the channel ["rc"] for [P]. *)
Theorem rc_after_production :
  (forall r tag,
      matches PRODUCTION tag = true -> In tag r ->
      increment_rc_patch r tag "rc" = Raise (InvalidTagCreation RC_EXISTS))
  /\ (forall r tag v r' later,
      create_prod_tag r tag = Ok (v, r') -> incl r' later ->
      In (name_of v) r'
      /\ increment_rc_patch later (name_of v) "rc" = Raise (InvalidTagCreation RC_EXISTS)).
Proof.
  split.
  - apply increment_rc_blocked.
  - intros r tag v r' later H I.
    destruct (create_prod_tag_ok r tag v r' H) as ((M & m & p & E) & R).
    assert (J : In (name_of v) r') by (rewrite R; apply in_or_app; right; left; reflexivity).
    split; [exact J|].
    apply increment_rc_blocked; [|exact (I _ J)].
    rewrite E. apply matches_base.
Qed.

Lemma rc_after_production_witness :
  increment_rc_patch ["1.0.0-rc.1"; "1.0.0"] "1.0.0" "rc"
  = Raise (InvalidTagCreation RC_EXISTS)
  /\ increment_rc_patch ["1.0.0-rc.1"; "1.0.0"; "1.1.0-dev.1"] (name_of (TStr "1.0.0")) "rc"
     = Raise (InvalidTagCreation RC_EXISTS).
Proof.
  split.
  - apply (proj1 rc_after_production).
    + vm_compute. reflexivity.
    + right. left. reflexivity.
  - apply (proj2 rc_after_production ["1.0.0-rc.1"] "1.0.0-rc.1" (TStr "1.0.0")
             ["1.0.0-rc.1"; "1.0.0"] ["1.0.0-rc.1"; "1.0.0"; "1.1.0-dev.1"]).
    + vm_compute. reflexivity.
    + intros x [E|[E|[]]]; simpl; auto.
Defined.

(** C4, as the specification states it, fails: for the base ["01.0.0"] of
    the grammar [X.Y.Z], with its production tag in the repository,
    [increment_rc_patch] in the channel [patch] ends in the format error of
    [semver]: no illegal transition, no bumped tag, no [None]. *)
Lemma patch_leading_zero :
  matches PRODUCTION "01.0.0" = true
  /\ has_tag ["01.0.0"] "01.0.0" = true
  /\ increment_rc_patch ["01.0.0"] "01.0.0" "patch" = Raise ValueError.
Proof. repeat split; vm_compute; reflexivity. Qed.

(** C4 (amended): in a repository of lifecycle tags written without
    leading zeros, for every base version [X.Y.Z] written without leading
    zeros, [increment_rc_patch] in the channel [patch] raises
    [InvalidTagCreation] when no tag is named [X.Y.Z] and when a tag is
    named [X.Y.(Z+1)], and in no other case: otherwise it returns [None]
    and creates nothing when the repository has no tag [X.Y.Z-patch.N], and
    else creates and returns [X.Y.Z-patch.(N+1)] for the highest [N] with a
    tag [X.Y.Z-patch.N]. *)
Theorem patch_increment_canonical r M m p :
  wellformed r = true ->
  (~ In (base M m p) r ->
   increment_rc_patch r (base M m p) "patch" = Raise (InvalidTagCreation NO_PRODUCTION))
  /\ (In (base M m p) r -> In (base M m (p + 1)) r ->
      increment_rc_patch r (base M m p) "patch" = Raise (InvalidTagCreation PATCH_SHIPPED))
  /\ (In (base M m p) r -> ~ In (base M m (p + 1)) r ->
      ((forall n, ~ In (ptag M m p "patch" n) r)
       /\ increment_rc_patch r (base M m p) "patch" = Ok (None, r))
      \/ (exists n,
             In (ptag M m p "patch" n) r
             /\ (forall n', In (ptag M m p "patch" n') r -> (n' <= n)%N)
             /\ increment_rc_patch r (base M m p) "patch"
                = Ok (Some (TVer (Semver.MkVersion M m p
                                    (Some ("patch" ++ "." ++ dec (n + 1))) None)),
                      r ++ [ptag M m p "patch" (n + 1)]))).
Proof.
  intros W. pose proof (wellformed_lifecycle r W) as L.
  split; [|split].
  - apply (increment_patch_missing r M m p L).
  - apply (increment_patch_shipped r M m p L).
  - intros I J.
    destruct (highest_family r M m p "patch" channel_patch W) as ([d|] & G & H).
    + right.
      destruct (highest_family_ordinal r M m p "patch" d channel_patch H)
        as (n & -> & In_n & Hmax).
      exists n. split; [exact In_n|]. split; [exact Hmax|].
      apply (increment_patch_found r M m p n L I J G).
      intros K. apply Hmax in K. lia.
    + left. split.
      * intros n K. apply (H _ K). exists n. reflexivity.
      * apply (increment_patch_none r M m p L I J G).
Qed.

Lemma patch_increment_canonical_witness :
  increment_rc_patch ["1.0.0-rc.1"] (base 1 0 0) "patch"
  = Raise (InvalidTagCreation NO_PRODUCTION)
  /\ increment_rc_patch ["1.0.0"; "1.0.1"] (base 1 0 0) "patch"
     = Raise (InvalidTagCreation PATCH_SHIPPED).
Proof.
  split.
  - apply (proj1 (patch_increment_canonical ["1.0.0-rc.1"] 1 0 0 eq_refl)).
    intros [E|[]]. discriminate E.
  - apply (proj1 (proj2 (patch_increment_canonical ["1.0.0"; "1.0.1"] 1 0 0 eq_refl))).
    + left. reflexivity.
    + right. left. reflexivity.
Defined.

(** C5: the round trip. Take a repository and a channel of lowercase
    letters in which [X.Y.Z-channel.N] is the highest tag of the channel:
    it is a tag of the repository, and every tag that the grammar of the
    channel selects is a version that it is not lower than. Then
    [get_current_tag] returns it; [init_new_rc] creates and returns
    ["X.Y.Z-rc.1"], failing with the error of the backend exactly when git
    refuses that name (it is taken, or it collides with a tag directory);
    and [create_prod_tag] on that release candidate, in the repository
    that [init_new_rc] left, creates and hands back the production tag
    [X.Y.Z], the base version of the tag of the channel, failing exactly
    when git refuses that name. Conversely, whenever [init_new_rc] returns
    a release candidate, the repository has such a highest tag of the
    channel, the release candidate is ["X.Y.Z-rc.1"] for its base version,
    and [create_prod_tag] on it goes as above. *)
Theorem rc_round_trip r ch :
  channel ch = true ->
  (forall M m p n,
      In (ptag M m p ch n) r ->
      (forall u, In u r ->
                 selects ("^(\d+)\.(\d+)\.(\d+)-" ++ ch ++ "\.(\d+)$") u = true ->
                 exists w,
                   Semver.parse (strip u) = Ok w
                   /\ Semver.lt (Semver.MkVersion M m p (Some (ch ++ "." ++ dec n)) None) w
                      = Ok false) ->
      get_current_tag r ch false = Ok (Some (ptag M m p ch n))
      /\ init_new_rc r ch
         = (if has_tag r (base M m p ++ "-rc.1") || clashes r (base M m p ++ "-rc.1")
            then Raise GitCommandError
            else Ok (Some (base M m p ++ "-rc.1"), r ++ [base M m p ++ "-rc.1"]))
      /\ create_prod_tag (r ++ [base M m p ++ "-rc.1"]) (base M m p ++ "-rc.1")
         = (if has_tag r (base M m p) || clashes r (base M m p)
            then Raise GitCommandError
            else Ok (TStr (base M m p), (r ++ [base M m p ++ "-rc.1"]) ++ [base M m p])))
  /\ (forall rc r1,
         init_new_rc r ch = Ok (Some rc, r1) ->
         exists M m p n,
           In (ptag M m p ch n) r
           /\ get_current_tag r ch false = Ok (Some (ptag M m p ch n))
           /\ (forall u,
                  In u r ->
                  selects ("^(\d+)\.(\d+)\.(\d+)-" ++ ch ++ "\.(\d+)$") u = true ->
                  exists w,
                    Semver.parse (strip u) = Ok w
                    /\ Semver.lt (Semver.MkVersion M m p (Some (ch ++ "." ++ dec n)) None) w
                       = Ok false)
           /\ rc = base M m p ++ "-rc.1"
           /\ r1 = r ++ [rc]
           /\ create_prod_tag r1 rc
              = (if has_tag r (base M m p) || clashes r (base M m p)
                 then Raise GitCommandError
                 else Ok (TStr (base M m p), r1 ++ [base M m p]))).
Proof.
  intros C. split.
  - intros M m p n I Hmax.
    pose proof (current_highest r ch M m p n C I Hmax) as G.
    split; [exact G|]. split.
    + apply (init_new_rc_current r ch M m p n C G I).
    + apply promote_after_init.
  - intros rc r1 H.
    destruct (init_new_rc_ok r ch rc r1 H) as (d & t & G & P & I & -> & ->).
    destruct (current_of_channel r ch d C G) as (M & m & p & n & E & Hmax).
    subst d.
    assert (Et : t = Semver.MkVersion M m p (Some (ch ++ "." ++ dec n)) None)
      by (pose proof (parse_ptag M m p ch n C) as Q; congruence).
    subst t. exists M, m, p, n.
    split; [exact I|]. split; [exact G|]. split; [exact Hmax|].
    split; [reflexivity|]. split; [reflexivity|].
    apply promote_after_init.
Qed.

Lemma rc_round_trip_witness :
  get_current_tag ["1.0.0-dev.5"; "1.0.0-dev.12"; "0.9.0-dev.40"] "dev" false
  = Ok (Some (ptag 1 0 0 "dev" 12))
  /\ init_new_rc ["1.0.0-dev.5"; "1.0.0-dev.12"; "0.9.0-dev.40"] "dev"
     = (if has_tag ["1.0.0-dev.5"; "1.0.0-dev.12"; "0.9.0-dev.40"] (base 1 0 0 ++ "-rc.1")
           || clashes ["1.0.0-dev.5"; "1.0.0-dev.12"; "0.9.0-dev.40"] (base 1 0 0 ++ "-rc.1")
        then Raise GitCommandError
        else Ok (Some (base 1 0 0 ++ "-rc.1"),
                 ["1.0.0-dev.5"; "1.0.0-dev.12"; "0.9.0-dev.40"] ++ [base 1 0 0 ++ "-rc.1"]))
  /\ create_prod_tag
       (["1.0.0-dev.5"; "1.0.0-dev.12"; "0.9.0-dev.40"] ++ [base 1 0 0 ++ "-rc.1"])
       (base 1 0 0 ++ "-rc.1")
     = (if has_tag ["1.0.0-dev.5"; "1.0.0-dev.12"; "0.9.0-dev.40"] (base 1 0 0)
           || clashes ["1.0.0-dev.5"; "1.0.0-dev.12"; "0.9.0-dev.40"] (base 1 0 0)
        then Raise GitCommandError
        else Ok (TStr (base 1 0 0),
                 (["1.0.0-dev.5"; "1.0.0-dev.12"; "0.9.0-dev.40"] ++ [base 1 0 0 ++ "-rc.1"])
                 ++ [base 1 0 0])).
Proof.
  apply (proj1 (rc_round_trip ["1.0.0-dev.5"; "1.0.0-dev.12"; "0.9.0-dev.40"] "dev" eq_refl)
           1%N 0%N 0%N 12%N).
  - right. left. reflexivity.
  - intros u [E|[E|[E|[]]]] _; subst u.
    + exists (Semver.MkVersion 1 0 0 (Some "dev.5") None). split; vm_compute; reflexivity.
    + exists (Semver.MkVersion 1 0 0 (Some "dev.12") None). split; vm_compute; reflexivity.
    + exists (Semver.MkVersion 0 9 0 (Some "dev.40") None). split; vm_compute; reflexivity.
Defined.

(** C6: for every tag of the prerelease grammar, whenever
    [increment_prerelease_tag] succeeds the tag is a version, and the tag
    handed back, read as a version, does not compare lower than it: the
    comparison gives [1] in the three branches (ordinal bump, minor seed and
    major seed). For a channel of lowercase letters the tag handed back is
    a version. *)
Theorem advance_not_lower r tag chan major_bump v r' :
  matches PRERELEASE tag = true ->
  increment_prerelease_tag r (Some tag) chan major_bump = Ok (v, r') ->
  exists t,
    Semver.parse tag = Ok t
    /\ (forall w, as_version v = Ok w ->
                  exists z, Semver.compare w t = Ok z /\ (0 <= z)%Z)
    /\ (channel chan = true -> exists w, as_version v = Ok w).
Proof.
  intros Hm H.
  destruct (advance_cases r tag chan major_bump v r' Hm H)
    as (M & m & p & ch & n & C & E & V).
  exists (Semver.MkVersion M m p (Some (ch ++ "." ++ dec n)) None).
  split; [rewrite E; apply (parse_ptag M m p ch n C)|].
  destruct V as [V|V]; rewrite V; split.
  - intros w W. rewrite as_version_str in W. exists 1%Z. split; [|lia].
    destruct major_bump.
    + apply (seed_higher M m p (M + 1) 0 0 chan _ w W), cmp_triple_major.
    + apply (seed_higher M m p M (m + 1) 0 chan _ w W), cmp_triple_minor.
  - intros Cc. rewrite as_version_str. destruct major_bump.
    + rewrite seed_ptag, (parse_ptag _ _ _ chan 1 Cc). eauto.
    + rewrite seed_ptag, (parse_ptag _ _ _ chan 1 Cc). eauto.
  - intros w W. rewrite as_version_ver in W. injection W as W. rewrite <- W.
    exists 1%Z. split; [|lia]. apply (bumped_higher M m p ch n C).
  - intros _. rewrite as_version_ver. eauto.
Qed.

Lemma advance_not_lower_witness :
  exists t,
    Semver.parse "1.0.0-dev.5" = Ok t
    /\ (forall w, as_version (TStr "2.0.0-dev.1") = Ok w ->
                  exists z, Semver.compare w t = Ok z /\ (0 <= z)%Z)
    /\ (channel "dev" = true -> exists w, as_version (TStr "2.0.0-dev.1") = Ok w).
Proof.
  apply (advance_not_lower ["1.0.0-dev.5"; "1.0.0-rc.1"] "1.0.0-dev.5" "dev" true
           (TStr "2.0.0-dev.1") ["1.0.0-dev.5"; "1.0.0-rc.1"; "2.0.0-dev.1"]).
  - vm_compute. reflexivity.
  - vm_compute. reflexivity.
Defined.

(** C7: [find_tag] is not the literal comparison that its documentation
    and the specification promise: the name is spliced into a regular
    expression, so a [.] of the name matches any character, and a name
    with a [+] does not match itself. *)
Theorem find_tag_is_a_pattern :
  find_tag ["1-0-0"] "1.0.0" = Ok true
  /\ has_tag ["1-0-0"] "1.0.0" = false
  /\ find_tag ["1.0.0+build"] "1.0.0+build" = Ok false
  /\ has_tag ["1.0.0+build"] "1.0.0+build" = true.
Proof. repeat split; vm_compute; reflexivity. Qed.




(** C9: for every base version [X.Y.Z], every channel of lowercase
    letters and every ordinal [N], [get_init_rc_tag] of
    ["X.Y.Z-channel.N"] is ["X.Y.Z-rc.1"]; every text outside the grammar
    [^\d+\.\d+\.\d+-[a-z]+\.\d+$] is a format error. *)
Theorem init_rc_name :
  (forall M m p ch n,
      channel ch = true ->
      get_init_rc_tag (base M m p ++ "-" ++ ch ++ "." ++ dec n) = Ok (base M m p ++ "-rc.1"))
  /\ (forall s, matches PRERELEASE s = false -> get_init_rc_tag s = Raise ValueError).
Proof.
  split.
  - intros M m p ch n H. apply (get_init_rc_tag_ptag M m p ch n H).
  - apply get_init_rc_tag_reject.
Qed.

Lemma init_rc_name_witness :
  get_init_rc_tag (base 999 999 999 ++ "-" ++ "dev" ++ "." ++ dec 1) = Ok (base 999 999 999 ++ "-rc.1")
  /\ get_init_rc_tag "1.0-dev.1" = Raise ValueError.
Proof.
  split.
  - apply (proj1 init_rc_name). reflexivity.
  - apply (proj2 init_rc_name). vm_compute. reflexivity.
Defined.

(** C10: for every base of the grammar [X.Y.Z] and every channel other
    than ["rc"] and ["patch"], [increment_rc_patch] reaches its last test
    with [current_rc] unassigned and raises [UnboundLocalError]. *)
Theorem other_channel_unbound (r : repo) (tag ch : str) :
  matches PRODUCTION tag = true -> ch <> "rc" -> ch <> "patch" ->
  increment_rc_patch r tag ch = Raise UnboundLocalError.
Proof. apply increment_rc_patch_other. Qed.

Lemma other_channel_unbound_witness :
  increment_rc_patch ["1.0.0"] "1.0.0" "dev" = Raise UnboundLocalError.
Proof.
  apply other_channel_unbound.
  - vm_compute. reflexivity.
  - discriminate.
  - discriminate.
Defined.

(* ================================================================== *)
(** * Further properties of the operations *)

(** X1: without a tag ([None], or the empty text, which Python takes for
    false), [increment_prerelease_tag] in a channel of lowercase letters
    does not read the tags to choose a name: it starts the sequence at
    ["0.1.0-channel.1"], whatever [major_bump] is, and fails with the
    error of the backend exactly when git refuses that name: it is taken,
    or it collides with a tag directory, as ["0.1.0-dev.1/x"] does with
    ["0.1.0-dev.1"]. *)
Theorem advance_first r tag ch major_bump :
  tag = None \/ tag = Some [] ->
  channel ch = true ->
  increment_prerelease_tag r tag ch major_bump
  = if has_tag r ("0.1.0-" ++ ch ++ ".1") || clashes r ("0.1.0-" ++ ch ++ ".1")
    then Raise GitCommandError
    else Ok (TStr ("0.1.0-" ++ ch ++ ".1"), r ++ ["0.1.0-" ++ ch ++ ".1"]).
Proof.
  intros T C. rewrite (advance_none r tag ch major_bump T).
  apply (created_outcome r (TStr ("0.1.0-" ++ ch ++ ".1"))).
  cbn [name_of]. rewrite first_seed. apply (shaped_ptag 0 1 0 ch 1 C).
Qed.

Lemma advance_first_witness :
  increment_prerelease_tag ["0.1.0-dev.1/x"] None "dev" true = Raise GitCommandError
  /\ increment_prerelease_tag ["0.1.0-dev.1"] (Some []) "rc" false
     = Ok (TStr "0.1.0-rc.1", ["0.1.0-dev.1"; "0.1.0-rc.1"]).
Proof.
  split.
  - refine (eq_trans (advance_first ["0.1.0-dev.1/x"] None "dev" true _ _) _).
    + left. reflexivity.
    + reflexivity.
    + reflexivity.
  - refine (eq_trans (advance_first ["0.1.0-dev.1"] (Some []) "rc" false _ _) _).
    + right. reflexivity.
    + reflexivity.
    + reflexivity.
Defined.

(** X2: [increment_prerelease_tag] refuses with the format error every
    tag, not empty, that is outside the prerelease grammar; a production
    tag [X.Y.Z] is one, so a production tag is never advanced. *)
Theorem advance_rejects r ch major_bump :
  (forall tag, tag <> [] -> matches PRERELEASE tag = false ->
               increment_prerelease_tag r (Some tag) ch major_bump = Raise ValueError)
  /\ (forall M m p,
         increment_prerelease_tag r (Some (base M m p)) ch major_bump = Raise ValueError).
Proof.
  split.
  - intros tag N H. apply (advance_reject r tag ch major_bump N H).
  - intros M m p. apply advance_reject; [|apply base_not_prerelease].
    destruct (base_cons M m p) as (x & t & E). rewrite E. discriminate.
Qed.

Lemma advance_rejects_witness :
  increment_prerelease_tag ["1.0.0"] (Some "1.0.0-RC.1") "dev" false = Raise ValueError.
Proof.
  apply (proj1 (advance_rejects ["1.0.0"] "dev" false)).
  - discriminate.
  - vm_compute. reflexivity.
Defined.

(** X3: in a repository of lifecycle tags written without leading zeros,
    [init_new_patch] returns [None] and creates nothing when there is no
    production tag; otherwise it takes the production tag [X.Y.Z] that no
    other production tag is above, and creates and returns
    ["X.Y.Z-patch.1"], failing with the error of the backend exactly when
    that name is taken. *)
Theorem init_patch_outcome r :
  wellformed r = true ->
  ((forall M m p, ~ In (base M m p) r) /\ init_new_patch r = Ok (None, r))
  \/ (exists M m p,
         In (base M m p) r
         /\ (forall M' m' p',
                In (base M' m' p') r ->
                Semver.lt (Semver.MkVersion M m p None None)
                          (Semver.MkVersion M' m' p' None None) = Ok false)
         /\ init_new_patch r
            = if has_tag r (base M m p ++ "-patch.1") then Raise GitCommandError
              else Ok (Some (base M m p ++ "-patch.1"), r ++ [base M m p ++ "-patch.1"])).
Proof.
  intros W. destruct (highest_production r W) as ([d|] & G & H).
  - right. destruct H as (I & (M & m & p & ->) & v & P & Hmax).
    exists M, m, p. split; [exact I|]. split.
    + intros M' m' p' I'. rewrite parse_base in P. injection P as <-.
      exact (proj1 (Hmax (base M' m' p') _ I' (ex_intro _ M' (ex_intro _ m'
               (ex_intro _ p' eq_refl))) (parse_base M' m' p'))).
    + unfold init_new_patch.
      replace (get_current_tag r "dev" true) with (Ok (Some (base M m p)) : result (option str))
        by (symmetry; exact G).
      cbn [bind]. destruct (base_cons M m p) as (x & t & E). rewrite E. rewrite <- E.
      rewrite (commit_present r _ I). cbn [bind].
      rewrite (create_tag_lifecycle r (base M m p ++ "-patch.1")
                 (wellformed_lifecycle r W) (shaped_ptag M m p "patch" 1 channel_patch)).
      destruct (has_tag r (base M m p ++ "-patch.1")); reflexivity.
  - left. split.
    + intros M m p I. apply (H _ I). exists M, m, p. reflexivity.
    + unfold init_new_patch.
      replace (get_current_tag r "dev" true) with (Ok None : result (option str))
        by (symmetry; exact G).
      reflexivity.
Qed.

Lemma init_patch_outcome_witness :
  ((forall M m p, ~ In (base M m p) ["1.2.0"; "1.10.0"; "1.10.0-rc.1"])
   /\ init_new_patch ["1.2.0"; "1.10.0"; "1.10.0-rc.1"]
      = Ok (None, ["1.2.0"; "1.10.0"; "1.10.0-rc.1"]))
  \/ (exists M m p,
         In (base M m p) ["1.2.0"; "1.10.0"; "1.10.0-rc.1"]
         /\ (forall M' m' p',
                In (base M' m' p') ["1.2.0"; "1.10.0"; "1.10.0-rc.1"] ->
                Semver.lt (Semver.MkVersion M m p None None)
                          (Semver.MkVersion M' m' p' None None) = Ok false)
         /\ init_new_patch ["1.2.0"; "1.10.0"; "1.10.0-rc.1"]
            = if has_tag ["1.2.0"; "1.10.0"; "1.10.0-rc.1"] (base M m p ++ "-patch.1")
              then Raise GitCommandError
              else Ok (Some (base M m p ++ "-patch.1"),
                       ["1.2.0"; "1.10.0"; "1.10.0-rc.1"] ++ [base M m p ++ "-patch.1"])).
Proof.
  apply (init_patch_outcome ["1.2.0"; "1.10.0"; "1.10.0-rc.1"]).
  vm_compute. reflexivity.
Defined.

(** X4: whenever [init_new_patch] returns a patch tag, it is
    ["X.Y.Z-patch.1"] for a production tag [X.Y.Z] of the repository, the
    one that [get_current_tag] gives, which is lower than no tag that the
    production grammar selects; and [create_prod_tag] on it, in the
    repository that [init_new_patch] left, creates and hands back the
    production version [X.Y.(Z+1)], failing with the error of the backend
    exactly when git refuses that name: it is taken, or it collides with a
    tag directory. *)
Theorem patch_round_trip r pt r1 :
  init_new_patch r = Ok (Some pt, r1) ->
  exists M m p,
    In (base M m p) r
    /\ get_current_tag r "dev" true = Ok (Some (base M m p))
    /\ (forall u, In u r -> selects PRODUCTION u = true ->
                  exists w, Semver.parse (strip u) = Ok w
                            /\ Semver.lt (Semver.MkVersion M m p None None) w = Ok false)
    /\ pt = base M m p ++ "-patch.1"
    /\ r1 = r ++ [pt]
    /\ name_of (TVer (Semver.MkVersion M m (p + 1) None None)) = base M m (p + 1)
    /\ create_prod_tag r1 pt
       = (if has_tag r (base M m (p + 1)) || clashes r (base M m (p + 1))
          then Raise GitCommandError
          else Ok (TVer (Semver.MkVersion M m (p + 1) None None),
                   r1 ++ [base M m (p + 1)])).
Proof.
  intros H. apply init_new_patch_ok in H
    as [(_ & Q & _)|(M & m & p & G & I & Q & -> & N)]; [discriminate Q|].
  injection Q as ->. exists M, m, p.
  split; [exact I|]. split; [exact G|]. split.
  - destruct (current_of_production r _ G) as (M' & m' & p' & E & Hmax).
    apply base_inj in E as (<- & <- & <-). exact Hmax.
  - split; [reflexivity|]. split; [reflexivity|]. split; [apply to_str_plain|].
    apply promote_after_patch.
Qed.

Lemma patch_round_trip_witness :
  exists M m p,
    In (base M m p) ["1.0.0"; "0.9.0"; "1.0.1/x"]
    /\ get_current_tag ["1.0.0"; "0.9.0"; "1.0.1/x"] "dev" true = Ok (Some (base M m p))
    /\ (forall u, In u ["1.0.0"; "0.9.0"; "1.0.1/x"] -> selects PRODUCTION u = true ->
                  exists w, Semver.parse (strip u) = Ok w
                            /\ Semver.lt (Semver.MkVersion M m p None None) w = Ok false)
    /\ "1.0.0-patch.1" = base M m p ++ "-patch.1"
    /\ ["1.0.0"; "0.9.0"; "1.0.1/x"; "1.0.0-patch.1"]
       = ["1.0.0"; "0.9.0"; "1.0.1/x"] ++ ["1.0.0-patch.1"]
    /\ name_of (TVer (Semver.MkVersion M m (p + 1) None None)) = base M m (p + 1)
    /\ create_prod_tag ["1.0.0"; "0.9.0"; "1.0.1/x"; "1.0.0-patch.1"] "1.0.0-patch.1"
       = (if has_tag ["1.0.0"; "0.9.0"; "1.0.1/x"] (base M m (p + 1))
             || clashes ["1.0.0"; "0.9.0"; "1.0.1/x"] (base M m (p + 1))
          then Raise GitCommandError
          else Ok (TVer (Semver.MkVersion M m (p + 1) None None),
                   ["1.0.0"; "0.9.0"; "1.0.1/x"; "1.0.0-patch.1"] ++ [base M m (p + 1)])).
Proof.
  apply (patch_round_trip ["1.0.0"; "0.9.0"; "1.0.1/x"] "1.0.0-patch.1"
           ["1.0.0"; "0.9.0"; "1.0.1/x"; "1.0.0-patch.1"]).
  vm_compute. reflexivity.
Defined.

(** X5: in a repository of lifecycle tags written without leading zeros,
    [init_new_rc] for a channel of lowercase letters returns [None] and
    creates nothing when the channel has no tag; otherwise it takes the
    tag [X.Y.Z-channel.N] of the channel that no other one is above, and
    creates and returns ["X.Y.Z-rc.1"], failing with the error of the
    backend exactly when that name is taken. *)
Theorem init_rc_outcome r ch :
  channel ch = true -> wellformed r = true ->
  ((forall M m p n, ~ In (ptag M m p ch n) r) /\ init_new_rc r ch = Ok (None, r))
  \/ (exists M m p n,
         In (ptag M m p ch n) r
         /\ (forall M' m' p' n',
                In (ptag M' m' p' ch n') r ->
                Semver.lt (Semver.MkVersion M m p (Some (ch ++ "." ++ dec n)) None)
                          (Semver.MkVersion M' m' p' (Some (ch ++ "." ++ dec n')) None)
                = Ok false)
         /\ init_new_rc r ch
            = if has_tag r (base M m p ++ "-rc.1") then Raise GitCommandError
              else Ok (Some (base M m p ++ "-rc.1"), r ++ [base M m p ++ "-rc.1"])).
Proof.
  intros C W. destruct (highest_channel r ch C W) as ([d|] & G & H).
  - right. destruct H as (I & (M & m & p & n & ->) & v & P & Hmax).
    exists M, m, p, n. split; [exact I|]. split.
    + intros M' m' p' n' I'.
      assert (Ev : v = Semver.MkVersion M m p (Some (ch ++ "." ++ dec n)) None)
        by (pose proof (parse_ptag M m p ch n C) as Q; congruence).
      rewrite <- Ev.
      exact (proj1 (Hmax (ptag M' m' p' ch n') _ I'
                      (ex_intro _ M' (ex_intro _ m' (ex_intro _ p' (ex_intro _ n' eq_refl))))
                      (parse_ptag M' m' p' ch n' C))).
    + unfold init_new_rc.
      replace (get_current_tag r ch false)
        with (Ok (Some (ptag M m p ch n)) : result (option str)) by (symmetry; exact G).
      cbn [bind]. destruct (ptag_cons M m p ch n) as (x & t & E). rewrite E. rewrite <- E.
      rewrite (parse_ptag M m p ch n C). cbn [bind].
      rewrite (commit_present r _ I). cbn [bind].
      rewrite base_of_base. cbn [Semver.major Semver.minor Semver.patch].
      rewrite (create_tag_lifecycle r (base M m p ++ "-rc.1")
                 (wellformed_lifecycle r W) (shaped_ptag M m p "rc" 1 channel_rc)).
      destruct (has_tag r (base M m p ++ "-rc.1")); reflexivity.
  - left. split.
    + intros M m p n I. apply (H _ I). exists M, m, p, n. reflexivity.
    + unfold init_new_rc.
      replace (get_current_tag r ch false) with (Ok None : result (option str))
        by (symmetry; exact G).
      reflexivity.
Qed.

Lemma init_rc_outcome_witness :
  ((forall M m p n, ~ In (ptag M m p "dev" n) ["0.1.0-dev.1"; "0.1.0-dev.2"])
   /\ init_new_rc ["0.1.0-dev.1"; "0.1.0-dev.2"] "dev"
      = Ok (None, ["0.1.0-dev.1"; "0.1.0-dev.2"]))
  \/ (exists M m p n,
         In (ptag M m p "dev" n) ["0.1.0-dev.1"; "0.1.0-dev.2"]
         /\ (forall M' m' p' n',
                In (ptag M' m' p' "dev" n') ["0.1.0-dev.1"; "0.1.0-dev.2"] ->
                Semver.lt (Semver.MkVersion M m p (Some ("dev" ++ "." ++ dec n)) None)
                          (Semver.MkVersion M' m' p' (Some ("dev" ++ "." ++ dec n')) None)
                = Ok false)
         /\ init_new_rc ["0.1.0-dev.1"; "0.1.0-dev.2"] "dev"
            = if has_tag ["0.1.0-dev.1"; "0.1.0-dev.2"] (base M m p ++ "-rc.1")
              then Raise GitCommandError
              else Ok (Some (base M m p ++ "-rc.1"),
                       ["0.1.0-dev.1"; "0.1.0-dev.2"] ++ [base M m p ++ "-rc.1"])).
Proof.
  apply (init_rc_outcome ["0.1.0-dev.1"; "0.1.0-dev.2"] "dev").
  - reflexivity.
  - vm_compute. reflexivity.
Defined.

(** X6: in a repository of lifecycle tags written without leading zeros,
    when no tag is named [X.Y.Z], [increment_rc_patch] in the channel
    [rc] returns [None] and creates nothing if the repository has no tag
    [X.Y.Z-rc.N], and else creates and returns [X.Y.Z-rc.(N+1)] for the
    highest [N] with a tag [X.Y.Z-rc.N]. *)
Theorem rc_increment_canonical r M m p :
  wellformed r = true -> ~ In (base M m p) r ->
  ((forall n, ~ In (ptag M m p "rc" n) r)
   /\ increment_rc_patch r (base M m p) "rc" = Ok (None, r))
  \/ (exists n,
         In (ptag M m p "rc" n) r
         /\ (forall n', In (ptag M m p "rc" n') r -> (n' <= n)%N)
         /\ increment_rc_patch r (base M m p) "rc"
            = Ok (Some (TVer (Semver.MkVersion M m p (Some ("rc" ++ "." ++ dec (n + 1))) None)),
                  r ++ [ptag M m p "rc" (n + 1)])).
Proof.
  intros W N. rewrite (increment_rc_steps r M m p (wellformed_lifecycle r W)).
  rewrite (has_tag_absent r _ N).
  destruct (highest_family r M m p "rc" channel_rc W) as ([d|] & G & H).
  - right.
    destruct (highest_family_ordinal r M m p "rc" d channel_rc H) as (n & -> & I & Hmax).
    exists n. split; [exact I|]. split; [exact Hmax|].
    rewrite G. cbn [bind].
    destruct (ptag_cons M m p "rc" n) as (x & t & E). rewrite E. rewrite <- E.
    apply (bump_family r M m p "rc" n (wellformed_lifecycle r W) channel_rc Hmax).
  - left. split.
    + intros n K. apply (H _ K). exists n. reflexivity.
    + rewrite G. reflexivity.
Qed.

Lemma rc_increment_canonical_witness :
  ((forall n, ~ In (ptag 1 0 0 "rc" n) ["1.0.0-rc.1"; "1.0.0-rc.2"; "0.9.0"])
   /\ increment_rc_patch ["1.0.0-rc.1"; "1.0.0-rc.2"; "0.9.0"] (base 1 0 0) "rc"
      = Ok (None, ["1.0.0-rc.1"; "1.0.0-rc.2"; "0.9.0"]))
  \/ (exists n,
         In (ptag 1 0 0 "rc" n) ["1.0.0-rc.1"; "1.0.0-rc.2"; "0.9.0"]
         /\ (forall n', In (ptag 1 0 0 "rc" n') ["1.0.0-rc.1"; "1.0.0-rc.2"; "0.9.0"] ->
                        (n' <= n)%N)
         /\ increment_rc_patch ["1.0.0-rc.1"; "1.0.0-rc.2"; "0.9.0"] (base 1 0 0) "rc"
            = Ok (Some (TVer (Semver.MkVersion 1 0 0 (Some ("rc" ++ "." ++ dec (n + 1))) None)),
                  ["1.0.0-rc.1"; "1.0.0-rc.2"; "0.9.0"] ++ [ptag 1 0 0 "rc" (n + 1)])).
Proof.
  apply (rc_increment_canonical ["1.0.0-rc.1"; "1.0.0-rc.2"; "0.9.0"] 1 0 0).
  - vm_compute. reflexivity.
  - intros [E|[E|[E|[]]]]; discriminate E.
Defined.

(** X7: on the names of the lifecycle [find_tag] is the exact test that
    its documentation promises: a lifecycle name that is a tag of the
    repository is found, whatever else the repository holds, and in a
    repository of lifecycle tags a lifecycle name is found exactly when it
    is one of the tags. *)
Theorem find_tag_lifecycle :
  (forall r name, shaped name = true -> In name r -> find_tag r name = Ok true)
  /\ (forall r name, lifecycle r = true -> shaped name = true ->
                     find_tag r name = Ok (has_tag r name)).
Proof.
  split.
  - intros r name H I. apply (shaped_present r name H I).
  - intros r name L H. apply (find_tag_exact r name L H).
Qed.

Lemma find_tag_lifecycle_witness :
  find_tag ["1-0-0"; "1.0.0-dev.3"] "1.0.0-dev.3" = Ok true
  /\ find_tag ["1.0.0-dev.3"; "1.0.0-rc.1"] "1.0.0"
     = Ok (has_tag ["1.0.0-dev.3"; "1.0.0-rc.1"] "1.0.0").
Proof.
  split.
  - apply (proj1 find_tag_lifecycle).
    + vm_compute. reflexivity.
    + right. left. reflexivity.
  - apply (proj2 find_tag_lifecycle); vm_compute; reflexivity.
Defined.

(** X8: [get_current_rc_patch] refuses with the format error every base
    outside the grammar [X.Y.Z]; in a repository of lifecycle tags written
    without leading zeros, for a base [X.Y.Z] without leading zeros and a
    channel of lowercase letters, it returns [None] when there is no tag
    [X.Y.Z-channel.N], and otherwise the tag [X.Y.Z-channel.N] with the
    highest [N], the ordinals being compared as numbers. *)
Theorem current_rc_patch_spec :
  (forall r tag ch,
      matches PRODUCTION tag = false -> get_current_rc_patch r tag ch = Raise ValueError)
  /\ (forall r M m p ch,
         channel ch = true -> wellformed r = true ->
         ((forall n, ~ In (ptag M m p ch n) r)
          /\ get_current_rc_patch r (base M m p) ch = Ok None)
         \/ (exists n,
                In (ptag M m p ch n) r
                /\ (forall n', In (ptag M m p ch n') r -> (n' <= n)%N)
                /\ get_current_rc_patch r (base M m p) ch = Ok (Some (ptag M m p ch n)))).
Proof.
  split.
  - intros r tag ch H. unfold get_current_rc_patch. cbv zeta.
    rewrite (matches_false_fullmatch PRODUCTION _ tag compile_production H). reflexivity.
  - intros r M m p ch C W.
    destruct (highest_family r M m p ch C W) as ([d|] & G & H).
    + right. destruct (highest_family_ordinal r M m p ch d C H) as (n & -> & I & Hmax).
      exists n. auto.
    + left. split; [|exact G].
      intros n K. apply (H _ K). exists n. reflexivity.
Qed.

Lemma current_rc_patch_spec_witness :
  get_current_rc_patch ["1.0.0-rc.1"] "1.0" "rc" = Raise ValueError
  /\ (((forall n, ~ In (ptag 1 0 0 "rc" n) ["1.0.0-rc.9"; "1.0.0-rc.10"])
       /\ get_current_rc_patch ["1.0.0-rc.9"; "1.0.0-rc.10"] (base 1 0 0) "rc" = Ok None)
      \/ (exists n,
             In (ptag 1 0 0 "rc" n) ["1.0.0-rc.9"; "1.0.0-rc.10"]
             /\ (forall n', In (ptag 1 0 0 "rc" n') ["1.0.0-rc.9"; "1.0.0-rc.10"] ->
                            (n' <= n)%N)
             /\ get_current_rc_patch ["1.0.0-rc.9"; "1.0.0-rc.10"] (base 1 0 0) "rc"
                = Ok (Some (ptag 1 0 0 "rc" n)))).
Proof.
  split.
  - apply (proj1 current_rc_patch_spec). vm_compute. reflexivity.
  - apply (proj2 current_rc_patch_spec); [reflexivity|vm_compute; reflexivity].
Defined.

(** X9: the operations only add, one tag at most: each of the five
    operations that succeeds leaves the repository as it was when it
    returns [None], and otherwise the tags that [repo.tags] enumerates
    afterwards are those it enumerated before and the one tag that the
    operation returns, which was not a tag before; [create_prod_tag]
    succeeds only on a tag of the repository. No tag is removed or
    renamed. *)
Theorem operations_add_one_tag :
  (forall r tag ch major_bump v r',
      increment_prerelease_tag r tag ch major_bump = Ok (v, r') ->
      (forall t, In t (repo_tags r') <-> In t (repo_tags r) \/ t = name_of v)
      /\ ~ In (name_of v) (repo_tags r))
  /\ (forall r ch out r',
         init_new_rc r ch = Ok (out, r') ->
         match out with
         | None => r' = r
         | Some n =>
             (forall t, In t (repo_tags r') <-> In t (repo_tags r) \/ t = n)
             /\ ~ In n (repo_tags r)
         end)
  /\ (forall r out r',
         init_new_patch r = Ok (out, r') ->
         match out with
         | None => r' = r
         | Some n =>
             (forall t, In t (repo_tags r') <-> In t (repo_tags r) \/ t = n)
             /\ ~ In n (repo_tags r)
         end)
  /\ (forall r tag ch out r',
         increment_rc_patch r tag ch = Ok (out, r') ->
         match out with
         | None => r' = r
         | Some v =>
             (forall t, In t (repo_tags r') <-> In t (repo_tags r) \/ t = name_of v)
             /\ ~ In (name_of v) (repo_tags r)
         end)
  /\ (forall r tag v r',
         create_prod_tag r tag = Ok (v, r') ->
         In tag (repo_tags r)
         /\ (forall t, In t (repo_tags r') <-> In t (repo_tags r) \/ t = name_of v)
         /\ ~ In (name_of v) (repo_tags r)).
Proof.
  split; [|split; [|split; [|split]]].
  - intros r tag ch major_bump v r' H.
    destruct (advance_inv r tag ch major_bump v r' H) as [-> N].
    split; [intros t; apply tags_after|]. rewrite repo_tags_in. exact N.
  - intros r ch out r' H.
    apply init_new_rc_inv in H as [(_ & -> & ->)|(d & t & _ & _ & _ & -> & -> & N)].
    + reflexivity.
    + split; [intros u; apply tags_after|]. rewrite repo_tags_in. exact N.
  - intros r out r' H.
    apply init_new_patch_ok in H as [(_ & -> & ->)|(M & m & p & _ & _ & -> & -> & N)].
    + reflexivity.
    + split; [intros u; apply tags_after|]. rewrite repo_tags_in. exact N.
  - intros r tag ch out r' H.
    apply increment_rc_patch_ok in H
      as (_ & [(c & _ & _ & -> & ->)|(d & w & v & _ & _ & _ & -> & -> & N)]).
    + reflexivity.
    + cbn [name_of]. split; [intros u; apply tags_after|]. rewrite repo_tags_in. exact N.
  - intros r tag v r' H.
    destruct (create_prod_tag_inv r tag v r' H) as (I & -> & N & _).
    split; [rewrite repo_tags_in; exact I|].
    split; [intros u; apply tags_after|]. rewrite repo_tags_in. exact N.
Qed.

Lemma operations_add_one_tag_witness :
  In "1.0.0-rc.2" (repo_tags ["1.0.0-rc.2"])
  /\ (forall t, In t (repo_tags ["1.0.0-rc.2"; "1.0.0"])
                <-> In t (repo_tags ["1.0.0-rc.2"]) \/ t = name_of (TStr "1.0.0"))
  /\ ~ In (name_of (TStr "1.0.0")) (repo_tags ["1.0.0-rc.2"]).
Proof.
  apply (proj2 (proj2 (proj2 (proj2 operations_add_one_tag)))
           ["1.0.0-rc.2"] "1.0.0-rc.2" (TStr "1.0.0") ["1.0.0-rc.2"; "1.0.0"]).
  vm_compute. reflexivity.
Defined.

(** X10: the operations keep a repository of lifecycle tags written
    without leading zeros such a repository: whatever tag a successful
    operation adds is again a lifecycle tag without leading zeros
    ([increment_prerelease_tag] being called with a channel of lowercase
    letters). *)
Theorem operations_keep_wellformed r :
  wellformed r = true ->
  (forall tag ch major_bump v r',
      channel ch = true ->
      increment_prerelease_tag r tag ch major_bump = Ok (v, r') -> wellformed r' = true)
  /\ (forall ch out r', init_new_rc r ch = Ok (out, r') -> wellformed r' = true)
  /\ (forall out r', init_new_patch r = Ok (out, r') -> wellformed r' = true)
  /\ (forall tag ch out r',
         increment_rc_patch r tag ch = Ok (out, r') -> wellformed r' = true)
  /\ (forall tag v r', create_prod_tag r tag = Ok (v, r') -> wellformed r' = true).
Proof.
  intros W. split; [|split; [|split; [|split]]].
  - intros tag ch major_bump v r' C H.
    destruct (advance_name r tag ch major_bump v r' C H) as (M & m & p & c & n & Cc & E).
    destruct (advance_inv r tag ch major_bump v r' H) as [-> _].
    rewrite E. apply (wellformed_app r _ W (canonical_ptag M m p c n Cc)).
  - intros ch out r' H.
    apply init_new_rc_inv in H as [(_ & _ & ->)|(d & t & _ & _ & _ & _ & -> & _)].
    + exact W.
    + apply (wellformed_app r _ W).
      apply (canonical_ptag (Semver.major t) (Semver.minor t) (Semver.patch t) "rc" 1
               channel_rc).
  - intros out r' H.
    apply init_new_patch_ok in H as [(_ & _ & ->)|(M & m & p & _ & _ & _ & -> & _)].
    + exact W.
    + apply (wellformed_app r _ W). apply (canonical_ptag M m p "patch" 1 channel_patch).
  - intros tag ch out r' H.
    apply increment_rc_patch_ok in H
      as (Hch & [(c & _ & _ & _ & ->)|(d & w & v & G & P & B & _ & -> & _)]).
    + exact W.
    + assert (C : channel ch = true) by (destruct Hch as [->| ->]; reflexivity).
      destruct (current_rc_patch_candidate r tag ch d W C G)
        as (_ & M & m & p & c & n & Cc & ->).
      assert (Ew : w = Semver.MkVersion M m p (Some (c ++ "." ++ dec n)) None)
        by (pose proof (parse_ptag M m p c n Cc) as Q; congruence).
      subst w. pose proof Cc as Cl. apply channel_spec in Cl as [Cl _].
      assert (Ev : v = Semver.MkVersion M m p (Some (c ++ "." ++ dec (n + 1))) None)
        by (pose proof (bump_prerelease_spec M m p c n None Cl) as Q; congruence).
      rewrite Ev, (to_str_pre M m p c (n + 1) Cc).
      apply (wellformed_app r _ W (canonical_ptag M m p c (n + 1) Cc)).
  - intros tag v r' H.
    destruct (create_prod_tag_inv r tag v r' H) as (_ & -> & _ & M & m & p & E).
    rewrite E. apply (wellformed_app r _ W (canonical_base M m p)).
Qed.

Lemma operations_keep_wellformed_witness :
  wellformed ["1.0.0-rc.1"; "1.0.0"] = true.
Proof.
  apply (proj2 (proj2 (proj2 (proj2
           (operations_keep_wellformed ["1.0.0-rc.1"] eq_refl))))
           "1.0.0-rc.1" (TStr "1.0.0") ["1.0.0-rc.1"; "1.0.0"]).
  vm_compute. reflexivity.
Defined.

(** X11: [get_init_rc_tag] is idempotent: what it returns is a tag of the
    prerelease grammar that it maps to itself. *)
Theorem init_rc_tag_idempotent t u :
  get_init_rc_tag t = Ok u ->
  matches PRERELEASE u = true /\ get_init_rc_tag u = Ok u.
Proof.
  intros H. destruct (matches PRERELEASE t) eqn:Hm.
  - destruct (matches_true_fullmatch _ _ Hm) as (mo & F).
    destruct (Semver.parse t) as [v|e] eqn:P.
    + destruct (parsed_prerelease t v Hm P) as (M & m & p & ch & n & C & E).
      rewrite E in H.
      pose proof (eq_trans (eq_sym (get_init_rc_tag_ptag M m p ch n C)) H) as Q.
      injection Q as <-. rewrite (rc_name M m p). split.
      * apply (matches_ptag M m p "rc" 1 channel_rc).
      * apply (get_init_rc_tag_ptag M m p "rc" 1 channel_rc).
    + exfalso. revert H. unfold get_init_rc_tag. cbv zeta. rewrite F.
      cbn [bind truthy negb]. rewrite P. cbn [bind]. intros H. discriminate H.
  - pose proof (eq_trans (eq_sym (get_init_rc_tag_reject t Hm)) H) as Q. discriminate Q.
Qed.

Lemma init_rc_tag_idempotent_witness :
  matches PRERELEASE "12.0.3-rc.1" = true /\ get_init_rc_tag "12.0.3-rc.1" = Ok "12.0.3-rc.1".
Proof.
  apply (init_rc_tag_idempotent "12.0.3-beta.7" "12.0.3-rc.1").
  vm_compute. reflexivity.
Defined.

(** X12: in a repository of lifecycle tags written without leading zeros,
    after [increment_prerelease_tag] has advanced the current tag of a
    channel, in that channel, the tag it returned is the current tag of the
    channel for [get_current_tag], in its three branches. *)
Theorem advance_then_current r tag ch major_bump v r' :
  channel ch = true -> wellformed r = true ->
  get_current_tag r ch false = Ok (Some tag) ->
  increment_prerelease_tag r (Some tag) ch major_bump = Ok (v, r') ->
  get_current_tag r' ch false = Ok (Some (name_of v)).
Proof.
  intros C W G H.
  destruct (highest_channel r ch C W) as (out & G' & Hh).
  pose proof G as G0. rewrite current_tag_channel in G0. rewrite G0 in G'.
  injection G' as <-.
  destruct (highest_channel_key r ch tag C Hh) as (M & m & p & n & E & _ & _).
  subst tag.
  destruct (advance_cases r _ ch major_bump v r' (matches_ptag M m p ch n C) H)
    as (M0 & m0 & p0 & c & n0 & Cc & E & V).
  apply (ptag_inj M m p ch n M0 m0 p0 c n0 C Cc) in E as (<- & <- & <- & <- & <-).
  destruct (advance_inv r _ ch major_bump v r' H) as [-> _].
  destruct V as [V|V]; rewrite V; cbn [name_of].
  - destruct major_bump; rewrite seed_ptag.
    + apply (current_after_add r ch M m p n _ _ _ _ C W G). apply lex_lt_major.
    + apply (current_after_add r ch M m p n _ _ _ _ C W G). apply lex_lt_minor.
  - rewrite (to_str_pre M m p ch (n + 1) C).
    apply (current_after_add r ch M m p n _ _ _ _ C W G). apply lex_lt_bump.
Qed.

Lemma advance_then_current_witness :
  get_current_tag ["1.0.0-dev.9"; "0.9.0-dev.30"; "1.0.0-dev.10"] "dev" false
  = Ok (Some (name_of (TVer (Semver.MkVersion 1 0 0 (Some "dev.10") None)))).
Proof.
  apply (advance_then_current ["1.0.0-dev.9"; "0.9.0-dev.30"] "1.0.0-dev.9" "dev" false
           (TVer (Semver.MkVersion 1 0 0 (Some "dev.10") None))
           ["1.0.0-dev.9"; "0.9.0-dev.30"; "1.0.0-dev.10"]).
  - reflexivity.
  - vm_compute. reflexivity.
  - vm_compute. reflexivity.
  - vm_compute. reflexivity.
Defined.

(** X13: what [create_prod_tag] answers on a release candidate or a patch
    tag written without leading zeros: the error of [repo.commit] when the
    tag is not in the repository; the error of [repo.create_tag] when git
    refuses the production name, which it does when the name is taken and
    when it collides with a tag directory, as ["1.0.0/x"] does with
    ["1.0.0"]; and otherwise the production version, added to the
    repository: [X.Y.Z] for [X.Y.Z-rc.N], [X.Y.(Z+1)] for
    [X.Y.Z-patch.N]. *)
Theorem promote_outcome r M m p n :
  create_prod_tag r (ptag M m p "rc" n)
  = (if has_tag r (ptag M m p "rc" n)
     then if has_tag r (base M m p) || clashes r (base M m p)
          then Raise GitCommandError
          else Ok (TStr (base M m p), r ++ [base M m p])
     else Raise BadName)
  /\ create_prod_tag r (ptag M m p "patch" n)
     = (if has_tag r (ptag M m p "patch" n)
        then if has_tag r (base M m (p + 1)) || clashes r (base M m (p + 1))
             then Raise GitCommandError
             else Ok (TVer (Semver.MkVersion M m (p + 1) None None),
                      r ++ [base M m (p + 1)])
        else Raise BadName).
Proof.
  split.
  - rewrite (create_prod_tag_ptag r M m p "rc" n (or_introl eq_refl)), rc_not_patch.
    unfold promoted, commit.
    destruct (has_tag r (ptag M m p "rc" n)); cbn [bind]; [|reflexivity].
    apply (created_outcome r (TStr (base M m p)) (shaped_base M m p)).
  - rewrite (create_prod_tag_ptag r M m p "patch" n (or_intror eq_refl)), patch_is_patch.
    unfold promoted, commit.
    destruct (has_tag r (ptag M m p "patch" n)); cbn [bind]; [|reflexivity].
    rewrite created_outcome; cbn [name_of]; rewrite to_str_plain;
      [reflexivity|apply shaped_base].
Qed.

(** X14: for every pattern that [re] compiles, what
    [find_tag_with_pattern] returns is the stripped name of a tag of the
    repository that the pattern finds, and is a version for [semver]; and
    it returns [None] only when the pattern finds no tag of the
    repository. *)
Theorem highest_is_matching r pattern re :
  compile pattern = Some re ->
  (forall d, find_tag_with_pattern r pattern = Ok (Some d) ->
             (exists t, In t r /\ truthy (search_re re t) = true /\ d = strip t)
             /\ exists v, Semver.parse d = Ok v)
  /\ (find_tag_with_pattern r pattern = Ok None ->
      forall t, In t r -> search_re re t = None).
Proof.
  intros C. split.
  - intros d H. exact (highest_is_candidate r pattern re d C H).
  - exact (highest_none r pattern re C).
Qed.

Lemma highest_is_matching_witness :
  (forall d,
      find_tag_with_pattern [" 1.0.0"; "v2"] PRODUCTION = Ok (Some d) ->
      (exists t, In t [" 1.0.0"; "v2"]
                 /\ truthy (search_re (chain_re PROD_CHAIN) t) = true /\ d = strip t)
      /\ exists v, Semver.parse d = Ok v)
  /\ (find_tag_with_pattern [" 1.0.0"; "v2"] PRODUCTION = Ok None ->
      forall t, In t [" 1.0.0"; "v2"] -> search_re (chain_re PROD_CHAIN) t = None).
Proof.
  apply (highest_is_matching [" 1.0.0"; "v2"] PRODUCTION (chain_re PROD_CHAIN)).
  reflexivity.
Defined.

(** X15: [increment_prerelease_tag] can be chained: the tag that a call
    with a channel of lowercase letters has created is of the prerelease
    grammar, and a second call on it, in whatever repository, passes the
    format check and the reading by [semver] and goes on to the creation
    of a next tag. *)
Theorem advance_chains r tag ch major_bump v r' :
  channel ch = true ->
  increment_prerelease_tag r tag ch major_bump = Ok (v, r') ->
  matches PRERELEASE (name_of v) = true
  /\ forall later ch' major_bump',
       exists next,
         increment_prerelease_tag later (Some (name_of v)) ch' major_bump'
         = created later next.
Proof.
  intros C H.
  destruct (advance_name r tag ch major_bump v r' C H) as (M & m & p & c & n & Cc & E).
  rewrite E. split; [apply (matches_ptag M m p c n Cc)|].
  intros later ch' major_bump'.
  rewrite (advance_ptag later M m p c n ch' major_bump' Cc).
  rewrite (rc_name M m p).
  rewrite (find_tag_spec later _ (shaped_namechars _ (shaped_ptag M m p "rc" 1 channel_rc))).
  cbn [bind]. eexists. reflexivity.
Qed.

Lemma advance_chains_witness :
  matches PRERELEASE (name_of (TStr "2.0.0-dev.1")) = true
  /\ forall later ch' major_bump',
       exists next,
         increment_prerelease_tag later (Some (name_of (TStr "2.0.0-dev.1"))) ch' major_bump'
         = created later next.
Proof.
  apply (advance_chains ["1.0.0-dev.5"; "1.0.0-rc.1"] (Some "1.0.0-dev.5") "dev" true
           (TStr "2.0.0-dev.1") ["1.0.0-dev.5"; "1.0.0-rc.1"; "2.0.0-dev.1"]).
  - reflexivity.
  - vm_compute. reflexivity.
Defined.
